(** * polareth/trace: the storage-slot labelling engine

    A shallow embedding of the slot engine ([src/lib/slots/engine.ts], the
    module [trace.ts] imports as [@/lib/slots/engine]: [computeMappingSlot],
    [computeNestedMappingSlot], [computeArraySlot], [extractPotentialKeys],
    [findLayoutInfoAtSlot], [isValidArrayIndex]) and of two functions of the
    older [src/lib/slot-engine.ts] ([normalizeSlot],
    [extractPotentialValuesFromTrace]), together with the fragment of
    viem/tevm they call ([keccak256], [padHex], [toHex], [hexToBigInt],
    [isHex]).

    JavaScript strings are modelled as [string]s of code units below 256,
    [bigint]s and integral [number]s as [Z], arrays as lists, a [Map] as the
    list of its entries in insertion order, an exception as the [Err] of a
    [result]. *)

From Stdlib Require Import List NArith ZArith String Ascii Lia Bool.
From Stdlib Require Import Permutation Sorted.
From Stdlib Require Import Strings.Byte.
Import ListNotations.

Local Open Scope string_scope.
Local Open Scope Z_scope.

(* ================================================================== *)
(** * Keccak-256 (the Ethereum variant, as [@noble/hashes] computes it) *)
(* ================================================================== *)

Module Keccak.

Local Open Scope list_scope.

Definition mask64 : N := 0xFFFFFFFFFFFFFFFF%N.

Definition rotl64 (x n : N) : N :=
  N.land (N.lor (N.shiftl x n) (N.shiftr x (64 - n))) mask64.

Definition RC : list N :=
  [ 0x0000000000000001; 0x0000000000008082; 0x800000000000808A;
    0x8000000080008000; 0x000000000000808B; 0x0000000080000001;
    0x8000000080008081; 0x8000000000008009; 0x000000000000008A;
    0x0000000000000088; 0x0000000080008009; 0x000000008000000A;
    0x000000008000808B; 0x800000000000008B; 0x8000000000008089;
    0x8000000000008003; 0x8000000000008002; 0x8000000000000080;
    0x000000000000800A; 0x800000008000000A; 0x8000000080008081;
    0x8000000000008080; 0x0000000080000001; 0x8000000080008008 ]%N.

(** Rotation offsets of the rho step, indexed by [x + 5 * y]. *)
Definition RHO : list N :=
  [ 0; 1; 62; 28; 27;
    36; 44; 6; 55; 20;
    3; 10; 43; 25; 39;
    41; 45; 15; 21; 8;
    18; 2; 61; 56; 14 ]%N.

(** The state is the list of its 25 lanes, lane [(x, y)] at [x + 5 * y]. *)
Definition lane (st : list N) (x y : nat) : N :=
  nth ((x mod 5) + 5 * (y mod 5))%nat st 0%N.

Definition positions : list (nat * nat) :=
  flat_map (fun y => map (fun x => (x, y)) (seq 0 5)) (seq 0 5).

Definition theta (st : list N) : list N :=
  let C := map (fun x => fold_left N.lxor (map (lane st x) (seq 0 5)) 0%N)
               (seq 0 5) in
  let D := map (fun x => N.lxor (nth ((x + 4) mod 5)%nat C 0%N)
                                (rotl64 (nth ((x + 1) mod 5)%nat C 0%N) 1))
               (seq 0 5) in
  map (fun '(x, y) => N.lxor (lane st x y) (nth x D 0%N)) positions.

(** rho and pi in one pass: the lane landing on [(X, Y)] is lane
    [((X + 3 Y) mod 5, X)], rotated by its offset. *)
Definition rho_pi (st : list N) : list N :=
  map (fun '(X, Y) =>
         let x := ((X + 3 * Y) mod 5)%nat in
         rotl64 (lane st x X) (nth (x + 5 * X)%nat RHO 0%N)) positions.

Definition chi (st : list N) : list N :=
  map (fun '(x, y) =>
         N.lxor (lane st x y)
                (N.land (N.lxor (lane st (x + 1)%nat y) mask64)
                        (lane st (x + 2)%nat y)))
      positions.

Definition iota (rc : N) (st : list N) : list N :=
  match st with
  | [] => []
  | a :: rest => N.lxor a rc :: rest
  end.

Definition round (st : list N) (rc : N) : list N :=
  iota rc (chi (rho_pi (theta st))).

Definition keccak_f (st : list N) : list N := fold_left round RC st.

(** Rate of Keccak-256 in bytes: (1600 - 2 * 256) / 8. *)
Definition rate : nat := 136.

Fixpoint le_lane (bs : list N) : N :=
  match bs with
  | [] => 0
  | b :: rest => b + 256 * le_lane rest
  end%N.

Fixpoint chunks (fuel n : nat) (l : list N) : list (list N) :=
  match fuel with
  | O => []
  | S fuel' =>
      match l with
      | [] => []
      | _ => firstn n l :: chunks fuel' n (skipn n l)
      end
  end.

(** Multi-rate padding with the Keccak domain byte [0x01]. *)
Definition pad (msg : list N) : list N :=
  let q := (rate - (List.length msg mod rate))%nat in
  match q with
  | 1%nat => msg ++ [0x81%N]
  | _ => msg ++ [0x01%N] ++ repeat 0%N (q - 2)%nat ++ [0x80%N]
  end.

Definition absorb (st block : list N) : list N :=
  let lanes := map le_lane (chunks 25 8 block) ++ repeat 0%N 8 in
  keccak_f (map (fun '(a, b) => N.lxor a b) (combine st lanes)).

Definition lane_bytes (w : N) : list N :=
  map (fun i => N.land (N.shiftr w (8 * N.of_nat i)) 0xFF%N) (seq 0 8).

Definition keccak_256_N (msg : list N) : list N :=
  let p := pad msg in
  let st := fold_left absorb (chunks (S (List.length p)) rate p) (repeat 0%N 25) in
  flat_map (fun i => lane_bytes (nth i st 0%N)) (seq 0 4).

Definition byte_of_N (n : N) : byte :=
  match Byte.of_N n with Some b => b | None => x00 end.

Definition keccak_256 (msg : list byte) : list byte :=
  map byte_of_N (keccak_256_N (map Byte.to_N msg)).

End Keccak.

(* ================================================================== *)
(** * Exceptions *)
(* ================================================================== *)

(** The exceptions the modelled code can raise. *)
Inductive error : Type :=
| SizeExceedsPaddingSizeError (size targetSize : nat)
| SizeOverflowError (size maxSize : nat)
| IntegerOutOfRangeError (value : Z)
| InvalidByteSequence
| SyntaxError
| TypeError
| AbiError (msg : string).

Inductive result (A : Type) : Type :=
| Ok (a : A)
| Err (e : error).

Arguments Ok {A} a.
Arguments Err {A} e.

Definition bind {A B : Type} (r : result A) (f : A -> result B) : result B :=
  match r with
  | Ok a => f a
  | Err e => Err e
  end.

Notation "x <- r ;; k" := (bind r (fun x => k))
  (at level 61, r at next level, right associativity).

(** [array.forEach(body)] over a mutable accumulator, and the same loop when
    the body can raise: the first exception leaves the loop. *)
Fixpoint forEach {A S : Type} (l : list A) (body : A -> S -> S) (s : S) : S :=
  match l with
  | [] => s
  | a :: rest => forEach rest body (body a s)
  end.

Fixpoint forEachM {A S : Type} (l : list A) (body : A -> S -> result S) (s : S)
  : result S :=
  match l with
  | [] => Ok s
  | a :: rest => s' <- body a s ;; forEachM rest body s'
  end.

(* ================================================================== *)
(** * JavaScript strings *)
(* ================================================================== *)

Module Js.

Fixpoint startsWith (s p : string) {struct p} : bool :=
  match p with
  | EmptyString => true
  | String a p' =>
      match s with
      | EmptyString => false
      | String b s' => Ascii.eqb a b && startsWith s' p'
      end
  end.

Fixpoint drop (n : nat) (s : string) : string :=
  match n, s with
  | O, _ => s
  | S _, EmptyString => EmptyString
  | S n', String _ s' => drop n' s'
  end.

Fixpoint take (n : nat) (s : string) : string :=
  match n, s with
  | O, _ => EmptyString
  | S _, EmptyString => EmptyString
  | S n', String c s' => String c (take n' s')
  end.

(** [s.slice(a, b)] and [s.slice(a)] for non-negative positions. *)
Definition slice (a b : nat) (s : string) : string := take (b - a) (drop a s).
Definition sliceFrom (a : nat) (s : string) : string := drop a s.

(** [s.replace(p, "")] with a string pattern: the first occurrence goes. *)
Fixpoint removeFirst (p s : string) : string :=
  if startsWith s p then drop (String.length p) s
  else match s with
       | EmptyString => EmptyString
       | String c s' => String c (removeFirst p s')
       end.

(** [s.replace(/^p/, "")] *)
Definition removePrefix (p s : string) : string :=
  if startsWith s p then drop (String.length p) s else s.

Fixpoint includes (s p : string) : bool :=
  if startsWith s p then true
  else match s with
       | EmptyString => false
       | String _ s' => includes s' p
       end.

Definition lowerChar (c : ascii) : ascii :=
  let n := nat_of_ascii c in
  if ((65 <=? n) && (n <=? 90))%nat then ascii_of_nat (n + 32) else c.

Fixpoint toLowerCase (s : string) : string :=
  match s with
  | EmptyString => EmptyString
  | String c s' => String (lowerChar c) (toLowerCase s')
  end.

Fixpoint repeatChar (c : ascii) (n : nat) : string :=
  match n with
  | O => EmptyString
  | S n' => String c (repeatChar c n')
  end.

Definition padStart (n : nat) (c : ascii) (s : string) : string :=
  repeatChar c (n - String.length s) ++ s.

Definition padEnd (n : nat) (c : ascii) (s : string) : string :=
  s ++ repeatChar c (n - String.length s).

(** Truthiness of a string and of an optional string. *)
Definition truthy (s : string) : bool := negb (s =? "")%string.

Definition truthyOpt (s : option string) : bool :=
  match s with
  | Some s' => truthy s'
  | None => false
  end.

(** White space and line terminators below code unit 256. *)
Definition isWhiteSpace (c : ascii) : bool :=
  let n := nat_of_ascii c in
  ((9 <=? n) && (n <=? 13) || (n =? 32) || (n =? 160))%nat.

Fixpoint trimStart (s : string) : string :=
  match s with
  | EmptyString => EmptyString
  | String c s' => if isWhiteSpace c then trimStart s' else s
  end.

Fixpoint trimEnd (s : string) : string :=
  match s with
  | EmptyString => EmptyString
  | String c s' =>
      let t := trimEnd s' in
      if isWhiteSpace c && (t =? "")%string then EmptyString else String c t
  end.

Definition trim (s : string) : string := trimEnd (trimStart s).

(** Value of a digit or letter in bases up to 16. *)
Definition digitValue (c : ascii) : option Z :=
  let n := Z.of_nat (nat_of_ascii c) in
  if (48 <=? n) && (n <=? 57) then Some (n - 48)
  else if (65 <=? n) && (n <=? 70) then Some (n - 55)
  else if (97 <=? n) && (n <=? 102) then Some (n - 87)
  else None.

Fixpoint parseDigits (base acc : Z) (s : string) : option Z :=
  match s with
  | EmptyString => Some acc
  | String c s' =>
      match digitValue c with
      | Some d => if d <? base then parseDigits base (acc * base + d) s' else None
      | None => None
      end
  end.

Definition parseNonEmpty (base : Z) (s : string) : option Z :=
  match s with
  | EmptyString => None
  | _ => parseDigits base 0 s
  end.

(** [BigInt(s)] on a string: StringToBigInt, [None] for a SyntaxError. *)
Definition stringToBigInt (s : string) : option Z :=
  match trim s with
  | EmptyString => Some 0
  | String "0" (String "x" d) | String "0" (String "X" d) => parseNonEmpty 16 d
  | String "0" (String "o" d) | String "0" (String "O" d) => parseNonEmpty 8 d
  | String "0" (String "b" d) | String "0" (String "B" d) => parseNonEmpty 2 d
  | String "-" d => option_map Z.opp (parseNonEmpty 10 d)
  | String "+" d => parseNonEmpty 10 d
  | d => parseNonEmpty 10 d
  end.

Definition hexChar (d : Z) : ascii :=
  match String.get (Z.to_nat d) "0123456789abcdef" with
  | Some c => c
  | None => "0"%char
  end.

(** Digits of [n], most significant first, in front of [acc]. *)
Fixpoint digitsFrom (fuel : nat) (base n : Z) (acc : string) : string :=
  match fuel with
  | O => acc
  | S fuel' =>
      let acc' := String (hexChar (n mod base)) acc in
      if n / base =? 0 then acc' else digitsFrom fuel' base (n / base) acc'
  end.

(** [n.toString(base)] for [n >= 0] and [2 <= base <= 16]. *)
Definition toStringRadix (base n : Z) : string :=
  digitsFrom (S (Z.to_nat (Z.log2 n))) base n EmptyString.

(** [String(n)] and [n.toString()] on an integer. *)
Definition toStringZ (n : Z) : string :=
  if n <? 0 then String "-" (toStringRadix 10 (- n)) else toStringRadix 10 n.

End Js.

(* ================================================================== *)
(** * The viem functions the engine calls *)
(* ================================================================== *)

Module Viem.

Definition isHexDigit (c : ascii) : bool :=
  match Js.digitValue c with
  | Some _ => true
  | None => false
  end.

Fixpoint allHexDigits (s : string) : bool :=
  match s with
  | EmptyString => true
  | String c s' => isHexDigit c && allHexDigits s'
  end.

(** [isHex(value)], strict: [/^0x[0-9a-fA-F]*$/]. *)
Definition isHex (value : string) : bool :=
  match value with
  | String "0" (String "x" digits) => allHexDigits digits
  | _ => false
  end.

(** A 32-byte word in hex: [0x] and 64 hex digits. *)
Definition isHex256 (value : string) : bool :=
  isHex value && (String.length value =? 66)%nat.

Definition byte_of_Z (n : Z) : byte := Keccak.byte_of_N (Z.to_N n).
Definition Z_of_byte (b : byte) : Z := Z.of_N (Byte.to_N b).

(** The number a list of bytes spells, most significant byte first, on top
    of the digits already read in [acc]. *)
Fixpoint beValue (acc : Z) (bs : list byte) : Z :=
  match bs with
  | [] => acc
  | b :: rest => beValue (acc * 256 + Z_of_byte b) rest
  end.

(** [toU256]: a 32-byte word as an unsigned integer. *)
Definition toU256 (bs : list byte) : Z := beValue 0 bs.

(** The loop of [hexToBytes]: two digits a byte. *)
Fixpoint hexPairs (s : string) : result (list byte) :=
  match s with
  | EmptyString => Ok []
  | String _ EmptyString => Err InvalidByteSequence
  | String a (String b rest) =>
      match Js.digitValue a, Js.digitValue b with
      | Some h, Some l =>
          bs <- hexPairs rest ;; Ok (byte_of_Z (h * 16 + l) :: bs)
      | _, _ => Err InvalidByteSequence
      end
  end.

Definition hexToBytes (hex : string) : result (list byte) :=
  let hexString := Js.sliceFrom 2 hex in
  let hexString :=
    if Nat.odd (String.length hexString) then String "0" hexString
    else hexString in
  hexPairs hexString.

Definition byteHex (b : byte) : string :=
  let n := Z_of_byte b in
  String (Js.hexChar (n / 16)) (String (Js.hexChar (n mod 16)) EmptyString).

Fixpoint hexDigitsOfBytes (bs : list byte) : string :=
  match bs with
  | [] => EmptyString
  | b :: rest => byteHex b ++ hexDigitsOfBytes rest
  end.

Definition bytesToHex (bs : list byte) : string :=
  "0x" ++ hexDigitsOfBytes bs.

(** UTF-8 of a string of code units below 256. *)
Definition utf8Char (c : ascii) : list byte :=
  let n := Z.of_nat (nat_of_ascii c) in
  if n <? 128 then [byte_of_Z n]
  else [byte_of_Z (192 + n / 64); byte_of_Z (128 + n mod 64)].

Fixpoint stringToBytes (s : string) : list byte :=
  match s with
  | EmptyString => []
  | String c s' => (utf8Char c ++ stringToBytes s')%list
  end.

(** [toBytes(value)] on a string. [hexToBytes] cannot raise on a strict hex
    string, so the second branch of the [match] is never taken. *)
Definition toBytes (value : string) : list byte :=
  if isHex value then
    match hexToBytes value with
    | Ok bs => bs
    | Err _ => []
    end
  else stringToBytes value.

(** [keccak256(value)] on a string, with the hex result. *)
Definition keccak256 (value : string) : string :=
  bytesToHex (Keccak.keccak_256 (toBytes value)).

(** [padHex(hex, { size })], padding on the left. *)
Definition padHex (hex_ : string) (size : nat) : result string :=
  let hex := Js.removeFirst "0x" hex_ in
  if (size * 2 <? String.length hex)%nat then
    Err (SizeExceedsPaddingSizeError (Nat.div2 (S (String.length hex))) size)
  else Ok ("0x" ++ Js.padStart (size * 2) "0" hex).

Definition padHexRight (hex_ : string) (size : nat) : result string :=
  let hex := Js.removeFirst "0x" hex_ in
  if (size * 2 <? String.length hex)%nat then
    Err (SizeExceedsPaddingSizeError (Nat.div2 (S (String.length hex))) size)
  else Ok ("0x" ++ Js.padEnd (size * 2) "0" hex).

Definition MAX_SAFE_INTEGER : Z := 2 ^ 53 - 1.

(** [numberToHex(value, { size })], unsigned. [isNumber] tells a [number]
    from a [bigint]: without a size only a [number] has an upper bound. *)
Definition numberToHex (isNumber : bool) (value : Z) (size : option nat)
  : result string :=
  let maxValue :=
    match size with
    | Some (S _ as sz) => Some (2 ^ (Z.of_nat sz * 8) - 1)
    | _ => if isNumber then Some MAX_SAFE_INTEGER else None
    end in
  let tooLarge :=
    match maxValue with
    | Some m => negb (m =? 0) && (m <? value)
    | None => false
    end in
  if tooLarge || (value <? 0) then Err (IntegerOutOfRangeError value)
  else
    let hex := "0x" ++ Js.toStringRadix 16 value in
    match size with
    | Some (S _ as sz) => padHex hex sz
    | _ => Ok hex
    end.

(** [stringToHex(value, { size })]: UTF-8, then padded on the right. *)
Definition stringToHex (value : string) (size : option nat) : result string :=
  let hex := bytesToHex (stringToBytes value) in
  match size with
  | Some sz =>
      let n := List.length (stringToBytes value) in
      if (sz <? n)%nat then Err (SizeOverflowError n sz)
      else padHexRight hex sz
  | None => Ok hex
  end.

(** [hexToBigInt(hex)] is [BigInt(hex)]. *)
Definition hexToBigInt (hex : string) : result Z :=
  match Js.stringToBigInt hex with
  | Some v => Ok v
  | None => Err SyntaxError
  end.

End Viem.

(* ================================================================== *)
(** * JavaScript values and maps *)
(* ================================================================== *)

(** A value of type [string | number | bigint]. *)
Inductive Scalar : Type :=
| SString (s : string)
| SNumber (n : Z)
| SBigInt (n : Z).

(** A decoded ABI value. *)
#[warnings="-register-all"] Inductive JsValue : Type :=
| JString (s : string)
| JBigInt (n : Z)
| JBool (b : bool)
| JArray (items : list JsValue).

(** [Map<string, V>]: entries in insertion order; [set] on a key already
    present replaces the value where the key stands. *)
Module JsMap.

Definition t (V : Type) : Type := list (string * V).

Definition empty {V : Type} : t V := [].

Fixpoint get {V : Type} (k : string) (m : t V) : option V :=
  match m with
  | [] => None
  | (k', v) :: rest => if (k' =? k)%string then Some v else get k rest
  end.

Definition has {V : Type} (k : string) (m : t V) : bool :=
  match get k m with
  | Some _ => true
  | None => false
  end.

Fixpoint set {V : Type} (k : string) (v : V) (m : t V) : t V :=
  match m with
  | [] => [(k, v)]
  | (k', v') :: rest =>
      if (k' =? k)%string then (k, v) :: rest else (k', v') :: set k v rest
  end.

Definition values {V : Type} (m : t V) : list V := map snd m.

End JsMap.

Definition indexed {A : Type} (l : list A) : list (nat * A) :=
  combine (seq 0 (List.length l)) l.

(* ================================================================== *)
(** * The slot engine, [src/lib/slots/engine.ts] *)
(* ================================================================== *)

Module MappingKey.
Record t : Type := mk {
  hex : string;
  decoded : option JsValue;
  type : option string
}.
End MappingKey.

(** The fields of [StorageSlotInfo] the two engines read. *)
Module StorageSlotInfo.
Record t : Type := mk {
  label : string;
  slot : string;
  type : string;
  encoding : string;
  offset : option Z;
  isComputed : option bool;
  baseType : option string;
  keyType : option string;
  valueType : option string
}.
End StorageSlotInfo.

Inductive MatchType : Type := Exact | Mapping | NestedMapping | Array.

Module SlotLabelResult.
Record t : Type := mk {
  label : string;
  slot : string;
  matchType : MatchType;
  type : option string;
  offset : option Z;
  keys : option (list MappingKey.t);
  index : option string
}.
End SlotLabelResult.

Module Engine.

(** [keccak256(`0x${key.hex.replace("0x", "")}${baseSlot.replace("0x", "")}`)] *)
Definition computeMappingSlot (baseSlot : string) (key : MappingKey.t) : string :=
  Viem.keccak256
    ("0x" ++ Js.removeFirst "0x" (MappingKey.hex key)
          ++ Js.removeFirst "0x" baseSlot).

Definition computeNestedMappingSlot (baseSlot : string) (keys : list MappingKey.t)
  : string :=
  if (List.length keys =? 0)%nat then baseSlot
  else forEach keys (fun key slot => computeMappingSlot slot key) baseSlot.

Definition computeArraySlot (baseSlot : string) (index : Z) : result string :=
  slotBigInt <- Viem.hexToBigInt (Viem.keccak256 baseSlot) ;;
  Viem.numberToHex false (slotBigInt + index) (Some 32%nat).

Definition LIMIT : Z := 1000000.

Definition isValidArrayIndex (index : string) : result bool :=
  indexBigInt <- Viem.hexToBigInt index ;;
  Ok ((0 <=? indexBigInt) && (indexBigInt <? LIMIT)).

(** The synthetic label of a slot no layout entry accounts for. *)
Definition fallback (slot : string) : SlotLabelResult.t :=
  {| SlotLabelResult.label := "var_" ++ Js.slice 0 10 slot;
     SlotLabelResult.slot := slot;
     SlotLabelResult.matchType := Exact;
     SlotLabelResult.type := None;
     SlotLabelResult.offset := None;
     SlotLabelResult.keys := None;
     SlotLabelResult.index := None |}.

Definition isDirect (item : StorageSlotInfo.t) : bool :=
  match StorageSlotInfo.isComputed item with
  | Some true => false
  | _ => true
  end.

(** The [Map<Hex, Set<StorageSlotInfo>>] of the direct pass. The entries of
    a layout are pairwise distinct objects, so [Set.add] appends. *)
Definition groupStep (directSlot : StorageSlotInfo.t)
           (slotToInfo : JsMap.t (list StorageSlotInfo.t))
  : JsMap.t (list StorageSlotInfo.t) :=
  let key := StorageSlotInfo.slot directSlot in
  let slotToInfo :=
    if negb (JsMap.has key slotToInfo) then JsMap.set key [] slotToInfo
    else slotToInfo in
  match JsMap.get key slotToInfo with
  | Some set => JsMap.set key (set ++ [directSlot])%list slotToInfo
  | None => slotToInfo
  end.

Definition groupBySlot (directSlots : list StorageSlotInfo.t)
  : JsMap.t (list StorageSlotInfo.t) :=
  forEach directSlots groupStep JsMap.empty.

Definition offsetOrZero (item : StorageSlotInfo.t) : Z :=
  match StorageSlotInfo.offset item with
  | Some o => o
  | None => 0
  end.

(** [matching.sort((a, b) => (a.offset ?? 0) - (b.offset ?? 0))]: the sort
    is stable, an entry stays in front of later entries of equal offset. *)
Fixpoint insertByOffset (x : StorageSlotInfo.t) (l : list StorageSlotInfo.t)
  : list StorageSlotInfo.t :=
  match l with
  | [] => [x]
  | y :: rest =>
      if offsetOrZero x <=? offsetOrZero y then x :: l
      else y :: insertByOffset x rest
  end.

Fixpoint sortByOffset (l : list StorageSlotInfo.t) : list StorageSlotInfo.t :=
  match l with
  | [] => []
  | x :: rest => insertByOffset x (sortByOffset rest)
  end.

Definition directResult (slot : string) (m : StorageSlotInfo.t) : SlotLabelResult.t :=
  {| SlotLabelResult.label := StorageSlotInfo.label m;
     SlotLabelResult.slot := slot;
     SlotLabelResult.matchType := Exact;
     SlotLabelResult.type := Some (StorageSlotInfo.type m);
     SlotLabelResult.offset := StorageSlotInfo.offset m;
     SlotLabelResult.keys := None;
     SlotLabelResult.index := None |}.

(** [item.valueType?.includes("mapping")], [undefined] counting as false. *)
Definition valueTypeIsMapping (item : StorageSlotInfo.t) : bool :=
  match StorageSlotInfo.valueType item with
  | Some vt => Js.includes vt "mapping"
  | None => false
  end.

Definition isSimpleMapping (item : StorageSlotInfo.t) : bool :=
  (StorageSlotInfo.encoding item =? "mapping")%string
  && negb (valueTypeIsMapping item).

Definition isDynamicArray (item : StorageSlotInfo.t) : bool :=
  (StorageSlotInfo.encoding item =? "dynamic_array")%string.

Definition mappingResult (slot : string) (mapping : StorageSlotInfo.t)
           (key : MappingKey.t) : SlotLabelResult.t :=
  {| SlotLabelResult.label := StorageSlotInfo.label mapping;
     SlotLabelResult.slot := slot;
     SlotLabelResult.matchType := Mapping;
     SlotLabelResult.type := StorageSlotInfo.valueType mapping;
     SlotLabelResult.offset := None;
     SlotLabelResult.keys := Some [key];
     SlotLabelResult.index := None |}.

Definition nestedResult (slot : string) (mapping : StorageSlotInfo.t)
           (keys : list MappingKey.t) : SlotLabelResult.t :=
  {| SlotLabelResult.label := StorageSlotInfo.label mapping;
     SlotLabelResult.slot := slot;
     SlotLabelResult.matchType := NestedMapping;
     SlotLabelResult.type := StorageSlotInfo.valueType mapping;
     SlotLabelResult.offset := None;
     SlotLabelResult.keys := Some keys;
     SlotLabelResult.index := None |}.

Definition arrayResult (slot : string) (array : StorageSlotInfo.t)
           (key : MappingKey.t) : SlotLabelResult.t :=
  {| SlotLabelResult.label := StorageSlotInfo.label array;
     SlotLabelResult.slot := slot;
     SlotLabelResult.matchType := Array;
     SlotLabelResult.type := StorageSlotInfo.baseType array;
     SlotLabelResult.offset := None;
     SlotLabelResult.keys := None;
     SlotLabelResult.index := Some (MappingKey.hex key) |}.

(** Pass 1: the direct matches, when the slot has any. *)
Definition directPass (slot : string) (storageLayout : list StorageSlotInfo.t)
  : option (list SlotLabelResult.t) :=
  let directSlots := filter isDirect storageLayout in
  let slotToInfo := groupBySlot directSlots in
  if JsMap.has slot slotToInfo then
    match JsMap.get slot slotToInfo with
    | Some set =>
        let matching := sortByOffset set in
        let results := map (directResult slot) matching in
        if (0 <? List.length results)%nat then Some results else None
    | None => None
    end
  else None.

(** Pass 2: every candidate key against every mapping of plain values. *)
Definition mappingStep (slot : string) (mapping : StorageSlotInfo.t)
           (key : MappingKey.t) (results : list SlotLabelResult.t)
  : list SlotLabelResult.t :=
  let computedSlot := computeMappingSlot (StorageSlotInfo.slot mapping) key in
  if (computedSlot =? slot)%string
  then (results ++ [mappingResult slot mapping key])%list
  else results.

Definition mappingPass (slot : string) (mappings : list StorageSlotInfo.t)
           (potentialKeys : list MappingKey.t) (results : list SlotLabelResult.t)
  : list SlotLabelResult.t :=
  forEach mappings
    (fun mapping results => forEach potentialKeys (mappingStep slot mapping) results)
    results.

(** Pass 3: pairs of distinct candidates against the mappings of mappings.
    [key1 === key2] compares objects; the candidates are pairwise distinct
    objects, told apart by their position. *)
Definition nestedPass (slot : string) (nestedMappings : list StorageSlotInfo.t)
           (potentialKeys : list MappingKey.t) (results : list SlotLabelResult.t)
  : list SlotLabelResult.t :=
  forEach nestedMappings
    (fun mapping results =>
       forEach (indexed potentialKeys)
         (fun '(i, key1) results =>
            forEach (indexed potentialKeys)
              (fun '(j, key2) results =>
                 if (i =? j)%nat then results
                 else
                   let keys := [key1; key2] in
                   let computedSlot :=
                     computeNestedMappingSlot (StorageSlotInfo.slot mapping) keys in
                   if (computedSlot =? slot)%string
                   then (results ++ [nestedResult slot mapping keys])%list
                   else results)
              results)
         results)
    results.

(** Pass 4: the candidates that are reasonable indices against every
    dynamic array. *)
Definition arrayStep (slot : string) (array : StorageSlotInfo.t)
           (key : MappingKey.t) (results : list SlotLabelResult.t)
  : result (list SlotLabelResult.t) :=
  valid <- isValidArrayIndex (MappingKey.hex key) ;;
  if negb valid then Ok results
  else
    index <- Viem.hexToBigInt (MappingKey.hex key) ;;
    computedSlot <- computeArraySlot (StorageSlotInfo.slot array) index ;;
    if (computedSlot =? slot)%string
    then Ok (results ++ [arrayResult slot array key])%list
    else Ok results.

Definition arrayPass (slot : string) (arrays : list StorageSlotInfo.t)
           (potentialKeys : list MappingKey.t) (results : list SlotLabelResult.t)
  : result (list SlotLabelResult.t) :=
  forEachM arrays
    (fun array results => forEachM potentialKeys (arrayStep slot array) results)
    results.

Definition findLayoutInfoAtSlot (slot : string)
           (storageLayout : list StorageSlotInfo.t)
           (potentialKeys : list MappingKey.t)
  : result (list SlotLabelResult.t) :=
  let results : list SlotLabelResult.t := [] in
  if (List.length storageLayout =? 0)%nat then Ok [fallback slot]
  else
    match directPass slot storageLayout with
    | Some results => Ok results
    | None =>
        let mappings := filter isSimpleMapping storageLayout in
        let results := mappingPass slot mappings potentialKeys results in
        let nestedMappings := filter valueTypeIsMapping mappings in
        let results := nestedPass slot nestedMappings potentialKeys results in
        let arrays := filter isDynamicArray storageLayout in
        results <- arrayPass slot arrays potentialKeys results ;;
        if (List.length results =? 0)%nat then Ok [fallback slot]
        else Ok results
    end.

(** The direct (not computed) entries of a layout that sit at a slot. *)
Definition directAt (slot : string) (storageLayout : list StorageSlotInfo.t)
  : list StorageSlotInfo.t :=
  filter (fun item => isDirect item && (StorageSlotInfo.slot item =? slot)%string)
         storageLayout.

Definition offsetLe (a b : StorageSlotInfo.t) : Prop :=
  offsetOrZero a <= offsetOrZero b.

Definition setOrEmpty (o : option (list StorageSlotInfo.t))
  : list StorageSlotInfo.t :=
  match o with
  | Some l => l
  | None => []
  end.

(** What pass 2 appends for one mapping: a result for each candidate whose
    mapping slot is the observed slot. *)
Definition mappingHits (slot : string) (mapping : StorageSlotInfo.t)
           (keys : list MappingKey.t) : list SlotLabelResult.t :=
  flat_map (fun key =>
              if (computeMappingSlot (StorageSlotInfo.slot mapping) key =? slot)%string
              then [mappingResult slot mapping key] else [])
           keys.

(** What pass 4 appends for one array and one candidate when the probe does
    not raise: a result when the candidate is a reasonable index whose
    element slot is the observed slot. *)
Definition arrayHit (slot : string) (array : StorageSlotInfo.t)
           (key : MappingKey.t) : list SlotLabelResult.t :=
  match Viem.hexToBigInt (MappingKey.hex key) with
  | Ok index =>
      if (0 <=? index) && (index <? LIMIT) then
        match computeArraySlot (StorageSlotInfo.slot array) index with
        | Ok computedSlot =>
            if (computedSlot =? slot)%string
            then [arrayResult slot array key] else []
        | Err _ => []
        end
      else []
  | Err _ => []
  end.

Definition arrayHits (slot : string) (array : StorageSlotInfo.t)
           (keys : list MappingKey.t) : list SlotLabelResult.t :=
  flat_map (arrayHit slot array) keys.

(** The results of passes 2 and 4 over a layout, in the order the passes
    append them. *)
Definition computedHits (slot : string) (storageLayout : list StorageSlotInfo.t)
           (keys : list MappingKey.t) : list SlotLabelResult.t :=
  (flat_map (fun m => mappingHits slot m keys) (filter isSimpleMapping storageLayout)
   ++ flat_map (fun a => arrayHits slot a keys) (filter isDynamicArray storageLayout))%list.

End Engine.

(* ================================================================== *)
(** * The candidate keys, [extractPotentialKeys] *)
(* ================================================================== *)

Module AbiInput.
Record t : Type := mk { name : string; type : string }.
End AbiInput.

Module AbiFunction.
Record t : Type := mk {
  selector : string;
  inputs : option (list AbiInput.t)
}.
End AbiFunction.

Module Trace.
Record t : Type := mk {
  uniqueStackValues : option (list string);
  relevantOps : option (list (string * list string))
}.
End Trace.

(** viem's ABI codec, as far as [extractPotentialKeys] uses it:
    [decodeAbiParameters(inputs, data)] and
    [encodeAbiParameters([{ type }], [value])]. *)
Module AbiCodec.
Record t : Type := mk {
  decodeAbiParameters : list AbiInput.t -> string -> result (list JsValue);
  encodeAbiParameters : string -> JsValue -> result string
}.
End AbiCodec.

Module KeyOracle.

Section WithCodec.

Variable codec : AbiCodec.t.

Definition addressKey (address : string) : result MappingKey.t :=
  hex <- Viem.padHex address 32 ;;
  Ok (MappingKey.mk hex (Some (JString address)) (Some "address")).

(** The [keys.push] of a decoded argument of truthy type. *)
Definition pushParam (type : string) (p : JsValue) (keys : list MappingKey.t)
  : result (list MappingKey.t) :=
  if Js.truthy type then
    encoded <- AbiCodec.encodeAbiParameters codec type p ;;
    hex <- Viem.padHex encoded 32 ;;
    Ok (keys ++ [MappingKey.mk hex (Some p) (Some type)])%list
  else Ok keys.

(** [inputs[index].type]; reading [.type] of [undefined] is a TypeError. *)
Definition inputType (inputs : list AbiInput.t) (index : nat) : result string :=
  match nth_error inputs index with
  | Some input => Ok (AbiInput.type input)
  | None => Err TypeError
  end.

Definition paramKeys (inputs : list AbiInput.t) (params : list JsValue)
           (keys : list MappingKey.t) : result (list MappingKey.t) :=
  forEachM (indexed params)
    (fun '(index, param) keys =>
       match param with
       | JArray items =>
           forEachM items
             (fun p keys =>
                ty <- inputType inputs index ;;
                pushParam (Js.removeFirst "[]" ty) p keys)
             keys
       | _ =>
           ty <- inputType inputs index ;;
           pushParam ty param keys
       end)
    keys.

Definition calldataKeys (abiFunctions : list AbiFunction.t)
           (txData : option string) (keys : list MappingKey.t)
  : result (list MappingKey.t) :=
  match txData with
  | Some txData =>
      if Js.truthy txData && (10 <? String.length txData)%nat then
        let selector := Js.slice 0 10 txData in
        match find (fun fn => (AbiFunction.selector fn =? selector)%string)
                   abiFunctions with
        | Some fn =>
            match AbiFunction.inputs fn with
            | Some inputs =>
                params <- AbiCodec.decodeAbiParameters codec inputs
                            ("0x" ++ Js.sliceFrom 10 txData) ;;
                paramKeys inputs params keys
            | None => Ok keys
            end
        | None => Ok keys
        end
      else Ok keys
  | None => Ok keys
  end.

Definition stackKey (stackValue : string) : result MappingKey.t :=
  hex <- (if Viem.isHex stackValue then Viem.padHex stackValue 32
          else Viem.stringToHex stackValue (Some 32%nat)) ;;
  Ok (MappingKey.mk hex None None).

Definition stackKeys (trace : Trace.t) (keys : list MappingKey.t)
  : result (list MappingKey.t) :=
  match Trace.uniqueStackValues trace with
  | Some ((_ :: _) as values) =>
      forEachM values
        (fun stackValue keys =>
           k <- stackKey stackValue ;; Ok (keys ++ [k])%list)
        keys
  | _ => Ok keys
  end.

(** Everything pushed on [keys] before the deduplication. *)
Definition collectPotentialKeys (trace : Trace.t) (addresses : list string)
           (abiFunctions : list AbiFunction.t) (txData : option string)
  : result (list MappingKey.t) :=
  keys <- forEachM addresses
            (fun address keys =>
               k <- addressKey address ;; Ok (keys ++ [k])%list)
            [] ;;
  keys <- calldataKeys abiFunctions txData keys ;;
  stackKeys trace keys.

(** [if (!uniqueMap.has(k.hex) || k.type) uniqueMap.set(k.hex, k)] *)
Definition dedupeStep (k : MappingKey.t) (uniqueMap : JsMap.t MappingKey.t)
  : JsMap.t MappingKey.t :=
  if negb (JsMap.has (MappingKey.hex k) uniqueMap)
     || Js.truthyOpt (MappingKey.type k)
  then JsMap.set (MappingKey.hex k) k uniqueMap
  else uniqueMap.

Definition dedupeKeys (keys : list MappingKey.t) : list MappingKey.t :=
  JsMap.values (forEach keys dedupeStep JsMap.empty).

Definition extractPotentialKeys (trace : Trace.t) (addresses : list string)
           (abiFunctions : list AbiFunction.t) (txData : option string)
  : result (list MappingKey.t) :=
  keys <- collectPotentialKeys trace addresses abiFunctions txData ;;
  Ok (dedupeKeys keys).

(** What a decoded parameter contributes: itself under its declared type
    or, when it is an array, each of its elements under the declared type
    without its first [[]]. *)
Definition paramValue (declared : string) (param : JsValue)
           (type : string) (p : JsValue) : Prop :=
  match param with
  | JArray items => In p items /\ type = Js.removeFirst "[]" declared
  | _ => p = param /\ type = declared
  end.

(** [p] is a decoded argument of the call, to be encoded under [type]: the
    calldata is longer than a selector, the first function of the ABI with
    its selector has inputs, the calldata after the selector decodes against
    them, and [p] is what the parameter at some position contributes under
    the type declared at that position. *)
Definition decodedArgument (abiFunctions : list AbiFunction.t) (data : string)
           (type : string) (p : JsValue) : Prop :=
  exists fn inputs params index input param,
    (10 < String.length data)%nat /\
    find (fun fn => (AbiFunction.selector fn =? Js.slice 0 10 data)%string)
         abiFunctions = Some fn /\
    AbiFunction.inputs fn = Some inputs /\
    AbiCodec.decodeAbiParameters codec inputs ("0x" ++ Js.sliceFrom 10 data)
    = Ok params /\
    nth_error params index = Some param /\
    nth_error inputs index = Some input /\
    paramValue (AbiInput.type input) param type p.

(** Where a candidate comes from: a touched address, a decoded calldata
    argument with its declared type, or a stack value. *)
Definition keyOrigin (trace : Trace.t) (addresses : list string)
           (abiFunctions : list AbiFunction.t)
           (txData : option string) (k : MappingKey.t) : Prop :=
  (exists address, In address addresses /\ addressKey address = Ok k)
  \/ (exists data type p encoded hex,
         txData = Some data /\ decodedArgument abiFunctions data type p /\
         Js.truthy type = true /\
         AbiCodec.encodeAbiParameters codec type p = Ok encoded /\
         Viem.padHex encoded 32 = Ok hex /\
         k = MappingKey.mk hex (Some p) (Some type))
  \/ (exists values stackValue,
         Trace.uniqueStackValues trace = Some values /\
         In stackValue values /\ stackKey stackValue = Ok k).

Definition allFrom (trace : Trace.t) (addresses : list string)
           (abiFunctions : list AbiFunction.t)
           (txData : option string) (keys : list MappingKey.t) : Prop :=
  forall k, In k keys -> keyOrigin trace addresses abiFunctions txData k.

End WithCodec.

(** The invariant of the deduplication loop: [uniqueMap] after the keys
    [seen]. *)
Definition dedupeInv (seen : list MappingKey.t) (uniqueMap : JsMap.t MappingKey.t)
  : Prop :=
  NoDup (map fst uniqueMap)
  /\ (forall h k, In (h, k) uniqueMap -> MappingKey.hex k = h /\ In k seen)
  /\ (forall c, In c seen ->
                exists k, JsMap.get (MappingKey.hex c) uniqueMap = Some k
                          /\ (Js.truthyOpt (MappingKey.type c) = true ->
                              Js.truthyOpt (MappingKey.type k) = true)).

End KeyOracle.

(* ================================================================== *)
(** * The older engine, [src/lib/slot-engine.ts] *)
(* ================================================================== *)

Module TraceValue.
Record t : Type := mk {
  value : Scalar;
  source : string;
  position : option Z;
  operation : string
}.
End TraceValue.

Module TxData.
Record t : Type := mk {
  from : option string;
  to : option string;
  data : option string
}.
End TxData.

Module Step.
Record t : Type := mk { op : string; stack : option (list string) }.
End Step.

(** The [trace] argument: the slim object or the full list of steps. *)
Inductive TraceArg : Type :=
| TraceObject (trace : Trace.t)
| TraceArray (steps : list Step.t).

Module SlotEngine.

Definition push {A : Type} (l : list A) (a : A) : list A := (l ++ [a])%list.

Definition addressValues (txData : TxData.t) (values : list TraceValue.t)
  : list TraceValue.t :=
  let values :=
    match TxData.from txData with
    | Some a =>
        if Js.truthy a
        then push values (TraceValue.mk (SString a) "address" (Some 0) "FROM")
        else values
    | None => values
    end in
  match TxData.to txData with
  | Some a =>
      if Js.truthy a
      then push values (TraceValue.mk (SString a) "address" (Some 1) "TO")
      else values
  | None => values
  end.

Definition constant (i : nat) : TraceValue.t :=
  TraceValue.mk (SNumber (Z.of_nat i)) "constant" (Some (Z.of_nat i)) "CONST".

(** [for (let i = 0; i < 10; i++) values.push(...)] *)
Definition constantValues (values : list TraceValue.t) : list TraceValue.t :=
  forEach (seq 0 10) (fun i values => push values (constant i)) values.

Definition TWO_128 : Z := 2 ^ 128.

(** The body of the loop over the 64-digit parameters of the calldata. *)
Definition argumentStep (data : string) (i : nat) (values : list TraceValue.t)
  : list TraceValue.t :=
  let paramStart := (10 + i * 64)%nat in
  let paramEnd := (paramStart + 64)%nat in
  let param := Js.slice paramStart paramEnd data in
  let pos := Some (Z.of_nat i) in
  let values := push values (TraceValue.mk (SString param) "argument" pos "ARG") in
  let values :=
    if Js.startsWith param "0x000000000000000000000000" then
      push values
           (TraceValue.mk (SString ("0x" ++ Js.sliceFrom 26 param))
                          "argument" pos "ADDRESS_ARG")
    else values in
  match Js.stringToBigInt param with
  | Some numValue =>
      if numValue <? TWO_128
      then push values (TraceValue.mk (SBigInt numValue) "argument" pos "NUMBER_ARG")
      else values
  | None => values
  end.

(** [i < (data.length - 10) / 64] holds for [i] below the quotient rounded
    up. *)
Definition argumentValues (txData : TxData.t) (values : list TraceValue.t)
  : list TraceValue.t :=
  match TxData.data txData with
  | Some data =>
      if Js.truthy data && (10 <=? String.length data)%nat then
        let paramLength := ((String.length data - 10 + 63) / 64)%nat in
        forEach (seq 0 paramLength) (argumentStep data) values
      else values
  | None => values
  end.

(** One stack value: kept when it is a number below 2^128 or no number. *)
Definition stackStep (operation : string) (stackValue : string)
           (values : list TraceValue.t) : list TraceValue.t :=
  let entry := TraceValue.mk (SString stackValue) "stack" None operation in
  match Js.stringToBigInt stackValue with
  | Some numValue => if numValue <? TWO_128 then push values entry else values
  | None => push values entry
  end.

Definition stackValues (trace : TraceArg) (values : list TraceValue.t)
  : list TraceValue.t :=
  match trace with
  | TraceObject t =>
      match Trace.uniqueStackValues t with
      | Some stack => forEach stack (stackStep "STACK") values
      | None => values
      end
  | TraceArray steps =>
      forEach steps
        (fun step values =>
           match Step.stack step with
           | Some stack =>
               if (0 <? List.length stack)%nat
               then forEach stack (stackStep (Step.op step)) values
               else values
           | None => values
           end)
        values
  end.

Definition keyValue (v : Scalar) : string :=
  match v with
  | SString s => s
  | SNumber n => Js.toStringZ n
  | SBigInt n => Js.toStringZ n
  end.

(** [`${keyValue}::${v.source}::${v.operation}`] *)
Definition dedupKey (v : TraceValue.t) : string :=
  keyValue (TraceValue.value v) ++ "::" ++ TraceValue.source v
    ++ "::" ++ TraceValue.operation v.

(** The decimal digit [j], for [j] below 10. *)
Definition digitChar (j : nat) : ascii := ascii_of_nat (48 + j).

(** [uniqueMap.set(key, v)] *)
Definition dedupStep (v : TraceValue.t) (uniqueMap : JsMap.t TraceValue.t)
  : JsMap.t TraceValue.t :=
  JsMap.set (dedupKey v) v uniqueMap.

Definition collectValues (trace : TraceArg) (txData : TxData.t)
  : list TraceValue.t :=
  stackValues trace (argumentValues txData (constantValues (addressValues txData []))).

Definition extractPotentialValuesFromTrace (trace : TraceArg) (txData : TxData.t)
  : list TraceValue.t :=
  let values := collectValues trace txData in
  JsMap.values (forEach values dedupStep JsMap.empty).

(** The sources of the entries that are not constants. *)
Definition otherSource (v : TraceValue.t) : Prop :=
  TraceValue.source v = "address" \/ TraceValue.source v = "argument"
  \/ TraceValue.source v = "stack".

Fixpoint dropZeros (s : string) : string :=
  match s with
  | String "0" s' => dropZeros s'
  | _ => s
  end.

(** [s.replace(/^0x0+/, "0x")] *)
Definition stripLeadingZeros (s : string) : string :=
  match s with
  | String "0" (String "x" (String "0" rest)) => "0x" ++ dropZeros rest
  | _ => s
  end.

Definition falsy (slot : Scalar) : bool :=
  match slot with
  | SString s => (s =? "")%string
  | SNumber n => n =? 0
  | SBigInt n => n =? 0
  end.

Definition normalizeSlot (slot : Scalar) : result string :=
  if falsy slot then Ok "0x0"
  else
    hexValue <-
      match slot with
      | SString s =>
          Ok (if Viem.isHex s then s else "0x" ++ Js.removePrefix "0x" s)
      | SNumber n => Viem.numberToHex true n None
      | SBigInt n => Viem.numberToHex false n None
      end ;;
    let normalized := Js.toLowerCase hexValue in
    let cleanSlot := stripLeadingZeros normalized in
    Ok (if (cleanSlot =? "0x")%string then "0x0" else cleanSlot).

(** The number a string of hex digits spells, an unknown digit counting
    as zero. *)
Fixpoint hexVal (s : string) : Z :=
  match s with
  | EmptyString => 0
  | String c s' =>
      match Js.digitValue c with
      | Some d => d
      | None => 0
      end * 16 ^ Z.of_nat (String.length s') + hexVal s'
  end.

(** The 256-bit value a slot argument denotes: a string of hex digits with
    or without the [0x] prefix, a non-negative safe integer, a non-negative
    bigint. Other arguments denote no slot. *)
Definition slotValue (slot : Scalar) : option Z :=
  match slot with
  | SString s =>
      let digits := Js.removePrefix "0x" s in
      if Viem.allHexDigits digits then Js.parseDigits 16 0 digits else None
  | SNumber n =>
      if (0 <=? n) && (n <=? Viem.MAX_SAFE_INTEGER) then Some n else None
  | SBigInt n => if 0 <=? n then Some n else None
  end.

(** The canonical spelling of a slot: [0x], then the lower-case hex digits
    of the value without leading zeros, [0x0] for zero. *)
Definition canonicalSlot (v : Z) : string := "0x" ++ Js.toStringRadix 16 v.

Definition isLowerHexDigit (c : ascii) : bool :=
  Viem.isHexDigit c && Ascii.eqb (Js.lowerChar c) c.

Fixpoint allLowerHex (s : string) : bool :=
  match s with
  | EmptyString => true
  | String c s' => isLowerHexDigit c && allLowerHex s'
  end.

Definition isCanonical (s : string) : bool :=
  match s with
  | String "0" (String "x" digits) =>
      allLowerHex digits && negb (digits =? "")%string
      && ((digits =? "0")%string || negb (Js.startsWith digits "0"))
  | _ => false
  end.

(** ** The slot computations of the older engine *)

(** [toHex(value)] without a size on a [string | number | bigint]: a number
    is written in hex, a string is encoded as text (UTF-8), also when the
    text spells a hex number. *)
Definition toHex (value : Scalar) : result string :=
  match value with
  | SString s => Viem.stringToHex s None
  | SNumber n => Viem.numberToHex true n None
  | SBigInt n => Viem.numberToHex false n None
  end.

(** [padHex(toHex(value), { size: 32 })] *)
Definition toWord (value : Scalar) : result string :=
  hex <- toHex value ;; Viem.padHex hex 32.

(** [BigInt(s)] on a string. *)
Definition toBigInt (s : string) : result Z :=
  match Js.stringToBigInt s with
  | Some v => Ok v
  | None => Err SyntaxError
  end.

(** [typeof key === "string" && isHex(key)] *)
Definition isHexString (key : Scalar) : bool :=
  match key with
  | SString s => Viem.isHex s
  | _ => false
  end.

(** [computeMappingSlot(baseSlot, key, keyType = "address")]; a number is an
    integer in the safe range, whose [toString()] is its decimal spelling. *)
Definition computeMappingSlot (baseSlot key : Scalar) (keyType : option string)
  : result string :=
  let keyType :=
    match keyType with
    | Some t => t
    | None => "address"
    end in
  keyHex <-
    (if isHexString key then Viem.padHex (keyValue key) 32
     else if Js.includes keyType "address" then toWord key
     else if Js.includes keyType "uint" || Js.includes keyType "int" then
       n <- toBigInt (keyValue key) ;; toWord (SBigInt n)
     else toWord key) ;;
  slotHex <- toWord baseSlot ;;
  let keyWithoutPrefix := Js.sliceFrom 2 keyHex in
  let slotWithoutPrefix := Js.sliceFrom 2 slotHex in
  let dataToHash := "0x" ++ keyWithoutPrefix ++ slotWithoutPrefix in
  Ok (Viem.keccak256 dataToHash).

(** [keyTypes[i] || "address"] *)
Definition keyTypeAt (keyTypes : list (option string)) (i : nat) : string :=
  match nth_error keyTypes i with
  | Some (Some t) => if Js.truthy t then t else "address"
  | _ => "address"
  end.

Definition computeNestedMappingSlot (baseSlot : Scalar) (keys : list Scalar)
           (keyTypes : list (option string)) : result Scalar :=
  if (List.length keys =? 0)%nat then
    hex <- toHex baseSlot ;; Ok (SString hex)
  else
    forEachM (indexed keys)
      (fun '(i, key) slot =>
         s <- computeMappingSlot slot key (Some (keyTypeAt keyTypes i)) ;;
         Ok (SString s))
      baseSlot.

Definition computeArraySlot (baseSlot index : Scalar) : result string :=
  indexBigInt <-
    match index with
    | SBigInt n => Ok n
    | _ => toBigInt (keyValue index)
    end ;;
  slotHex <- toWord baseSlot ;;
  let hash := Viem.keccak256 slotHex in
  hashBigInt <- Viem.hexToBigInt hash ;;
  let resultSlot := hashBigInt + indexBigInt in
  toHex (SBigInt resultSlot).

End SlotEngine.

(* ================================================================== *)
(** * The candidates of a call, [src/lib/trace.ts] *)
(* ================================================================== *)

Module StructLog.
Record t : Type := mk { op : string; stack : list string }.
End StructLog.

(** What [traceStorageAccess] computes between the call and the labelling:
    the touched addresses, the slim trace, and the candidate keys. *)
Module TraceTs.

Definition ZERO_ADDRESS : string := "0x0000000000000000000000000000000000000000".

(** [Object.values(callResult.preimages ?? {}).filter(address => address !== ZERO)] *)
Definition touchedAddresses (preimages : list string) : list string :=
  filter (fun address => negb (address =? ZERO_ADDRESS)%string) preimages.

(** [set.add(value)] on a [Set<string>] kept in insertion order. *)
Definition setAdd (value : string) (set : list string) : list string :=
  if existsb (String.eqb value) set then set else (set ++ [value])%list.

(** [[...new Set(values)]] *)
Definition newSet (values : list string) : list string :=
  forEach values setAdd [].

(** [["SLOAD", "SSTORE", "SHA3"].includes(log.op)] *)
Definition isRelevantOp (log : StructLog.t) : bool :=
  existsb (String.eqb (StructLog.op log)) ["SLOAD"; "SSTORE"; "SHA3"].

Definition dedupedTraceLog (traceLog : list StructLog.t) : Trace.t :=
  {| Trace.uniqueStackValues :=
       Some (newSet (flat_map StructLog.stack traceLog));
     Trace.relevantOps :=
       Some (map (fun log => (StructLog.op log, StructLog.stack log))
                 (filter isRelevantOp traceLog)) |}.

(** [extractPotentialKeys(dedupedTraceLog, addresses, abis, data)] *)
Definition potentialKeys (codec : AbiCodec.t) (preimages : list string)
           (traceLog : list StructLog.t) (abis : list AbiFunction.t)
           (data : option string) : result (list MappingKey.t) :=
  KeyOracle.extractPotentialKeys codec (dedupedTraceLog traceLog)
                                 (touchedAddresses preimages) abis data.

End TraceTs.

(* ================================================================== *)
(** * An instance of the ABI codec *)
(* ================================================================== *)

(** viem's [decodeAbiParameters] and [encodeAbiParameters] on the parameter
    types [uintN], [address], [bool] and [string] of the Solidity contract
    ABI; every other type is reported as outside the fragment. The engine is
    stated over an arbitrary codec, this instance serves the examples. *)
Module SampleAbi.

Definition readWord (bs : list byte) (pos : nat) : result (list byte) :=
  let w := firstn 32 (skipn pos bs) in
  if (List.length w =? 32)%nat then Ok w else Err (AbiError "PositionOutOfBounds").

Definition readBytes (bs : list byte) (pos len : nat) : result (list byte) :=
  let w := firstn len (skipn pos bs) in
  if (List.length w =? len)%nat then Ok w else Err (AbiError "PositionOutOfBounds").

Definition isUint (ty : string) : bool :=
  Js.startsWith ty "uint" && negb (Js.includes ty "[").

Fixpoint stringOfBytes (bs : list byte) : string :=
  match bs with
  | [] => EmptyString
  | b :: rest => String (ascii_of_byte b) (stringOfBytes rest)
  end.

Definition upperChar (c : ascii) : ascii :=
  let n := nat_of_ascii c in
  if ((97 <=? n) && (n <=? 122))%nat then ascii_of_nat (n - 32) else c.

(** EIP-55: a hex letter is upper case when the matching nibble of the hash
    of the lower-case address is 8 or more. *)
Fixpoint checksumDigits (digits : string) (hash : string) : string :=
  match digits, hash with
  | String d digits', String h hash' =>
      let up := match Js.digitValue h with
                | Some v => 8 <=? v
                | None => false
                end in
      String (if up then upperChar d else d) (checksumDigits digits' hash')
  | _, _ => digits
  end.

Definition checksumAddress (address : string) : string :=
  let hexAddress := Js.toLowerCase (Js.sliceFrom 2 address) in
  let hash := Viem.bytesToHex (Keccak.keccak_256 (Viem.stringToBytes hexAddress)) in
  "0x" ++ checksumDigits hexAddress (Js.sliceFrom 2 hash).

Definition decodeParameter (ty : string) (bs : list byte) (pos : nat)
  : result JsValue :=
  if (ty =? "string")%string then
    offset <- readWord bs pos ;;
    let start := Z.to_nat (Viem.beValue 0 offset) in
    len <- readWord bs start ;;
    data <- readBytes bs (start + 32) (Z.to_nat (Viem.beValue 0 len)) ;;
    Ok (JString (stringOfBytes data))
  else if (ty =? "address")%string then
    w <- readWord bs pos ;;
    Ok (JString (checksumAddress (Viem.bytesToHex (skipn 12 w))))
  else if (ty =? "bool")%string then
    w <- readWord bs pos ;;
    Ok (JBool (negb (Viem.beValue 0 w =? 0)))
  else if isUint ty then
    w <- readWord bs pos ;;
    Ok (JBigInt (Viem.beValue 0 w))
  else Err (AbiError "type outside the fragment").

Definition decodeAbiParameters (inputs : list AbiInput.t) (data : string)
  : result (list JsValue) :=
  bytes <- Viem.hexToBytes data ;;
  let size := List.length bytes in
  if (size =? 0)%nat && (0 <? List.length inputs)%nat
  then Err (AbiError "AbiDecodingZeroDataError")
  else if (0 <? size)%nat && (size <? 32)%nat
  then Err (AbiError "AbiDecodingDataSizeTooSmallError")
  else
    forEachM (indexed inputs)
      (fun '(i, input) values =>
         v <- decodeParameter (AbiInput.type input) bytes (32 * i) ;;
         Ok (values ++ [v])%list)
      [].

Definition wordDigits (n : Z) : string :=
  Js.padStart 64 "0" (Js.toStringRadix 16 n).

(** A string is dynamic: the offset of its tail, its length, then its
    bytes padded on the right to whole words. *)
Definition encodeString (s : string) : string :=
  let bytes := Viem.stringToBytes s in
  let len := List.length bytes in
  let padded := (((len + 31) / 32) * 32)%nat in
  "0x" ++ wordDigits 32 ++ wordDigits (Z.of_nat len)
       ++ Js.padEnd (padded * 2) "0" (Viem.hexDigitsOfBytes bytes).

Definition encodeAbiParameters (ty : string) (value : JsValue) : result string :=
  match value with
  | JBigInt n =>
      if isUint ty then Viem.numberToHex false n (Some 32%nat)
      else Err (AbiError "type outside the fragment")
  | JBool b =>
      if (ty =? "bool")%string
      then Viem.padHex (if b then "0x1" else "0x0") 32
      else Err (AbiError "type outside the fragment")
  | JString s =>
      if (ty =? "address")%string then
        if Viem.isHex s && (String.length s =? 42)%nat
        then Viem.padHex (Js.toLowerCase s) 32
        else Err (AbiError "InvalidAddressError")
      else if (ty =? "string")%string then Ok (encodeString s)
      else Err (AbiError "type outside the fragment")
  | JArray _ => Err (AbiError "type outside the fragment")
  end.

Definition codec : AbiCodec.t :=
  AbiCodec.mk decodeAbiParameters encodeAbiParameters.

End SampleAbi.

(* ================================================================== *)
(** * Sample inputs *)
(* ================================================================== *)

(** The layout of a contract in the style of [Mappings.sol], with two packed
    variables and a dynamic array added, and candidate keys of a call. *)
Module Sample.

Definition word (digits : string) : string := "0x" ++ Js.padStart 64 "0" digits.

Definition slot0 : string := word "0".
Definition slot1 : string := word "1".
Definition slot4 : string := word "4".
Definition slot5 : string := word "5".
Definition slot7 : string := word "7".

Definition direct (label slot type : string) (offset : Z) : StorageSlotInfo.t :=
  StorageSlotInfo.mk label slot type "inplace" (Some offset) (Some false)
                     None None None.

Definition owner : StorageSlotInfo.t := direct "owner" slot0 "t_address" 0.
Definition paused : StorageSlotInfo.t := direct "paused" slot0 "t_bool" 20.
Definition total : StorageSlotInfo.t := direct "total" slot1 "t_uint256" 0.

(** [mapping(uint256 => uint256[]) purchases] *)
Definition purchases : StorageSlotInfo.t :=
  StorageSlotInfo.mk "purchases" slot4
                     "t_mapping(t_uint256,t_array(t_uint256)dyn_storage)"
                     "mapping" (Some 0) (Some false)
                     None (Some "t_uint256") (Some "t_array(t_uint256)dyn_storage").

(** [uint256[] numbers] *)
Definition numbers : StorageSlotInfo.t :=
  StorageSlotInfo.mk "numbers" slot5 "t_array(t_uint256)dyn_storage"
                     "dynamic_array" (Some 0) (Some false)
                     (Some "t_uint256") None None.

Definition layout : list StorageSlotInfo.t :=
  [paused; owner; total; purchases; numbers].

Definition user : string := "0xd8da6bf26964af9d7eed9e03e53415d37aa96045".

(** A candidate of declared type [address]. *)
Definition userKey : MappingKey.t :=
  MappingKey.mk (word "d8da6bf26964af9d7eed9e03e53415d37aa96045")
                (Some (JString user)) (Some "address").

(** An untyped candidate from the stack. *)
Definition threeKey : MappingKey.t := MappingKey.mk (word "3") None None.

Definition keys : list MappingKey.t := [userKey; threeKey].

Definition bytes32 (b : byte) : list byte := repeat b 32.

Definition MAX_U256 : Z := 2 ^ 256 - 1.

(** [setName(string)] called with ["hello"]. *)
Definition setName : AbiFunction.t :=
  AbiFunction.mk "0xc47f0027" (Some [AbiInput.mk "name" "string"]).

Definition setNameCalldata : string :=
  "0xc47f0027"
    ++ "0000000000000000000000000000000000000000000000000000000000000020"
    ++ "0000000000000000000000000000000000000000000000000000000000000005"
    ++ "68656c6c6f000000000000000000000000000000000000000000000000000000".

Definition noTrace : Trace.t := Trace.mk None None.

(** The stack of a call that used the index 3 and the user's address. *)
Definition stackTrace : Trace.t :=
  Trace.mk (Some ["0x3"; user]) None.

(** The arguments of the older extractor for the same call. *)
Definition legacyTrace : TraceArg := TraceObject stackTrace.

Definition legacyTxData : TxData.t :=
  TxData.mk (Some user) None (Some setNameCalldata).

(** [mapping(address => mapping(uint256 => uint256)) allowances] *)
Definition slot6 : string := word "6".

Definition allowances : StorageSlotInfo.t :=
  StorageSlotInfo.mk "allowances" slot6
                     "t_mapping(t_address,t_mapping(t_uint256,t_uint256))"
                     "mapping" (Some 0) (Some false)
                     None (Some "t_address") (Some "t_mapping(t_uint256,t_uint256)").

(** The slot of [numbers[3]], and the slot of [purchases[user]] spelled in
    upper case. *)
Definition numbers3 : string :=
  "0x036b6384b5eca791c62761152d0c79bb0604c104a5fb6f4eb0703f3154bb3db3".

Definition purchasesUserUpper : string :=
  "0xDA6DD1BFA6BA17CA0D2867ED3E52BE67E29434EBD8A7E7C15EE74ACD0F516122".

(** The user's address with the checksum capitals of EIP-55. *)
Definition userChecksumKey : MappingKey.t :=
  MappingKey.mk (word "d8dA6BF26964aF9D7eEd9e03E53415D37aA96045")
                (Some (JString user)) (Some "address").

(** The calldata of [transfer(user, 3)]; [setName] is the only function
    whose ABI is known. *)
Definition transferCalldata : string :=
  "0xa9059cbb" ++ Js.padStart 64 "0" "d8da6bf26964af9d7eed9e03e53415d37aa96045"
               ++ Js.padStart 64 "0" "3".

Definition transfer : AbiFunction.t :=
  AbiFunction.mk "0xa9059cbb"
                 (Some [AbiInput.mk "to" "address"; AbiInput.mk "amount" "uint256"]).

(** Two steps of a trace, and the accounts the call touched. *)
Definition traceLog : list StructLog.t :=
  [StructLog.mk "PUSH1" ["0x3"];
   StructLog.mk "SLOAD" ["0x3"; user]].

Definition preimages : list string := [TraceTs.ZERO_ADDRESS; user].

End Sample.

(* ================================================================== *)
(** * Proof steps *)
(* ================================================================== *)

(** Membership in a list written out: one case per element. *)
Ltac in_cases H :=
  repeat (destruct H as [<- | H]); [.. | contradiction H].

(** The 256 characters, one by one. *)
Ltac ascii_cases c := destruct c as [[] [] [] [] [] [] [] []].

(** Two strings that differ at some character: walk down the unknown front
    [kv] of the left one until the characters disagree. *)
Ltac key_clash kv H :=
  repeat (destruct kv as [| ? kv]; cbn [append] in H;
          [discriminate H | first [discriminate H | injection H as _ H]]).

(* ================================================================== *)
(** * Keccak-256: test vectors *)
(* ================================================================== *)

Example keccak256_empty :
  Viem.keccak256 "0x"
  = "0xc5d2460186f7233c927e7db2dcc703c0e500b653ca82273b7bfad8045d85a470".
Proof. vm_compute. reflexivity. Qed.

Example keccak256_abc :
  Viem.keccak256 "0x616263"
  = "0x4e03657aea45a94fc7d47ba826c8d667c0d1e6e33a64a036ec44f58fa12d6c45".
Proof. vm_compute. reflexivity. Qed.

Example keccak256_zero_word :
  Viem.keccak256 "0x0000000000000000000000000000000000000000000000000000000000000000"
  = "0x290decd9548b62a8d60345a988386fc84ba6bc95484008f6362f93160ef3e563".
Proof. vm_compute. reflexivity. Qed.

(** Two blocks of the sponge: 200 bytes. *)
Example keccak256_two_blocks :
  Viem.keccak256 (Js.repeatChar "a" 200)
  = "0x96ea54061def936c4be90b518992fdc6f12f535068a256229aca54267b4d084d".
Proof. vm_compute. reflexivity. Qed.

Lemma lane_bytes_length w : List.length (Keccak.lane_bytes w) = 8%nat.
Proof. unfold Keccak.lane_bytes. now rewrite length_map, length_seq. Qed.

Lemma keccak_256_length msg : List.length (Keccak.keccak_256 msg) = 32%nat.
Proof.
  unfold Keccak.keccak_256, Keccak.keccak_256_N.
  rewrite length_map.
  set (st := fold_left _ _ _). clearbody st.
  change (seq 0 4) with [0; 1; 2; 3]%nat.
  cbn [flat_map]. rewrite !length_app, !lane_bytes_length. reflexivity.
Qed.

Global Opaque Keccak.keccak_256.

(* ================================================================== *)
(** * Strings *)
(* ================================================================== *)

Lemma append_nil_r s : s ++ "" = s.
Proof. induction s; simpl; congruence. Qed.

Lemma append_assoc (a b c : string) : (a ++ b) ++ c = a ++ (b ++ c).
Proof. induction a; simpl; congruence. Qed.

Lemma length_append (a b : string) :
  String.length (a ++ b) = (String.length a + String.length b)%nat.
Proof. induction a; simpl; congruence. Qed.

Lemma removeFirst_0x d : Js.removeFirst "0x" ("0x" ++ d) = d.
Proof. reflexivity. Qed.

Lemma length_repeatChar c n : String.length (Js.repeatChar c n) = n.
Proof. induction n; simpl; congruence. Qed.

Lemma length_padStart n c s :
  (String.length s <= n)%nat -> String.length (Js.padStart n c s) = n.
Proof.
  intros. unfold Js.padStart. rewrite length_append, length_repeatChar. lia.
Qed.

(* ================================================================== *)
(** * Hex digits *)
(* ================================================================== *)

Lemma digitValue_range c d : Js.digitValue c = Some d -> 0 <= d < 16.
Proof.
  unfold Js.digitValue. intros H.
  repeat match type of H with
         | (if ?b then _ else _) = _ => destruct b eqn:?
         end; inversion H; subst; lia.
Qed.

Lemma digitValue_hexChar d : 0 <= d < 16 -> Js.digitValue (Js.hexChar d) = Some d.
Proof.
  intros H.
  assert (d = 0 \/ d = 1 \/ d = 2 \/ d = 3 \/ d = 4 \/ d = 5 \/ d = 6 \/ d = 7
          \/ d = 8 \/ d = 9 \/ d = 10 \/ d = 11 \/ d = 12 \/ d = 13 \/ d = 14
          \/ d = 15) as Hd by lia.
  repeat (destruct Hd as [-> | Hd]; [reflexivity |]). subst. reflexivity.
Qed.

Lemma isHexDigit_hexChar d : 0 <= d < 16 -> Viem.isHexDigit (Js.hexChar d) = true.
Proof.
  intros H. unfold Viem.isHexDigit. now rewrite digitValue_hexChar.
Qed.

Lemma lowerChar_hexChar d : 0 <= d < 16 -> Js.lowerChar (Js.hexChar d) = Js.hexChar d.
Proof.
  intros H.
  assert (d = 0 \/ d = 1 \/ d = 2 \/ d = 3 \/ d = 4 \/ d = 5 \/ d = 6 \/ d = 7
          \/ d = 8 \/ d = 9 \/ d = 10 \/ d = 11 \/ d = 12 \/ d = 13 \/ d = 14
          \/ d = 15) as Hd by lia.
  repeat (destruct Hd as [-> | Hd]; [reflexivity |]). subst. reflexivity.
Qed.

Lemma Z_of_byte_range b : 0 <= Viem.Z_of_byte b < 256.
Proof.
  unfold Viem.Z_of_byte. pose proof (Byte.to_N_bounded b). lia.
Qed.

Lemma byte_of_Z_of_byte b : Viem.byte_of_Z (Viem.Z_of_byte b) = b.
Proof.
  unfold Viem.byte_of_Z, Viem.Z_of_byte, Keccak.byte_of_N.
  rewrite N2Z.id, Byte.of_to_N. reflexivity.
Qed.

Lemma allHexDigits_app a b :
  Viem.allHexDigits (a ++ b) = Viem.allHexDigits a && Viem.allHexDigits b.
Proof.
  induction a; simpl; [reflexivity |]. rewrite IHa. now rewrite andb_assoc.
Qed.

Lemma allHexDigits_bytes bs : Viem.allHexDigits (Viem.hexDigitsOfBytes bs) = true.
Proof.
  induction bs as [| b bs IH]; [reflexivity |].
  pose proof (Z_of_byte_range b).
  cbn [Viem.hexDigitsOfBytes Viem.byteHex append Viem.allHexDigits].
  rewrite !isHexDigit_hexChar, IH; [reflexivity | |].
  - apply Z.mod_pos_bound; lia.
  - split; [apply Z.div_pos; lia | apply Z.div_lt_upper_bound; lia].
Qed.

Lemma length_hexDigitsOfBytes bs :
  String.length (Viem.hexDigitsOfBytes bs) = (2 * List.length bs)%nat.
Proof.
  induction bs as [| b bs IH]; [reflexivity |].
  cbn [Viem.hexDigitsOfBytes Viem.byteHex append String.length List.length].
  rewrite IH. lia.
Qed.

(** [hexToBytes] reads back what [bytesToHex] writes. *)
Lemma hexPairs_bytes bs : Viem.hexPairs (Viem.hexDigitsOfBytes bs) = Ok bs.
Proof.
  induction bs as [| b bs IH]; [reflexivity |].
  pose proof (Z_of_byte_range b).
  cbn [Viem.hexDigitsOfBytes Viem.byteHex append Viem.hexPairs].
  rewrite !digitValue_hexChar, IH.
  - cbn [bind]. rewrite Z.mul_comm, <- Z.div_mod by lia.
    now rewrite byte_of_Z_of_byte.
  - apply Z.mod_pos_bound; lia.
  - split; [apply Z.div_pos; lia | apply Z.div_lt_upper_bound; lia].
Qed.

Lemma hexPairs_inv s bs :
  Viem.hexPairs s = Ok bs ->
  match bs with
  | [] => s = ""
  | b :: bs' =>
      exists a c rest h l,
        s = String a (String c rest) /\ Js.digitValue a = Some h /\
        Js.digitValue c = Some l /\ b = Viem.byte_of_Z (h * 16 + l) /\
        Viem.hexPairs rest = Ok bs'
  end.
Proof.
  destruct s as [| a [| c rest]]; cbn [Viem.hexPairs].
  - intros H. inversion H. reflexivity.
  - discriminate.
  - destruct (Js.digitValue a) as [h |] eqn:Ha; [| discriminate].
    destruct (Js.digitValue c) as [l |] eqn:Hc; [| discriminate].
    destruct (Viem.hexPairs rest) as [bs' | e] eqn:Hr; cbn [bind]; [| discriminate].
    intros H. inversion H. subst. exists a, c, rest, h, l. auto.
Qed.

Lemma hexPairs_app s1 s2 b1 :
  Viem.hexPairs s1 = Ok b1 ->
  Viem.hexPairs (s1 ++ s2) = (b2 <- Viem.hexPairs s2 ;; Ok (b1 ++ b2)%list).
Proof.
  revert s1. induction b1 as [| b b1 IH]; intros s1 H; apply hexPairs_inv in H.
  - subst. cbn [append]. destruct (Viem.hexPairs s2); reflexivity.
  - destruct H as (a & c & rest & h & l & -> & Ha & Hc & -> & Hr).
    cbn [append Viem.hexPairs]. rewrite Ha, Hc, (IH _ Hr).
    destruct (Viem.hexPairs s2); reflexivity.
Qed.

Lemma hexPairs_length s bs :
  Viem.hexPairs s = Ok bs -> String.length s = (2 * List.length bs)%nat.
Proof.
  revert s. induction bs as [| b bs IH]; intros s H; apply hexPairs_inv in H.
  - now subst.
  - destruct H as (a & c & rest & h & l & -> & _ & _ & _ & Hr).
    cbn [String.length List.length]. rewrite (IH _ Hr). lia.
Qed.

(** On an even number of hex digits [hexPairs] returns. *)
Lemma hexPairs_total n : forall s,
  Viem.allHexDigits s = true -> String.length s = (2 * n)%nat ->
  exists bs, Viem.hexPairs s = Ok bs.
Proof.
  induction n as [| n IH]; intros s Hd Hl.
  - destruct s; [now exists [] | discriminate].
  - destruct s as [| a [| c rest]]; try (cbn in Hl; lia).
    cbn [Viem.allHexDigits] in Hd.
    apply andb_prop in Hd as [Ha Hd]. apply andb_prop in Hd as [Hc Hd].
    unfold Viem.isHexDigit in Ha, Hc.
    destruct (Js.digitValue a) as [h |] eqn:Eh; [| discriminate].
    destruct (Js.digitValue c) as [l |] eqn:El; [| discriminate].
    destruct (IH rest Hd) as [bs Hbs]; [cbn in Hl; lia |].
    exists (Viem.byte_of_Z (h * 16 + l) :: bs).
    cbn [Viem.hexPairs]. now rewrite Eh, El, Hbs.
Qed.

Lemma isHex_inv value :
  Viem.isHex value = true ->
  exists d, value = "0x" ++ d /\ Viem.allHexDigits d = true.
Proof.
  destruct value as [| a [| b d]]; try discriminate.
  - destruct a as [[] [] [] [] [] [] [] []]; discriminate.
  - destruct a as [[] [] [] [] [] [] [] []]; try discriminate.
    destruct b as [[] [] [] [] [] [] [] []]; try discriminate.
    intros H. exists d. auto.
Qed.

Lemma isHex256_inv value :
  Viem.isHex256 value = true ->
  exists d, value = "0x" ++ d /\ Viem.allHexDigits d = true /\ String.length d = 64%nat.
Proof.
  unfold Viem.isHex256. intros H. apply andb_prop in H as [H1 H2].
  apply isHex_inv in H1 as (d & -> & Hd). exists d. repeat split; auto.
  apply Nat.eqb_eq in H2. cbn in H2. lia.
Qed.

Lemma isHex_0x d : Viem.isHex ("0x" ++ d) = Viem.allHexDigits d.
Proof. reflexivity. Qed.

Lemma hexToBytes_0x_even d :
  Nat.odd (String.length d) = false -> Viem.hexToBytes ("0x" ++ d) = Viem.hexPairs d.
Proof.
  intros H. unfold Viem.hexToBytes. cbn [append Js.sliceFrom Js.drop]. now rewrite H.
Qed.

Lemma hexToBytes_bytesToHex bs : Viem.hexToBytes (Viem.bytesToHex bs) = Ok bs.
Proof.
  unfold Viem.bytesToHex. rewrite hexToBytes_0x_even.
  - apply hexPairs_bytes.
  - rewrite length_hexDigitsOfBytes, Nat.odd_mul. reflexivity.
Qed.

Lemma isHex256_bytesToHex bs :
  List.length bs = 32%nat -> Viem.isHex256 (Viem.bytesToHex bs) = true.
Proof.
  intros H. unfold Viem.isHex256, Viem.bytesToHex.
  rewrite isHex_0x, allHexDigits_bytes.
  cbn [append String.length]. rewrite length_hexDigitsOfBytes, H. reflexivity.
Qed.

Lemma isHex256_keccak256 value : Viem.isHex256 (Viem.keccak256 value) = true.
Proof. apply isHex256_bytesToHex, keccak_256_length. Qed.

(* ================================================================== *)
(** * Mapping slots *)
(* ================================================================== *)

Lemma toBytes_hex_words dk db kb bb :
  Viem.allHexDigits dk = true -> Viem.allHexDigits db = true ->
  Viem.hexPairs dk = Ok kb -> Viem.hexPairs db = Ok bb ->
  Viem.toBytes ("0x" ++ dk ++ db) = (kb ++ bb)%list.
Proof.
  intros Hdk Hdb Hk Hb. unfold Viem.toBytes.
  rewrite isHex_0x, allHexDigits_app, Hdk, Hdb. cbn [andb].
  rewrite hexToBytes_0x_even.
  - rewrite (hexPairs_app _ _ _ Hk), Hb. reflexivity.
  - rewrite length_append, (hexPairs_length _ _ Hk), (hexPairs_length _ _ Hb).
    rewrite <- Nat.mul_add_distr_l, Nat.odd_mul. reflexivity.
Qed.

(** C1. For a 32-byte base slot and a 32-byte key, [computeMappingSlot] is
    keccak256 of the 64 bytes made of the key's 32 bytes followed by the base
    slot's 32 bytes. *)
Theorem computeMappingSlot_keccak_key_base
        (baseSlot : string) (key : MappingKey.t)
        (Hbase : Viem.isHex256 baseSlot = true)
        (Hkey : Viem.isHex256 (MappingKey.hex key) = true) :
  exists kb bb : list byte,
    Viem.hexToBytes (MappingKey.hex key) = Ok kb /\
    Viem.hexToBytes baseSlot = Ok bb /\
    List.length kb = 32%nat /\ List.length bb = 32%nat /\
    Engine.computeMappingSlot baseSlot key
    = Viem.bytesToHex (Keccak.keccak_256 (kb ++ bb)).
Proof.
  apply isHex256_inv in Hbase as (db & Eb & Hdb & Lb).
  apply isHex256_inv in Hkey as (dk & Ek & Hdk & Lk).
  destruct (hexPairs_total 32 dk Hdk Lk) as [kb Hkb].
  destruct (hexPairs_total 32 db Hdb Lb) as [bb Hbb].
  exists kb, bb.
  assert (Heven : forall d, String.length d = 64%nat -> Nat.odd (String.length d) = false)
    by (intros d ->; reflexivity).
  rewrite Ek, Eb, !hexToBytes_0x_even by auto.
  repeat split; auto.
  - apply hexPairs_length in Hkb. lia.
  - apply hexPairs_length in Hbb. lia.
  - unfold Engine.computeMappingSlot, Viem.keccak256.
    rewrite Ek, !removeFirst_0x.
    now rewrite (toBytes_hex_words dk db kb bb).
Qed.

(** The same on the bytes themselves: the slot of [bytesToHex] words. *)
Corollary computeMappingSlot_bytes (kb bb : list byte) decoded type :
  List.length kb = 32%nat -> List.length bb = 32%nat ->
  Engine.computeMappingSlot (Viem.bytesToHex bb)
                            (MappingKey.mk (Viem.bytesToHex kb) decoded type)
  = Viem.bytesToHex (Keccak.keccak_256 (kb ++ bb)).
Proof.
  intros Hk Hb.
  destruct (computeMappingSlot_keccak_key_base
              (Viem.bytesToHex bb) (MappingKey.mk (Viem.bytesToHex kb) decoded type))
    as (kb' & bb' & H1 & H2 & _ & _ & H).
  - now apply isHex256_bytesToHex.
  - now apply isHex256_bytesToHex.
  - cbn [MappingKey.hex] in H1. rewrite hexToBytes_bytesToHex in H1, H2.
    inversion H1; inversion H2; subst. exact H.
Qed.

Lemma computeMappingSlot_isHex256 baseSlot key :
  Viem.isHex256 (Engine.computeMappingSlot baseSlot key) = true.
Proof. apply isHex256_keccak256. Qed.

(* ================================================================== *)
(** * Nested mapping slots *)
(* ================================================================== *)

Lemma forEach_fold_left {A S : Type} (l : list A) (body : A -> S -> S) (s : S) :
  forEach l body s = fold_left (fun acc a => body a acc) l s.
Proof. revert s. induction l as [| a l IH]; intros s; simpl; auto. Qed.

Lemma forEach_app {A S : Type} (l1 l2 : list A) (body : A -> S -> S) (s : S) :
  forEach (l1 ++ l2) body s = forEach l2 body (forEach l1 body s).
Proof. revert s. induction l1 as [| a l IH]; intros s; simpl; auto. Qed.

(** C2. [computeNestedMappingSlot] is the left fold of [computeMappingSlot]
    over the keys, [keys[0]] first; on no key it is the base slot. *)
Theorem computeNestedMappingSlot_fold_left (baseSlot : string) (keys : list MappingKey.t) :
  Engine.computeNestedMappingSlot baseSlot keys
  = fold_left Engine.computeMappingSlot keys baseSlot
  /\ Engine.computeNestedMappingSlot baseSlot [] = baseSlot
  /\ forall key rest,
      Engine.computeNestedMappingSlot baseSlot (key :: rest)
      = Engine.computeNestedMappingSlot (Engine.computeMappingSlot baseSlot key) rest.
Proof.
  assert (Hfold : forall b ks,
             Engine.computeNestedMappingSlot b ks
             = fold_left Engine.computeMappingSlot ks b).
  { intros b ks. unfold Engine.computeNestedMappingSlot.
    destruct ks as [| k ks]; [reflexivity |].
    cbn [List.length Nat.eqb]. apply forEach_fold_left. }
  repeat split.
  - apply Hfold.
  - intros key rest. now rewrite !Hfold.
Qed.

Example computeNestedMappingSlot_two_keys baseSlot k1 k2 :
  Engine.computeNestedMappingSlot baseSlot [k1; k2]
  = Engine.computeMappingSlot (Engine.computeMappingSlot baseSlot k1) k2.
Proof. reflexivity. Qed.

(* ================================================================== *)
(** * Numbers and their hex digits *)
(* ================================================================== *)

Lemma isHexDigit_not_space c : Viem.isHexDigit c = true -> Js.isWhiteSpace c = false.
Proof.
  destruct c as [[] [] [] [] [] [] [] []]; try reflexivity; discriminate.
Qed.

Lemma trimEnd_hexDigits d : Viem.allHexDigits d = true -> Js.trimEnd d = d.
Proof.
  induction d as [| c d IH]; [reflexivity |].
  cbn [Viem.allHexDigits Js.trimEnd]. intros H.
  apply andb_prop in H as [Hc Hd].
  now rewrite (isHexDigit_not_space c Hc), (IH Hd).
Qed.

Lemma trim_hex d : Viem.allHexDigits d = true -> Js.trim ("0x" ++ d) = "0x" ++ d.
Proof.
  intros H. unfold Js.trim. cbn [append Js.trimStart].
  change (Js.isWhiteSpace "0") with false. cbn iota.
  cbn [Js.trimEnd]. change (Js.isWhiteSpace "0") with false.
  change (Js.isWhiteSpace "x") with false. cbn [andb].
  now rewrite (trimEnd_hexDigits d H).
Qed.

Lemma stringToBigInt_hex d :
  Viem.allHexDigits d = true ->
  Js.stringToBigInt ("0x" ++ d) = Js.parseNonEmpty 16 d.
Proof.
  intros H. unfold Js.stringToBigInt. rewrite (trim_hex d H). reflexivity.
Qed.

Lemma parseDigits_bytes bs : forall acc,
  Js.parseDigits 16 acc (Viem.hexDigitsOfBytes bs) = Some (Viem.beValue acc bs).
Proof.
  induction bs as [| b bs IH]; intros acc; [reflexivity |].
  pose proof (Z_of_byte_range b) as Hb.
  assert (Hhi : 0 <= Viem.Z_of_byte b / 16 < 16)
    by (split; [apply Z.div_pos; lia | apply Z.div_lt_upper_bound; lia]).
  assert (Hlo : 0 <= Viem.Z_of_byte b mod 16 < 16) by (apply Z.mod_pos_bound; lia).
  cbn [Viem.hexDigitsOfBytes Viem.byteHex append Js.parseDigits Viem.beValue].
  rewrite !digitValue_hexChar by assumption.
  destruct Hhi as [_ Hhi]. destruct Hlo as [_ Hlo].
  apply Z.ltb_lt in Hhi, Hlo. rewrite Hhi, Hlo, IH. f_equal. f_equal.
  pose proof (Z.div_mod (Viem.Z_of_byte b) 16). lia.
Qed.

(** [hexToBigInt] reads a non-empty [bytesToHex] string as the big-endian
    number of its bytes. *)
Lemma hexToBigInt_bytesToHex bs :
  bs <> [] -> Viem.hexToBigInt (Viem.bytesToHex bs) = Ok (Viem.toU256 bs).
Proof.
  intros Hne. unfold Viem.hexToBigInt, Viem.bytesToHex.
  rewrite stringToBigInt_hex by apply allHexDigits_bytes.
  unfold Js.parseNonEmpty.
  destruct (Viem.hexDigitsOfBytes bs) eqn:E.
  - destruct bs; [contradiction | discriminate].
  - rewrite <- E, parseDigits_bytes. reflexivity.
Qed.

Lemma hexToBigInt_keccak256 value :
  Viem.hexToBigInt (Viem.keccak256 value)
  = Ok (Viem.toU256 (Keccak.keccak_256 (Viem.toBytes value))).
Proof.
  apply hexToBigInt_bytesToHex. intros E.
  pose proof (keccak_256_length (Viem.toBytes value)) as H. rewrite E in H. discriminate.
Qed.

Lemma digitsFrom_ind (P : string -> Prop) :
  (forall d s, 0 <= d < 16 -> P s -> P (String (Js.hexChar d) s)) ->
  forall fuel n acc, P acc -> P (Js.digitsFrom fuel 16 n acc).
Proof.
  intros Hstep. induction fuel as [| fuel IH]; intros n acc Hacc; [exact Hacc |].
  cbn [Js.digitsFrom].
  assert (P (String (Js.hexChar (n mod 16)) acc))
    by (apply Hstep; [apply Z.mod_pos_bound; lia | exact Hacc]).
  destruct (n / 16 =? 0); auto.
Qed.

Lemma allHexDigits_toStringRadix n : Viem.allHexDigits (Js.toStringRadix 16 n) = true.
Proof.
  unfold Js.toStringRadix. apply digitsFrom_ind; [| reflexivity].
  intros d s Hd Hs. cbn [Viem.allHexDigits]. now rewrite isHexDigit_hexChar, Hs.
Qed.

Lemma toLowerCase_toStringRadix n :
  Js.toLowerCase (Js.toStringRadix 16 n) = Js.toStringRadix 16 n.
Proof.
  unfold Js.toStringRadix.
  apply (digitsFrom_ind (fun s => Js.toLowerCase s = s)); [| reflexivity].
  intros d s Hd Hs. cbn [Js.toLowerCase]. now rewrite lowerChar_hexChar, Hs.
Qed.

Lemma length_digitsFrom fuel : forall n acc (k : nat),
  0 <= n < 16 ^ Z.of_nat k -> (1 <= k)%nat ->
  (String.length (Js.digitsFrom fuel 16 n acc) <= k + String.length acc)%nat.
Proof.
  induction fuel as [| fuel IH]; intros n acc k Hn Hk; cbn [Js.digitsFrom]; [lia |].
  destruct (n / 16 =? 0) eqn:E.
  - cbn [String.length]. lia.
  - apply Z.eqb_neq in E.
    destruct k as [| [| k]]; [lia | |].
    + exfalso. apply E. apply Z.div_small. change (16 ^ Z.of_nat 1) with 16 in Hn. lia.
    + specialize (IH (n / 16) (String (Js.hexChar (n mod 16)) acc) (S k)).
      cbn [String.length] in IH.
      assert (0 <= n / 16 < 16 ^ Z.of_nat (S k)).
      { split; [apply Z.div_pos; lia |].
        apply Z.div_lt_upper_bound; [lia |].
        replace (Z.of_nat (S (S k))) with (Z.succ (Z.of_nat (S k))) in Hn by lia.
        rewrite Z.pow_succ_r in Hn by lia. lia. }
      specialize (IH H). lia.
Qed.

(** The digits [digitsFrom] writes spell [n] again. *)
Lemma parseDigits_digitsFrom fuel : forall n acc,
  0 <= n < 2 ^ Z.of_nat fuel ->
  Js.parseDigits 16 0 (Js.digitsFrom fuel 16 n acc) = Js.parseDigits 16 n acc.
Proof.
  induction fuel as [| fuel IH]; intros n acc Hn; cbn [Js.digitsFrom].
  - change (2 ^ Z.of_nat 0) with 1 in Hn. now replace n with 0 by lia.
  - assert (Hm : 0 <= n mod 16 < 16) by (apply Z.mod_pos_bound; lia).
    pose proof (Z.div_mod n 16 ltac:(lia)) as Hdm.
    assert (Hstep : Js.parseDigits 16 (n / 16) (String (Js.hexChar (n mod 16)) acc)
                    = Js.parseDigits 16 n acc).
    { cbn [Js.parseDigits]. rewrite digitValue_hexChar by assumption.
      destruct Hm as [_ Hm]. apply Z.ltb_lt in Hm. rewrite Hm. f_equal. lia. }
    destruct (n / 16 =? 0) eqn:E.
    + apply Z.eqb_eq in E. rewrite E in Hstep. exact Hstep.
    + rewrite IH; [exact Hstep |].
      split; [apply Z.div_pos; lia |].
      apply Z.div_lt_upper_bound; [lia |].
      replace (Z.of_nat (S fuel)) with (Z.succ (Z.of_nat fuel)) in Hn by lia.
      rewrite Z.pow_succ_r in Hn by lia. lia.
Qed.

Lemma toStringRadix_fuel n :
  0 <= n -> 0 <= n < 2 ^ Z.of_nat (S (Z.to_nat (Z.log2 n))).
Proof.
  intros Hn. split; [assumption |].
  destruct (Z.eq_dec n 0) as [-> | Hne]; [reflexivity |].
  pose proof (Z.log2_nonneg n).
  replace (Z.of_nat (S (Z.to_nat (Z.log2 n)))) with (Z.succ (Z.log2 n)) by lia.
  apply Z.log2_spec. lia.
Qed.

Lemma parseDigits_toStringRadix n :
  0 <= n -> Js.parseDigits 16 0 (Js.toStringRadix 16 n) = Some n.
Proof.
  intros Hn. unfold Js.toStringRadix.
  rewrite parseDigits_digitsFrom by now apply toStringRadix_fuel. reflexivity.
Qed.

Lemma toStringRadix_nonempty n : Js.toStringRadix 16 n <> "".
Proof.
  unfold Js.toStringRadix. cbn [Js.digitsFrom].
  destruct (n / 16 =? 0); [discriminate |].
  apply (digitsFrom_ind (fun s => s <> "")); [| discriminate].
  intros; discriminate.
Qed.

Lemma length_toStringRadix n (k : nat) :
  0 <= n < 16 ^ Z.of_nat k -> (1 <= k)%nat ->
  (String.length (Js.toStringRadix 16 n) <= k)%nat.
Proof.
  intros Hn Hk. unfold Js.toStringRadix.
  pose proof (length_digitsFrom (S (Z.to_nat (Z.log2 n))) n "" k Hn Hk) as H.
  cbn [String.length] in H. lia.
Qed.

Lemma parseDigits_zeros k d :
  Js.parseDigits 16 0 (Js.repeatChar "0" k ++ d) = Js.parseDigits 16 0 d.
Proof. induction k as [| k IH]; [reflexivity | exact IH]. Qed.

Lemma allHexDigits_zeros k : Viem.allHexDigits (Js.repeatChar "0" k) = true.
Proof. induction k as [| k IH]; [reflexivity | exact IH]. Qed.

Lemma toLowerCase_app a b :
  Js.toLowerCase (a ++ b) = Js.toLowerCase a ++ Js.toLowerCase b.
Proof. induction a; simpl; congruence. Qed.

Lemma toLowerCase_zeros k : Js.toLowerCase (Js.repeatChar "0" k) = Js.repeatChar "0" k.
Proof. induction k as [| k IH]; [reflexivity |]. simpl. now rewrite IH. Qed.

(** [numberToHex(n, { size: 32 })] on a bigint: raises outside the unsigned
    256-bit range, otherwise the 64 lower-case digits of [n]. *)
Lemma numberToHex_32 n :
  (0 <= n < 2 ^ 256 ->
   exists s, Viem.numberToHex false n (Some 32%nat) = Ok s /\
             Viem.isHex256 s = true /\ Viem.hexToBigInt s = Ok n /\
             Js.toLowerCase s = s)
  /\ (~ (0 <= n < 2 ^ 256) ->
      Viem.numberToHex false n (Some 32%nat) = Err (IntegerOutOfRangeError n)).
Proof.
  unfold Viem.numberToHex.
  change (2 ^ (Z.of_nat 32 * 8) - 1) with (2 ^ 256 - 1).
  change (negb (2 ^ 256 - 1 =? 0)) with true. cbn [andb].
  split.
  - intros [H0 H1].
    assert (E1 : (2 ^ 256 - 1 <? n) = false) by (apply Z.ltb_ge; lia).
    assert (E2 : (n <? 0) = false) by (apply Z.ltb_ge; lia).
    rewrite E1, E2. cbn [orb].
    assert (Hlen : (String.length (Js.toStringRadix 16 n) <= 64)%nat).
    { apply length_toStringRadix; [| lia].
      change (16 ^ Z.of_nat 64) with (2 ^ 256). lia. }
    unfold Viem.padHex. rewrite removeFirst_0x.
    assert (E3 : (32 * 2 <? String.length (Js.toStringRadix 16 n))%nat = false)
      by (apply Nat.ltb_ge; lia).
    rewrite E3. eexists. split; [reflexivity |].
    assert (Hp : String.length (Js.padStart (32 * 2) "0" (Js.toStringRadix 16 n)) = 64%nat)
      by (apply length_padStart; exact Hlen).
    assert (Hd : Viem.allHexDigits (Js.padStart (32 * 2) "0" (Js.toStringRadix 16 n)) = true).
    { unfold Js.padStart.
      now rewrite allHexDigits_app, allHexDigits_zeros, allHexDigits_toStringRadix. }
    repeat split.
    + unfold Viem.isHex256. rewrite isHex_0x, Hd.
      cbn [append String.length]. now rewrite Hp.
    + unfold Viem.hexToBigInt. rewrite stringToBigInt_hex by exact Hd.
      unfold Js.parseNonEmpty.
      destruct (Js.padStart (32 * 2) "0" (Js.toStringRadix 16 n)) eqn:E;
        [discriminate |].
      rewrite <- E. unfold Js.padStart.
      now rewrite parseDigits_zeros, parseDigits_toStringRadix.
    + cbn [append Js.toLowerCase]. unfold Js.padStart.
      rewrite toLowerCase_app, toLowerCase_zeros, toLowerCase_toStringRadix.
      reflexivity.
  - intros H.
    destruct (2 ^ 256 - 1 <? n) eqn:E1; [reflexivity |].
    destruct (n <? 0) eqn:E2; [reflexivity |].
    apply Z.ltb_ge in E1, E2. exfalso. apply H. lia.
Qed.

(* ================================================================== *)
(** * Array element slots *)
(* ================================================================== *)

(** C3, as the code has it. [computeArraySlot] adds the index to
    [toU256(keccak256(base))]; when the sum is an unsigned 256-bit number it
    returns its 32-byte lower-case hex, and otherwise it raises: there is no
    reduction modulo 2^256. *)
Theorem computeArraySlot_no_wrap (baseSlot : string) (index : Z) :
  let sum := Viem.toU256 (Keccak.keccak_256 (Viem.toBytes baseSlot)) + index in
  (0 <= sum < 2 ^ 256 ->
   exists s, Engine.computeArraySlot baseSlot index = Ok s /\
             Viem.isHex256 s = true /\ Viem.hexToBigInt s = Ok sum /\
             Js.toLowerCase s = s)
  /\ (~ (0 <= sum < 2 ^ 256) ->
      Engine.computeArraySlot baseSlot index = Err (IntegerOutOfRangeError sum)).
Proof.
  intros sum. unfold Engine.computeArraySlot.
  rewrite hexToBigInt_keccak256. cbn [bind]. fold sum.
  apply numberToHex_32.
Qed.

(* ================================================================== *)
(** * Loops and maps *)
(* ================================================================== *)

Lemma forEachM_app {A S : Type} (l1 l2 : list A) (body : A -> S -> result S) (s : S) :
  forEachM (l1 ++ l2) body s = (s' <- forEachM l1 body s ;; forEachM l2 body s').
Proof.
  revert s. induction l1 as [| a l IH]; intros s; cbn [forEachM app bind]; [reflexivity |].
  destruct (body a s); cbn [bind]; auto.
Qed.

(** A loop whose body keeps an invariant keeps it. *)
Lemma forEach_invariant {A S : Type} (P : S -> Prop) (body : A -> S -> S) :
  forall l s, (forall a s', In a l -> P s' -> P (body a s')) -> P s ->
              P (forEach l body s).
Proof.
  induction l as [| a l IH]; intros s Hbody Hs; cbn [forEach]; [exact Hs |].
  apply IH.
  - intros a' s' Ha'. apply Hbody. now right.
  - apply Hbody; [now left | exact Hs].
Qed.

Lemma forEachM_invariant {A S : Type} (P : S -> Prop) (body : A -> S -> result S) :
  forall l s s',
    (forall a s1 s2, In a l -> P s1 -> body a s1 = Ok s2 -> P s2) ->
    P s -> forEachM l body s = Ok s' -> P s'.
Proof.
  induction l as [| a l IH]; intros s s' Hbody Hs H; cbn [forEachM] in H.
  - inversion H. now subst.
  - destruct (body a s) as [s1 | e] eqn:E; cbn [bind] in H; [| discriminate].
    apply (IH s1 s'); auto.
    + intros a' t1 t2 Ha'. apply Hbody. now right.
    + apply (Hbody a s s1); auto. now left.
Qed.

(** A loop whose body returns on every element returns. *)
Lemma forEachM_returns {A S : Type} (P : S -> Prop) (body : A -> S -> result S) :
  forall l s,
    (forall a s1, In a l -> P s1 -> exists s2, body a s1 = Ok s2 /\ P s2) ->
    P s -> exists s', forEachM l body s = Ok s' /\ P s'.
Proof.
  induction l as [| a l IH]; intros s Hbody Hs; cbn [forEachM].
  - now exists s.
  - destruct (Hbody a s) as (s1 & E & Hs1); [now left | exact Hs |].
    rewrite E. cbn [bind]. apply IH; auto.
    intros a' t1 Ha'. apply Hbody. now right.
Qed.

Lemma JsMap_get_set_same {V : Type} k (v : V) m :
  JsMap.get k (JsMap.set k v m) = Some v.
Proof.
  induction m as [| [k' v'] m IH]; cbn [JsMap.set JsMap.get].
  - now rewrite String.eqb_refl.
  - destruct (k' =? k)%string eqn:E; cbn [JsMap.get].
    + now rewrite String.eqb_refl.
    + now rewrite E.
Qed.

Lemma JsMap_get_set_other {V : Type} k k' (v : V) m :
  k' <> k -> JsMap.get k (JsMap.set k' v m) = JsMap.get k m.
Proof.
  intros Hne. induction m as [| [k1 v1] m IH]; cbn [JsMap.set JsMap.get].
  - apply String.eqb_neq in Hne. now rewrite Hne.
  - destruct (k1 =? k')%string eqn:E; cbn [JsMap.get].
    + apply String.eqb_eq in E. subst k1.
      apply String.eqb_neq in Hne. now rewrite Hne.
    + now rewrite IH.
Qed.

Lemma JsMap_has_get {V : Type} k (m : JsMap.t V) :
  JsMap.has k m = match JsMap.get k m with Some _ => true | None => false end.
Proof. reflexivity. Qed.

(* ================================================================== *)
(** * The direct pass *)
(* ================================================================== *)

Lemma get_groupStep slot d m :
  JsMap.get slot (Engine.groupStep d m)
  = if (StorageSlotInfo.slot d =? slot)%string
    then Some (Engine.setOrEmpty (JsMap.get slot m) ++ [d])%list
    else JsMap.get slot m.
Proof.
  unfold Engine.groupStep. rewrite JsMap_has_get.
  destruct (StorageSlotInfo.slot d =? slot)%string eqn:E.
  - apply String.eqb_eq in E. subst slot.
    destruct (JsMap.get (StorageSlotInfo.slot d) m) as [set |] eqn:G; cbn [negb].
    + rewrite G. now rewrite JsMap_get_set_same.
    + rewrite JsMap_get_set_same. now rewrite JsMap_get_set_same.
  - apply String.eqb_neq in E.
    destruct (JsMap.get (StorageSlotInfo.slot d) m) as [set |] eqn:G; cbn [negb].
    + rewrite G. now rewrite JsMap_get_set_other.
    + rewrite JsMap_get_set_same. now rewrite !JsMap_get_set_other.
Qed.

Lemma get_forEach_groupStep slot ds : forall m,
  JsMap.get slot (forEach ds Engine.groupStep m)
  = match filter (fun d => (StorageSlotInfo.slot d =? slot)%string) ds with
    | [] => JsMap.get slot m
    | f => Some (Engine.setOrEmpty (JsMap.get slot m) ++ f)%list
    end.
Proof.
  induction ds as [| d ds IH]; intros m; cbn [forEach filter]; [reflexivity |].
  rewrite IH, get_groupStep.
  destruct (StorageSlotInfo.slot d =? slot)%string; [| reflexivity].
  cbn [Engine.setOrEmpty].
  destruct (filter _ ds) as [| x f]; [reflexivity |].
  now rewrite <- app_assoc.
Qed.

Lemma filter_filter {A : Type} (f g : A -> bool) l :
  filter g (filter f l) = filter (fun a => f a && g a) l.
Proof.
  induction l as [| a l IH]; [reflexivity |]. cbn [filter].
  destruct (f a); cbn [filter andb]; [destruct (g a) |]; now rewrite IH.
Qed.

Lemma get_groupBySlot slot layout :
  JsMap.get slot (Engine.groupBySlot (filter Engine.isDirect layout))
  = match Engine.directAt slot layout with
    | [] => None
    | f => Some f
    end.
Proof.
  unfold Engine.groupBySlot. rewrite get_forEach_groupStep, filter_filter.
  fold (Engine.directAt slot layout).
  now destruct (Engine.directAt slot layout).
Qed.

Lemma insertByOffset_perm x l : Permutation (Engine.insertByOffset x l) (x :: l).
Proof.
  induction l as [| y l IH]; cbn [Engine.insertByOffset]; [reflexivity |].
  destruct (Engine.offsetOrZero x <=? Engine.offsetOrZero y); [reflexivity |].
  rewrite IH. apply perm_swap.
Qed.

Lemma sortByOffset_perm l : Permutation (Engine.sortByOffset l) l.
Proof.
  induction l as [| x l IH]; cbn [Engine.sortByOffset]; [reflexivity |].
  rewrite insertByOffset_perm. now constructor.
Qed.

Lemma insertByOffset_sorted x l :
  StronglySorted Engine.offsetLe l -> StronglySorted Engine.offsetLe (Engine.insertByOffset x l).
Proof.
  induction 1 as [| y l Hs IH Hy]; cbn [Engine.insertByOffset].
  - repeat constructor.
  - destruct (Engine.offsetOrZero x <=? Engine.offsetOrZero y) eqn:E.
    + apply Z.leb_le in E. constructor; [now constructor |].
      constructor; [exact E |].
      eapply Forall_impl; [| exact Hy]. unfold Engine.offsetLe. intros; lia.
    + apply Z.leb_gt in E. constructor; [exact IH |].
      eapply Permutation_Forall; [symmetry; apply insertByOffset_perm |].
      constructor; [unfold Engine.offsetLe; lia | exact Hy].
Qed.

Lemma sortByOffset_sorted l : StronglySorted Engine.offsetLe (Engine.sortByOffset l).
Proof.
  induction l as [| x l IH]; cbn [Engine.sortByOffset]; [constructor |].
  now apply insertByOffset_sorted.
Qed.

Lemma directPass_spec slot layout :
  Engine.directPass slot layout
  = match Engine.directAt slot layout with
    | [] => None
    | f => Some (map (Engine.directResult slot) (Engine.sortByOffset f))
    end.
Proof.
  unfold Engine.directPass. rewrite JsMap_has_get, get_groupBySlot.
  destruct (Engine.directAt slot layout) as [| x f] eqn:E; [reflexivity |].
  rewrite length_map.
  pose proof (Permutation_length (sortByOffset_perm (x :: f))) as Hlen.
  cbn [List.length] in Hlen.
  destruct (Engine.sortByOffset (x :: f)); [discriminate | reflexivity].
Qed.

Lemma directAt_nonempty slot layout item :
  In item layout -> Engine.isDirect item = true -> StorageSlotInfo.slot item = slot ->
  Engine.directAt slot layout <> [].
Proof.
  intros Hin Hd Hs E.
  assert (In item (Engine.directAt slot layout)) as H.
  { apply filter_In. split; [exact Hin |]. rewrite Hd, Hs. apply String.eqb_refl. }
  rewrite E in H. contradiction.
Qed.

(** C5. A slot with a direct layout match gets the direct matches only: one
    result per direct entry at that slot, in ascending offset, all of match
    type [exact], none from a mapping, an array or the fallback. *)
Theorem direct_matches_win
        (slot : string) (storageLayout : list StorageSlotInfo.t)
        (potentialKeys : list MappingKey.t)
        (Hdirect : exists item, In item storageLayout /\ Engine.isDirect item = true
                                /\ StorageSlotInfo.slot item = slot) :
  exists matching,
    Engine.findLayoutInfoAtSlot slot storageLayout potentialKeys
    = Ok (map (Engine.directResult slot) matching)
    /\ Permutation matching (Engine.directAt slot storageLayout)
    /\ StronglySorted Engine.offsetLe matching
    /\ Forall (fun r => SlotLabelResult.matchType r = Exact
                        /\ SlotLabelResult.keys r = None
                        /\ SlotLabelResult.index r = None)
              (map (Engine.directResult slot) matching)
    /\ ~ In (Engine.fallback slot) (map (Engine.directResult slot) matching).
Proof.
  destruct Hdirect as (item & Hin & Hd & Hs).
  exists (Engine.sortByOffset (Engine.directAt slot storageLayout)).
  pose proof (directAt_nonempty slot storageLayout item Hin Hd Hs) as Hne.
  repeat split.
  - unfold Engine.findLayoutInfoAtSlot.
    destruct storageLayout as [| x l]; [contradiction |].
    cbn [List.length Nat.eqb]. rewrite directPass_spec.
    now destruct (Engine.directAt slot (x :: l)).
  - apply sortByOffset_perm.
  - apply sortByOffset_sorted.
  - apply Forall_forall. intros r Hr. apply in_map_iff in Hr as (m & <- & _).
    repeat split.
  - intros Hf. apply in_map_iff in Hf as (m & Hm & _). discriminate.
Qed.

(* ================================================================== *)
(** * The mapping, nested-mapping and array passes *)
(* ================================================================== *)

Lemma forEach_mappingStep slot mapping keys : forall results,
  forEach keys (Engine.mappingStep slot mapping) results
  = (results ++ Engine.mappingHits slot mapping keys)%list.
Proof.
  induction keys as [| k keys IH]; intros results; cbn [forEach Engine.mappingHits flat_map].
  - now rewrite app_nil_r.
  - rewrite IH. unfold Engine.mappingStep at 1.
    destruct (_ =? slot)%string; cbn [app]; [now rewrite <- app_assoc | reflexivity].
Qed.

Lemma mappingPass_spec slot mappings keys : forall results,
  Engine.mappingPass slot mappings keys results
  = (results ++ flat_map (fun m => Engine.mappingHits slot m keys) mappings)%list.
Proof.
  unfold Engine.mappingPass.
  induction mappings as [| m mappings IH]; intros results; cbn [forEach flat_map].
  - now rewrite app_nil_r.
  - rewrite IH, forEach_mappingStep. now rewrite <- app_assoc.
Qed.

(** The filter of pass 3 runs on the output of the filter of pass 2, which
    has dropped every mapping of mappings: pass 3 has nothing to loop over. *)
Lemma nestedMappings_empty layout :
  filter Engine.valueTypeIsMapping (filter Engine.isSimpleMapping layout) = [].
Proof.
  rewrite filter_filter. induction layout as [| x l IH]; [reflexivity |].
  cbn [filter]. unfold Engine.isSimpleMapping at 1.
  destruct (Engine.valueTypeIsMapping x); cbn [negb andb];
    rewrite ?andb_false_r; exact IH.
Qed.

Lemma arrayStep_extends slot array key results results' :
  Engine.arrayStep slot array key results = Ok results' ->
  exists extra, results' = (results ++ extra)%list.
Proof.
  unfold Engine.arrayStep.
  destruct (Engine.isValidArrayIndex (MappingKey.hex key)) as [valid | e];
    cbn [bind]; [| discriminate].
  destruct valid; cbn [negb].
  - destruct (Viem.hexToBigInt (MappingKey.hex key)) as [index | e];
      cbn [bind]; [| discriminate].
    destruct (Engine.computeArraySlot (StorageSlotInfo.slot array) index) as [s | e];
      cbn [bind]; [| discriminate].
    destruct (s =? slot)%string; intros H; inversion H; subst.
    + now eexists.
    + exists []. now rewrite app_nil_r.
  - intros H. inversion H. exists []. now rewrite app_nil_r.
Qed.

Lemma arrayPass_extends slot arrays keys results results' :
  Engine.arrayPass slot arrays keys results = Ok results' ->
  exists extra, results' = (results ++ extra)%list.
Proof.
  unfold Engine.arrayPass.
  apply (forEachM_invariant (fun r => exists extra, r = (results ++ extra)%list)).
  - intros array s1 s2 _ (e1 & ->).
    apply (forEachM_invariant (fun r => exists extra, r = (results ++ extra)%list)).
    + intros key t1 t2 _ (e2 & ->) H.
      apply arrayStep_extends in H as (e3 & ->).
      exists (e2 ++ e3)%list. now rewrite app_assoc.
    + now exists e1.
  - exists []. now rewrite app_nil_r.
Qed.

(** C6, as the code has it. The resolver has no key-type filter: once no
    direct entry sits at the slot, a candidate whose mapping slot is the
    observed slot is reported for that mapping, whatever the candidate's
    declared type and the mapping's key type are. *)
Theorem mapping_candidates_not_filtered
        (slot : string) (storageLayout : list StorageSlotInfo.t)
        (potentialKeys : list MappingKey.t)
        (mapping : StorageSlotInfo.t) (key : MappingKey.t)
        (results : list SlotLabelResult.t)
        (Hdirect : Engine.directAt slot storageLayout = [])
        (Hmapping : In mapping storageLayout)
        (Hsimple : Engine.isSimpleMapping mapping = true)
        (Hkey : In key potentialKeys)
        (Hslot : Engine.computeMappingSlot (StorageSlotInfo.slot mapping) key = slot)
        (Hreturns : Engine.findLayoutInfoAtSlot slot storageLayout potentialKeys
                    = Ok results) :
  In (Engine.mappingResult slot mapping key) results.
Proof.
  unfold Engine.findLayoutInfoAtSlot in Hreturns.
  destruct storageLayout as [| x l] eqn:El; [contradiction |]. rewrite <- El in *.
  assert (Hlen : (List.length storageLayout =? 0)%nat = false) by now rewrite El.
  rewrite Hlen, directPass_spec, Hdirect in Hreturns.
  rewrite nestedMappings_empty in Hreturns. cbn [Engine.nestedPass forEach] in Hreturns.
  rewrite mappingPass_spec in Hreturns. cbn [app] in Hreturns.
  set (hits := flat_map _ _) in Hreturns.
  assert (Hhit : In (Engine.mappingResult slot mapping key) hits).
  { apply in_flat_map. exists mapping. split; [now apply filter_In |].
    apply in_flat_map. exists key. split; [exact Hkey |].
    rewrite Hslot, String.eqb_refl. now left. }
  destruct (Engine.arrayPass slot _ potentialKeys hits) as [r | e] eqn:Ea;
    cbn [bind] in Hreturns; [| discriminate].
  apply arrayPass_extends in Ea as (extra & ->).
  assert (In (Engine.mappingResult slot mapping key) (hits ++ extra)%list)
    by (apply in_or_app; now left).
  destruct (List.length (hits ++ extra) =? 0)%nat eqn:E0.
  - apply Nat.eqb_eq, length_zero_iff_nil in E0. rewrite E0 in H. contradiction.
  - now inversion Hreturns; subst.
Qed.

(* ================================================================== *)
(** * The fallback *)
(* ================================================================== *)

Lemma filter_nil {A : Type} (f : A -> bool) l :
  (forall a, In a l -> f a = false) -> filter f l = [].
Proof.
  induction l as [| a l IH]; intros H; [reflexivity |]. cbn [filter].
  rewrite (H a) by now left. apply IH. intros a' Ha'. apply H. now right.
Qed.

Lemma flat_map_nil {A B : Type} (f : A -> list B) l :
  (forall a, In a l -> f a = []) -> flat_map f l = [].
Proof.
  induction l as [| a l IH]; intros H; [reflexivity |]. cbn [flat_map].
  rewrite (H a) by now left. rewrite IH; [reflexivity |].
  intros a' Ha'. apply H. now right.
Qed.

Lemma parseDigits_hexDigits d : forall acc,
  Viem.allHexDigits d = true -> 0 <= acc ->
  exists v, Js.parseDigits 16 acc d = Some v /\ 0 <= v.
Proof.
  induction d as [| c d IH]; intros acc Hd Hacc; cbn [Js.parseDigits].
  - now exists acc.
  - cbn [Viem.allHexDigits] in Hd. apply andb_prop in Hd as [Hc Hd].
    unfold Viem.isHexDigit in Hc.
    destruct (Js.digitValue c) as [v |] eqn:E; [| discriminate].
    pose proof (digitValue_range c v E) as [Hv0 Hv1].
    apply Z.ltb_lt in Hv1. rewrite Hv1. apply IH; [exact Hd | lia].
Qed.

(** [hexToBigInt] returns on a 32-byte hex word. *)
Lemma hexToBigInt_isHex256 h :
  Viem.isHex256 h = true -> exists v, Viem.hexToBigInt h = Ok v /\ 0 <= v.
Proof.
  intros H. apply isHex256_inv in H as (d & -> & Hd & Hl).
  unfold Viem.hexToBigInt. rewrite stringToBigInt_hex by exact Hd.
  destruct d as [| c d]; [discriminate |].
  unfold Js.parseNonEmpty.
  destruct (parseDigits_hexDigits (String c d) 0 Hd) as (v & -> & Hv); [lia |].
  now exists v.
Qed.

(** C4. When no layout entry accounts for the slot (no direct entry sits at
    it, no candidate key of a mapping hashes to it, no candidate index of a
    dynamic array reaches it) the resolver returns exactly one result, the
    fallback: label [var_] followed by the first ten characters of the slot,
    no type. No condition is put on the numeric value of the slot. The
    candidate keys are 32-byte hex words, and each array probe computes a slot
    (its sum stays below 2^256). *)
Theorem fallback_when_nothing_matches
        (slot : string) (storageLayout : list StorageSlotInfo.t)
        (potentialKeys : list MappingKey.t)
        (Hkeys : forall k, In k potentialKeys ->
                           Viem.isHex256 (MappingKey.hex k) = true)
        (Hdirect : forall item,
            In item storageLayout -> Engine.isDirect item = true ->
            StorageSlotInfo.slot item <> slot)
        (Hmapping : forall m k,
            In m storageLayout -> Engine.isSimpleMapping m = true ->
            In k potentialKeys ->
            Engine.computeMappingSlot (StorageSlotInfo.slot m) k <> slot)
        (Harray : forall a k index,
            In a storageLayout -> Engine.isDynamicArray a = true ->
            In k potentialKeys ->
            Viem.hexToBigInt (MappingKey.hex k) = Ok index ->
            0 <= index < Engine.LIMIT ->
            exists s, Engine.computeArraySlot (StorageSlotInfo.slot a) index = Ok s
                      /\ s <> slot) :
  Engine.findLayoutInfoAtSlot slot storageLayout potentialKeys
  = Ok [ {| SlotLabelResult.label := "var_" ++ Js.slice 0 10 slot;
            SlotLabelResult.slot := slot;
            SlotLabelResult.matchType := Exact;
            SlotLabelResult.type := None;
            SlotLabelResult.offset := None;
            SlotLabelResult.keys := None;
            SlotLabelResult.index := None |} ].
Proof.
  fold (Engine.fallback slot). unfold Engine.findLayoutInfoAtSlot.
  destruct (List.length storageLayout =? 0)%nat; [reflexivity |].
  rewrite directPass_spec.
  assert (Hd : Engine.directAt slot storageLayout = []).
  { apply filter_nil. intros item Hin.
    destruct (Engine.isDirect item) eqn:E; [| reflexivity].
    cbn [andb]. apply String.eqb_neq. now apply Hdirect. }
  rewrite Hd, nestedMappings_empty. cbn [Engine.nestedPass forEach].
  rewrite mappingPass_spec. cbn [app].
  assert (Hm : flat_map (fun m => Engine.mappingHits slot m potentialKeys)
                        (filter Engine.isSimpleMapping storageLayout) = []).
  { apply flat_map_nil. intros m Hin. apply filter_In in Hin as [Hin Hs].
    apply flat_map_nil. intros k Hk.
    pose proof (Hmapping m k Hin Hs Hk) as Hne.
    apply String.eqb_neq in Hne. now rewrite Hne. }
  rewrite Hm.
  assert (Ha : Engine.arrayPass slot (filter Engine.isDynamicArray storageLayout)
                                potentialKeys [] = Ok []).
  { unfold Engine.arrayPass.
    destruct (forEachM_returns (fun r : list SlotLabelResult.t => r = [])
                (fun array results =>
                   forEachM potentialKeys (Engine.arrayStep slot array) results)
                (filter Engine.isDynamicArray storageLayout) [])
      as (r & Hr & ->); [| reflexivity | exact Hr].
    intros a s1 Hin ->. apply filter_In in Hin as [Hin Hdyn].
    apply forEachM_returns; [| reflexivity].
    intros k s2 Hk ->. exists []. split; [| reflexivity].
    unfold Engine.arrayStep, Engine.isValidArrayIndex.
    destruct (hexToBigInt_isHex256 _ (Hkeys k Hk)) as (v & Hv & Hv0).
    rewrite Hv. cbn [bind].
    destruct ((0 <=? v) && (v <? Engine.LIMIT)) eqn:E; cbn [negb]; [| reflexivity].
    apply andb_prop in E as [E1 E2]. apply Z.leb_le in E1. apply Z.ltb_lt in E2.
    destruct (Harray a k v Hin Hdyn Hk Hv (conj E1 E2)) as (s & -> & Hne).
    cbn [bind]. apply String.eqb_neq in Hne. now rewrite Hne. }
  rewrite Ha. reflexivity.
Qed.

Lemma beValue_nonneg bs : forall acc, 0 <= acc -> 0 <= Viem.beValue acc bs.
Proof.
  induction bs as [| b bs IH]; intros acc Hacc; cbn [Viem.beValue]; [exact Hacc |].
  apply IH. pose proof (Z_of_byte_range b). lia.
Qed.

(** The resolver returns, and returns at least one result, when the candidate
    keys are 32-byte hex words and no array probe can pass 2^256. *)
Lemma findLayoutInfoAtSlot_returns slot storageLayout potentialKeys :
  (forall k, In k potentialKeys -> Viem.isHex256 (MappingKey.hex k) = true) ->
  (forall a, In a storageLayout -> Engine.isDynamicArray a = true ->
             Viem.toU256 (Keccak.keccak_256 (Viem.toBytes (StorageSlotInfo.slot a)))
             + Engine.LIMIT <= 2 ^ 256) ->
  exists results,
    Engine.findLayoutInfoAtSlot slot storageLayout potentialKeys = Ok results
    /\ results <> [].
Proof.
  intros Hkeys Hrange. unfold Engine.findLayoutInfoAtSlot.
  destruct (List.length storageLayout =? 0)%nat; [eexists; split; [reflexivity | discriminate] |].
  rewrite directPass_spec.
  destruct (Engine.directAt slot storageLayout) as [| x f] eqn:Ed.
  - set (r0 := Engine.nestedPass _ _ _ _).
    destruct (forEachM_returns (fun _ : list SlotLabelResult.t => True)
                (fun array results =>
                   forEachM potentialKeys (Engine.arrayStep slot array) results)
                (filter Engine.isDynamicArray storageLayout) r0)
      as (r & Hr & _); [| exact I |].
    + intros a s1 Hin _. apply filter_In in Hin as [Hin Hdyn].
      apply forEachM_returns; [| exact I].
      intros k s2 Hk _.
      unfold Engine.arrayStep, Engine.isValidArrayIndex.
      destruct (hexToBigInt_isHex256 _ (Hkeys k Hk)) as (v & Hv & Hv0).
      rewrite Hv. cbn [bind].
      destruct ((0 <=? v) && (v <? Engine.LIMIT)) eqn:E; cbn [negb];
        [| now eexists].
      apply andb_prop in E as [E1 E2]. apply Z.leb_le in E1. apply Z.ltb_lt in E2.
      pose proof (Hrange a Hin Hdyn) as Hsum.
      pose proof (beValue_nonneg (Keccak.keccak_256 (Viem.toBytes (StorageSlotInfo.slot a)))
                                 0 ltac:(lia)) as Hpos.
      unfold Engine.computeArraySlot. rewrite hexToBigInt_keccak256. cbn [bind].
      destruct (numberToHex_32
                  (Viem.toU256 (Keccak.keccak_256 (Viem.toBytes (StorageSlotInfo.slot a)))
                   + v)) as [Hok _].
      destruct Hok as (s & -> & _); [unfold Viem.toU256 in *; lia |].
      cbn [bind]. destruct (s =? slot)%string; now eexists.
    + unfold Engine.arrayPass. rewrite Hr. cbn [bind].
      destruct (List.length r =? 0)%nat eqn:E0.
      * eexists; split; [reflexivity | discriminate].
      * exists r. split; [reflexivity |]. intros ->. discriminate.
  - eexists; split; [reflexivity |].
    pose proof (Permutation_length (sortByOffset_perm (x :: f))) as Hlen.
    destruct (Engine.sortByOffset (x :: f)); [discriminate |]. discriminate.
Qed.

(* ================================================================== *)
(** * The slot algebra and the resolver on the sample contract *)
(* ================================================================== *)

Lemma computeMappingSlot_keccak_key_base_witness :
  Viem.isHex256 Sample.slot4 = true
  /\ Viem.isHex256 (MappingKey.hex Sample.userKey) = true
  /\ exists kb bb : list byte,
      Viem.hexToBytes (MappingKey.hex Sample.userKey) = Ok kb /\
      Viem.hexToBytes Sample.slot4 = Ok bb /\
      List.length kb = 32%nat /\ List.length bb = 32%nat /\
      Engine.computeMappingSlot Sample.slot4 Sample.userKey
      = Viem.bytesToHex (Keccak.keccak_256 (kb ++ bb)).
Proof.
  split; [reflexivity |]. split; [reflexivity |].
  apply (computeMappingSlot_keccak_key_base Sample.slot4 Sample.userKey);
    reflexivity.
Defined.

(** [purchases[user]]: keccak256 of the padded address followed by slot 4. *)
Example computeMappingSlot_purchases_user :
  Engine.computeMappingSlot Sample.slot4 Sample.userKey
  = "0xda6dd1bfa6ba17ca0d2867ed3e52be67e29434ebd8a7e7c15ee74acd0f516122".
Proof. vm_compute. reflexivity. Qed.

Lemma computeArraySlot_no_wrap_witness :
  exists s, Engine.computeArraySlot Sample.slot5 3 = Ok s /\
            Viem.isHex256 s = true /\
            Viem.hexToBigInt s
            = Ok (Viem.toU256 (Keccak.keccak_256 (Viem.toBytes Sample.slot5)) + 3) /\
            Js.toLowerCase s = s.
Proof.
  apply (proj1 (computeArraySlot_no_wrap Sample.slot5 3)).
  split; [apply Z.leb_le | apply Z.ltb_lt]; vm_compute; reflexivity.
Defined.

(** [numbers[3]]: keccak256 of slot 5, plus 3. *)
Example computeArraySlot_numbers_3 :
  Engine.computeArraySlot Sample.slot5 3
  = Ok "0x036b6384b5eca791c62761152d0c79bb0604c104a5fb6f4eb0703f3154bb3db3".
Proof. vm_compute. reflexivity. Qed.

(** The index 2^256 - 1 carries the sum past 2^256: the call raises, where
    the sum reduced modulo 2^256 has the 32-byte hex shown. *)
Lemma computeArraySlot_wrap_counterexample :
  Engine.computeArraySlot Sample.slot0 Sample.MAX_U256
  = Err (IntegerOutOfRangeError
           (Viem.toU256 (Keccak.keccak_256 (Viem.toBytes Sample.slot0))
            + Sample.MAX_U256))
  /\ Viem.numberToHex false
       ((Viem.toU256 (Keccak.keccak_256 (Viem.toBytes Sample.slot0))
         + Sample.MAX_U256) mod 2 ^ 256)
       (Some 32%nat)
     = Ok "0x290decd9548b62a8d60345a988386fc84ba6bc95484008f6362f93160ef3e562".
Proof. split; vm_compute; reflexivity. Qed.

Lemma fallback_when_nothing_matches_witness :
  Engine.findLayoutInfoAtSlot Sample.slot7 Sample.layout Sample.keys
  = Ok [ {| SlotLabelResult.label := "var_" ++ Js.slice 0 10 Sample.slot7;
            SlotLabelResult.slot := Sample.slot7;
            SlotLabelResult.matchType := Exact;
            SlotLabelResult.type := None;
            SlotLabelResult.offset := None;
            SlotLabelResult.keys := None;
            SlotLabelResult.index := None |} ].
Proof.
  apply (fallback_when_nothing_matches Sample.slot7 Sample.layout Sample.keys).
  - intros k Hk. in_cases Hk; reflexivity.
  - intros item Hin _. in_cases Hin; vm_compute; discriminate.
  - intros m k Hm Hs Hk. in_cases Hm; try (vm_compute in Hs; discriminate Hs).
    in_cases Hk; vm_compute; discriminate.
  - intros a k index Ha Hdyn Hk Hidx Hrange.
    in_cases Ha; try (vm_compute in Hdyn; discriminate Hdyn).
    in_cases Hk; vm_compute in Hidx; inversion Hidx; subst index.
    + unfold Engine.LIMIT in Hrange. lia.
    + eexists. split; [vm_compute; reflexivity | discriminate].
Defined.

(** A slot far from any small number gets its fallback as well. *)
Example fallback_high_slot :
  Engine.findLayoutInfoAtSlot
    "0x036b6384b5eca791c62761152d0c79bb0604c104a5fb6f4eb0703f3154bb3dde"
    Sample.layout Sample.keys
  = Ok [Engine.fallback
          "0x036b6384b5eca791c62761152d0c79bb0604c104a5fb6f4eb0703f3154bb3dde"]
  /\ SlotLabelResult.label
       (Engine.fallback
          "0x036b6384b5eca791c62761152d0c79bb0604c104a5fb6f4eb0703f3154bb3dde")
     = "var_0x036b6384".
Proof. split; vm_compute; reflexivity. Qed.

Lemma direct_matches_win_witness :
  exists matching,
    Engine.findLayoutInfoAtSlot Sample.slot0 Sample.layout Sample.keys
    = Ok (map (Engine.directResult Sample.slot0) matching)
    /\ Permutation matching (Engine.directAt Sample.slot0 Sample.layout)
    /\ StronglySorted Engine.offsetLe matching
    /\ Forall (fun r => SlotLabelResult.matchType r = Exact
                        /\ SlotLabelResult.keys r = None
                        /\ SlotLabelResult.index r = None)
              (map (Engine.directResult Sample.slot0) matching)
    /\ ~ In (Engine.fallback Sample.slot0)
            (map (Engine.directResult Sample.slot0) matching).
Proof.
  apply (direct_matches_win Sample.slot0 Sample.layout Sample.keys).
  exists Sample.owner. split; [right; left; reflexivity |].
  split; reflexivity.
Defined.

(** The two variables packed in slot 0, by ascending offset. *)
Example direct_matches_slot0 :
  Engine.findLayoutInfoAtSlot Sample.slot0 Sample.layout Sample.keys
  = Ok [Engine.directResult Sample.slot0 Sample.owner;
        Engine.directResult Sample.slot0 Sample.paused].
Proof. vm_compute. reflexivity. Qed.

Lemma mapping_candidates_not_filtered_witness :
  In (Engine.mappingResult (Engine.computeMappingSlot Sample.slot4 Sample.userKey)
                           Sample.purchases Sample.userKey)
     [Engine.mappingResult (Engine.computeMappingSlot Sample.slot4 Sample.userKey)
                           Sample.purchases Sample.userKey].
Proof.
  apply (mapping_candidates_not_filtered
           (Engine.computeMappingSlot Sample.slot4 Sample.userKey)
           Sample.layout Sample.keys Sample.purchases Sample.userKey).
  - vm_compute. reflexivity.
  - right; right; right; left. reflexivity.
  - vm_compute. reflexivity.
  - left. reflexivity.
  - reflexivity.
  - vm_compute. reflexivity.
Defined.

(** A candidate of declared type [address] against a mapping keyed by
    [uint256]: the candidate is tried and reported as the mapping's key. *)
Lemma key_type_filter_counterexample :
  MappingKey.type Sample.userKey = Some "address"
  /\ StorageSlotInfo.keyType Sample.purchases = Some "t_uint256"
  /\ Engine.findLayoutInfoAtSlot
       (Engine.computeMappingSlot Sample.slot4 Sample.userKey)
       Sample.layout Sample.keys
     = Ok [Engine.mappingResult
             (Engine.computeMappingSlot Sample.slot4 Sample.userKey)
             Sample.purchases Sample.userKey].
Proof. repeat split; vm_compute; reflexivity. Qed.

(* ================================================================== *)
(** * The deduplication of the candidate keys *)
(* ================================================================== *)

Lemma JsMap_get_None {V : Type} k (m : JsMap.t V) :
  JsMap.get k m = None -> ~ In k (map fst m).
Proof.
  induction m as [| [k' v] m IH]; cbn [JsMap.get map fst In]; [tauto |].
  destruct (k' =? k)%string eqn:E; [discriminate |].
  apply String.eqb_neq in E. intros H [Hk | Hk]; [contradiction | now apply IH].
Qed.

Lemma JsMap_get_In {V : Type} k (v : V) m : JsMap.get k m = Some v -> In (k, v) m.
Proof.
  induction m as [| [k' v'] m IH]; cbn [JsMap.get In]; [discriminate |].
  destruct (k' =? k)%string eqn:E.
  - apply String.eqb_eq in E. intros H. inversion H. subst. now left.
  - intros H. right. now apply IH.
Qed.

Lemma JsMap_In_get {V : Type} k (v : V) m :
  NoDup (map fst m) -> In (k, v) m -> JsMap.get k m = Some v.
Proof.
  induction m as [| [k' v'] m IH]; cbn [JsMap.get map fst In]; [tauto |].
  intros Hnd [H | H].
  - inversion H. subst. now rewrite String.eqb_refl.
  - inversion Hnd as [| ? ? Hnotin Hnd']. subst.
    destruct (k' =? k)%string eqn:E.
    + apply String.eqb_eq in E. subst k'. exfalso. apply Hnotin.
      apply in_map_iff. now exists (k, v).
    + now apply IH.
Qed.

Lemma JsMap_set_absent {V : Type} k (v : V) m :
  JsMap.get k m = None -> JsMap.set k v m = (m ++ [(k, v)])%list.
Proof.
  induction m as [| [k' v'] m IH]; cbn [JsMap.get JsMap.set app]; [reflexivity |].
  destruct (k' =? k)%string; [discriminate |]. intros H. now rewrite IH.
Qed.

Lemma JsMap_set_keys_present {V : Type} k (v v0 : V) m :
  JsMap.get k m = Some v0 -> map fst (JsMap.set k v m) = map fst m.
Proof.
  induction m as [| [k' v'] m IH]; cbn [JsMap.get JsMap.set map fst]; [discriminate |].
  destruct (k' =? k)%string eqn:E.
  - apply String.eqb_eq in E. now subst.
  - intros H. cbn [map fst]. now rewrite IH.
Qed.

Lemma JsMap_In_set {V : Type} k (v : V) m h x :
  In (h, x) (JsMap.set k v m) -> (h = k /\ x = v) \/ In (h, x) m.
Proof.
  induction m as [| [k' v'] m IH]; cbn [JsMap.set In].
  - intros [H | []]. inversion H. now left.
  - destruct (k' =? k)%string; cbn [In].
    + intros [H | H]; [inversion H; now left | right; now right].
    + intros [H | H]; [right; now left |].
      destruct (IH H) as [? | ?]; [now left | right; now right].
Qed.

Lemma dedupeStep_inv seen m k :
  KeyOracle.dedupeInv seen m ->
  KeyOracle.dedupeInv (seen ++ [k]) (KeyOracle.dedupeStep k m).
Proof.
  intros (Hnd & Hent & Hget). unfold KeyOracle.dedupeStep. rewrite JsMap_has_get.
  assert (Hold : KeyOracle.dedupeInv (seen ++ [k]) m ->
                 forall k0, JsMap.get (MappingKey.hex k) m = Some k0 ->
                 Js.truthyOpt (MappingKey.type k) = false ->
                 KeyOracle.dedupeInv (seen ++ [k]) m) by auto.
  destruct (JsMap.get (MappingKey.hex k) m) as [k0 |] eqn:G; cbn [negb orb].
  - destruct (Js.truthyOpt (MappingKey.type k)) eqn:T.
    + (* the typed key replaces the entry of its hex *)
      repeat split.
      * now rewrite (JsMap_set_keys_present _ _ _ _ G).
      * apply JsMap_In_set in H as [[-> ->] | H]; [reflexivity |].
        now apply (Hent h k1).
      * apply JsMap_In_set in H as [[-> ->] | H];
          [apply in_or_app; right; now left |].
        apply in_or_app. left. now apply (Hent h k1).
      * intros c Hc.
        destruct (String.eqb_spec (MappingKey.hex k) (MappingKey.hex c)) as [E | E].
        -- exists k. rewrite <- E, JsMap_get_set_same. auto.
        -- rewrite JsMap_get_set_other by exact E.
           apply in_app_or in Hc as [Hc | [<- | []]]; [now apply Hget | contradiction].
    + (* an untyped key leaves the entry of its hex in place *)
      repeat split.
      * exact Hnd.
      * now apply (Hent h k1).
      * apply in_or_app. left. now apply (Hent h k1).
      * intros c Hc. apply in_app_or in Hc as [Hc | [<- | []]]; [now apply Hget |].
        exists k0. split; [exact G | congruence].
  - (* a new hex is appended *)
    rewrite (JsMap_set_absent _ _ _ G).
    repeat split.
    + rewrite map_app. cbn [map fst].
      apply NoDup_app; [exact Hnd | repeat constructor; tauto |].
      intros h Hh [<- | []]. now apply (JsMap_get_None _ _ G).
    + apply in_app_or in H as [H | [H | []]];
        [now apply (Hent h k0) | now inversion H].
    + apply in_or_app.
      apply in_app_or in H as [H | [H | []]];
        [left; now apply (Hent h k0) | right; inversion H; now left].
    + intros c Hc.
      rewrite <- (JsMap_set_absent _ k _ G).
      destruct (String.eqb_spec (MappingKey.hex k) (MappingKey.hex c)) as [E | E].
      * exists k. rewrite <- E, JsMap_get_set_same. split; [reflexivity |].
        apply in_app_or in Hc as [Hc | [<- | []]]; [| auto].
        destruct (Hget c Hc) as (k' & Hk' & _). rewrite <- E in Hk'. congruence.
      * rewrite JsMap_get_set_other by exact E.
        apply in_app_or in Hc as [Hc | [<- | []]]; [now apply Hget | contradiction].
Qed.

Lemma forEach_dedupeStep_inv keys : forall seen m,
  KeyOracle.dedupeInv seen m ->
  KeyOracle.dedupeInv (seen ++ keys) (forEach keys KeyOracle.dedupeStep m).
Proof.
  induction keys as [| k keys IH]; intros seen m H; cbn [forEach].
  - now rewrite app_nil_r.
  - replace (seen ++ k :: keys)%list with ((seen ++ [k]) ++ keys)%list
      by now rewrite <- app_assoc.
    apply IH. now apply dedupeStep_inv.
Qed.

(** What lines 121-128 return for the collected keys. *)
Lemma dedupeKeys_spec keys :
  NoDup (map MappingKey.hex (KeyOracle.dedupeKeys keys))
  /\ (forall k, In k (KeyOracle.dedupeKeys keys) -> In k keys)
  /\ (forall c, In c keys ->
                exists k, In k (KeyOracle.dedupeKeys keys)
                          /\ MappingKey.hex k = MappingKey.hex c)
  /\ (forall c k, In c keys -> In k (KeyOracle.dedupeKeys keys) ->
                  MappingKey.hex k = MappingKey.hex c ->
                  Js.truthyOpt (MappingKey.type c) = true ->
                  Js.truthyOpt (MappingKey.type k) = true).
Proof.
  unfold KeyOracle.dedupeKeys, JsMap.values.
  destruct (forEach_dedupeStep_inv keys [] JsMap.empty) as (Hnd & Hent & Hget).
  { repeat split; [constructor | contradiction | contradiction | contradiction]. }
  cbn [app] in *. set (m := forEach keys KeyOracle.dedupeStep JsMap.empty) in *.
  assert (Hhex : map MappingKey.hex (map snd m) = map fst m).
  { rewrite map_map. apply map_ext_in. intros [h k] Hin. now apply (Hent h k). }
  repeat split.
  - now rewrite Hhex.
  - intros k Hk. apply in_map_iff in Hk as ([h k'] & <- & Hin). now apply (Hent h k').
  - intros c Hc. destruct (Hget c Hc) as (k & Hk & _).
    apply JsMap_get_In in Hk. exists k. split.
    + apply in_map_iff. now exists (MappingKey.hex c, k).
    + now apply (Hent _ _ Hk).
  - intros c k Hc Hk Ehex Htyped.
    destruct (Hget c Hc) as (k' & Hk' & Hpref).
    apply in_map_iff in Hk as ([h k2] & E & Hin). cbn [snd] in E. subst k2.
    destruct (Hent _ _ Hin) as [Eh _].
    pose proof (JsMap_In_get h k m Hnd Hin) as G.
    rewrite <- Ehex, Eh, G in Hk'. inversion Hk'. subst k'. auto.
Qed.

(** C8. The candidates [extractPotentialKeys] returns are the collected
    ones with one entry per [hex]: no two share a hex, every collected hex is
    kept, and where a collected candidate of some hex has a type, the entry
    returned for that hex has one. *)
Theorem extractPotentialKeys_deduplicated
        (codec : AbiCodec.t) (trace : Trace.t) (addresses : list string)
        (abiFunctions : list AbiFunction.t) (txData : option string)
        (out : list MappingKey.t)
        (Hout : KeyOracle.extractPotentialKeys codec trace addresses abiFunctions txData
                = Ok out) :
  exists collected,
    KeyOracle.collectPotentialKeys codec trace addresses abiFunctions txData
    = Ok collected
    /\ NoDup (map MappingKey.hex out)
    /\ (forall k, In k out -> In k collected)
    /\ (forall c, In c collected ->
                  exists k, In k out /\ MappingKey.hex k = MappingKey.hex c)
    /\ (forall c k, In c collected -> In k out ->
                    MappingKey.hex k = MappingKey.hex c ->
                    Js.truthyOpt (MappingKey.type c) = true ->
                    Js.truthyOpt (MappingKey.type k) = true).
Proof.
  unfold KeyOracle.extractPotentialKeys in Hout.
  destruct (KeyOracle.collectPotentialKeys codec trace addresses abiFunctions txData)
    as [collected | e]; cbn [bind] in Hout; [| discriminate].
  inversion Hout. subst out. exists collected. split; [reflexivity |].
  apply dedupeKeys_spec.
Qed.

(* ================================================================== *)
(** * Where the candidate keys come from *)
(* ================================================================== *)

Section KeyOrigins.

Variable codec : AbiCodec.t.
Variable trace : Trace.t.
Variable addresses : list string.
Variable abiFunctions : list AbiFunction.t.

Lemma allFrom_snoc txData keys k :
  KeyOracle.allFrom codec trace addresses abiFunctions txData keys ->
  KeyOracle.keyOrigin codec trace addresses abiFunctions txData k ->
  KeyOracle.allFrom codec trace addresses abiFunctions txData (keys ++ [k]).
Proof.
  intros Hkeys Hk k' Hin. apply in_app_or in Hin as [Hin | [<- | []]]; auto.
Qed.

Lemma pushParam_origin data type p keys keys' :
  KeyOracle.decodedArgument codec abiFunctions data type p ->
  KeyOracle.pushParam codec type p keys = Ok keys' ->
  KeyOracle.allFrom codec trace addresses abiFunctions (Some data) keys ->
  KeyOracle.allFrom codec trace addresses abiFunctions (Some data) keys'.
Proof.
  unfold KeyOracle.pushParam. intros Hdecoded H Hkeys.
  destruct (Js.truthy type) eqn:T; [| now inversion H; subst].
  destruct (AbiCodec.encodeAbiParameters codec type p) as [encoded | e] eqn:E;
    cbn [bind] in H; [| discriminate].
  destruct (Viem.padHex encoded 32) as [hex | e] eqn:P; cbn [bind] in H;
    [| discriminate].
  inversion H. subst keys'. apply allFrom_snoc; [exact Hkeys |].
  right; left. exists data, type, p, encoded, hex. auto 10.
Qed.

(** The position of an entry of [indexed l] is its position in [l]. *)
Lemma In_indexed_from {A : Type} (l : list A) : forall start i a,
  In (i, a) (combine (seq start (List.length l)) l) ->
  (start <= i)%nat /\ nth_error l (i - start) = Some a.
Proof.
  induction l as [| x l IH]; intros start i a Hin; [contradiction Hin |].
  cbn [List.length seq combine] in Hin. destruct Hin as [E | Hin].
  - inversion E. subst. split; [lia |]. now rewrite Nat.sub_diag.
  - apply IH in Hin as [Hle Hnth]. split; [lia |].
    replace (i - start)%nat with (S (i - S start)) by lia. exact Hnth.
Qed.

Lemma In_indexed {A : Type} (l : list A) i a :
  In (i, a) (indexed l) -> nth_error l i = Some a.
Proof.
  intros Hin. apply In_indexed_from in Hin as [_ Hnth].
  now rewrite Nat.sub_0_r in Hnth.
Qed.

Section Decoded.

(** The calldata of a call whose function the ABI knows, decoded. *)
Variable data : string.
Variable fn : AbiFunction.t.
Variable inputs : list AbiInput.t.
Variable params : list JsValue.
Hypothesis Hlength : (10 < String.length data)%nat.
Hypothesis Hfind :
  find (fun fn => (AbiFunction.selector fn =? Js.slice 0 10 data)%string)
       abiFunctions = Some fn.
Hypothesis Hinputs : AbiFunction.inputs fn = Some inputs.
Hypothesis Hdecode :
  AbiCodec.decodeAbiParameters codec inputs ("0x" ++ Js.sliceFrom 10 data)
  = Ok params.

Lemma typedParam_origin index param (rename : string -> string) p keys keys' :
  nth_error params index = Some param ->
  (forall declared, KeyOracle.paramValue declared param (rename declared) p) ->
  (ty <- KeyOracle.inputType inputs index ;;
   KeyOracle.pushParam codec (rename ty) p keys) = Ok keys' ->
  KeyOracle.allFrom codec trace addresses abiFunctions (Some data) keys ->
  KeyOracle.allFrom codec trace addresses abiFunctions (Some data) keys'.
Proof.
  intros Hparam Hvalue H Hkeys. unfold KeyOracle.inputType in H.
  destruct (nth_error inputs index) as [input |] eqn:Einput; cbn [bind] in H;
    [| discriminate].
  apply (pushParam_origin data (rename (AbiInput.type input)) p keys keys');
    [| exact H | exact Hkeys].
  exists fn, inputs, params, index, input, param. auto 10.
Qed.

Lemma paramKeys_origin keys keys' :
  KeyOracle.paramKeys codec inputs params keys = Ok keys' ->
  KeyOracle.allFrom codec trace addresses abiFunctions (Some data) keys ->
  KeyOracle.allFrom codec trace addresses abiFunctions (Some data) keys'.
Proof.
  unfold KeyOracle.paramKeys. intros H Hkeys.
  apply (forEachM_invariant
           (KeyOracle.allFrom codec trace addresses abiFunctions (Some data)) _ _ _ _)
    with (3 := H); [| exact Hkeys].
  intros [index param] s1 s2 Hin Hs1 Hbody. apply In_indexed in Hin.
  destruct param as [s | n | b | items];
    try (apply (typedParam_origin index _ (fun ty => ty) _ _ _ Hin
                                  (fun declared => conj eq_refl eq_refl) Hbody Hs1)).
  apply (forEachM_invariant
           (KeyOracle.allFrom codec trace addresses abiFunctions (Some data)) _ _ _ _)
    with (3 := Hbody); [| exact Hs1].
  intros p t1 t2 Hp Ht1 Hstep.
  apply (typedParam_origin index _ (Js.removeFirst "[]") _ _ _ Hin
                           (fun declared => conj Hp eq_refl) Hstep Ht1).
Qed.

End Decoded.

Lemma calldataKeys_origin txData keys keys' :
  KeyOracle.calldataKeys codec abiFunctions txData keys = Ok keys' ->
  KeyOracle.allFrom codec trace addresses abiFunctions txData keys ->
  KeyOracle.allFrom codec trace addresses abiFunctions txData keys'.
Proof.
  unfold KeyOracle.calldataKeys. intros H Hkeys.
  destruct txData as [data |]; [| now inversion H; subst].
  destruct (Js.truthy data && (10 <? String.length data)%nat) eqn:Hlong;
    [| now inversion H; subst].
  apply andb_prop in Hlong as [_ Hlong]. apply Nat.ltb_lt in Hlong.
  destruct (find _ abiFunctions) as [fn |] eqn:Hfind; [| now inversion H; subst].
  destruct (AbiFunction.inputs fn) as [inputs |] eqn:Hinputs;
    [| now inversion H; subst].
  destruct (AbiCodec.decodeAbiParameters codec inputs _) as [params | e] eqn:Hdecode;
    cbn [bind] in H; [| discriminate].
  exact (paramKeys_origin data fn inputs params Hlong Hfind Hinputs Hdecode
                          keys keys' H Hkeys).
Qed.

Lemma stackKeys_origin txData keys keys' :
  KeyOracle.stackKeys trace keys = Ok keys' ->
  KeyOracle.allFrom codec trace addresses abiFunctions txData keys ->
  KeyOracle.allFrom codec trace addresses abiFunctions txData keys'.
Proof.
  unfold KeyOracle.stackKeys. intros H Hkeys.
  destruct (Trace.uniqueStackValues trace) as [[| v values] |] eqn:E;
    try (now inversion H; subst).
  apply (forEachM_invariant
           (KeyOracle.allFrom codec trace addresses abiFunctions txData) _ _ _ _)
    with (3 := H); [| exact Hkeys].
  intros stackValue s1 s2 Hin Hs1 Hbody.
  destruct (KeyOracle.stackKey stackValue) as [k | e] eqn:Ek; cbn [bind] in Hbody;
    [| discriminate].
  inversion Hbody. subst s2. apply allFrom_snoc; [exact Hs1 |].
  right; right. exists (v :: values), stackValue. auto.
Qed.

Lemma collectPotentialKeys_origin txData keys :
  KeyOracle.collectPotentialKeys codec trace addresses abiFunctions txData = Ok keys ->
  KeyOracle.allFrom codec trace addresses abiFunctions txData keys.
Proof.
  unfold KeyOracle.collectPotentialKeys. intros H.
  destruct (forEachM addresses _ []) as [keys1 | e] eqn:E1; cbn [bind] in H;
    [| discriminate].
  destruct (KeyOracle.calldataKeys codec abiFunctions txData keys1)
    as [keys2 | e] eqn:E2; cbn [bind] in H; [| discriminate].
  apply (stackKeys_origin _ _ _ H).
  apply (calldataKeys_origin _ _ _ E2).
  apply (forEachM_invariant
           (KeyOracle.allFrom codec trace addresses abiFunctions txData) _ _ _ _)
    with (3 := E1); [| intros k []].
  intros address s1 s2 Hin Hs1 Hbody.
  destruct (KeyOracle.addressKey address) as [k | e] eqn:Ek; cbn [bind] in Hbody;
    [| discriminate].
  inversion Hbody. subst s2. apply allFrom_snoc; [exact Hs1 |].
  left. exists address. auto.
Qed.

End KeyOrigins.

(* ================================================================== *)
(** * The constants of [extractPotentialValuesFromTrace] *)
(* ================================================================== *)

Lemma forEach_push {A B : Type} (f : A -> B) l : forall (values : list B),
  forEach l (fun a values => SlotEngine.push values (f a)) values
  = (values ++ map f l)%list.
Proof.
  induction l as [| a l IH]; intros values; cbn [forEach map].
  - now rewrite app_nil_r.
  - rewrite IH. unfold SlotEngine.push. now rewrite <- app_assoc.
Qed.

Lemma In_push {A : Type} (x y : A) l : In x l -> In x (SlotEngine.push l y).
Proof. intros H. apply in_or_app. now left. Qed.

Lemma In_push_inv {A : Type} (x y : A) l :
  In x (SlotEngine.push l y) -> In x l \/ x = y.
Proof. intros H. apply in_app_or in H as [H | [H | []]]; auto. Qed.

Section Stages.

(** A property of the entries that every stage keeps. *)
Variable P : list TraceValue.t -> Prop.
Hypothesis Paddress : forall values a p op,
    P values -> P (SlotEngine.push values (TraceValue.mk (SString a) "address" p op)).
Hypothesis Pargument : forall values v p op,
    P values -> P (SlotEngine.push values (TraceValue.mk v "argument" p op)).
Hypothesis Pstack : forall values s op,
    P values -> P (SlotEngine.push values (TraceValue.mk (SString s) "stack" None op)).

Lemma addressValues_keeps txData values :
  P values -> P (SlotEngine.addressValues txData values).
Proof.
  intros H. unfold SlotEngine.addressValues.
  destruct (TxData.from txData) as [a |]; [destruct (Js.truthy a) |];
    (destruct (TxData.to txData) as [b |]; [destruct (Js.truthy b) |]); auto.
Qed.

Lemma argumentValues_keeps txData values :
  P values -> P (SlotEngine.argumentValues txData values).
Proof.
  intros H. unfold SlotEngine.argumentValues.
  destruct (TxData.data txData) as [data |]; [| exact H].
  destruct (Js.truthy data && (10 <=? String.length data)%nat); [| exact H].
  apply forEach_invariant; [| exact H].
  intros i s _ Hs. unfold SlotEngine.argumentStep.
  destruct (Js.startsWith _ _);
    (destruct (Js.stringToBigInt _) as [n |];
     [destruct (n <? SlotEngine.TWO_128) |]); auto.
Qed.

Lemma stackStep_keeps op s values :
  P values -> P (SlotEngine.stackStep op s values).
Proof.
  intros H. unfold SlotEngine.stackStep.
  destruct (Js.stringToBigInt s) as [n |];
    [destruct (n <? SlotEngine.TWO_128) |]; auto.
Qed.

Lemma stackValues_keeps trace values :
  P values -> P (SlotEngine.stackValues trace values).
Proof.
  intros H. unfold SlotEngine.stackValues. destruct trace as [t | steps].
  - destruct (Trace.uniqueStackValues t); [| exact H].
    apply forEach_invariant; [| exact H]. intros; now apply stackStep_keeps.
  - apply forEach_invariant; [| exact H]. intros step s _ Hs.
    destruct (Step.stack step) as [stack |]; [| exact Hs].
    destruct (0 <? List.length stack)%nat; [| exact Hs].
    apply forEach_invariant; [| exact Hs]. intros; now apply stackStep_keeps.
Qed.

End Stages.

Lemma constantValues_spec values :
  SlotEngine.constantValues values
  = (values ++ map SlotEngine.constant (seq 0 10))%list.
Proof. unfold SlotEngine.constantValues. apply forEach_push. Qed.

Lemma constant_collected trace txData i :
  (i < 10)%nat -> In (SlotEngine.constant i) (SlotEngine.collectValues trace txData).
Proof.
  intros Hi. unfold SlotEngine.collectValues.
  apply stackValues_keeps; try (intros; now apply In_push).
  apply argumentValues_keeps; try (intros; now apply In_push).
  rewrite constantValues_spec. apply in_or_app. right.
  apply in_map, in_seq. lia.
Qed.

Lemma collected_classes trace txData v :
  In v (SlotEngine.collectValues trace txData) ->
  (exists j, (j < 10)%nat /\ v = SlotEngine.constant j) \/ SlotEngine.otherSource v.
Proof.
  revert v. unfold SlotEngine.collectValues.
  set (classes := fun values : list TraceValue.t =>
         forall v, In v values ->
                   (exists j, (j < 10)%nat /\ v = SlotEngine.constant j)
                   \/ SlotEngine.otherSource v).
  assert (Hpush : forall values x,
             SlotEngine.otherSource x -> classes values ->
             classes (SlotEngine.push values x)).
  { intros values x Hx Hv v Hin. apply In_push_inv in Hin as [Hin | ->]; auto. }
  apply (stackValues_keeps classes);
    [intros; apply Hpush; [right; right; reflexivity | assumption] |].
  apply (argumentValues_keeps classes);
    [intros; apply Hpush; [right; left; reflexivity | assumption] |].
  rewrite constantValues_spec. intros v Hin. apply in_app_or in Hin as [Hin | Hin].
  - revert v Hin. apply (addressValues_keeps classes);
      [intros; apply Hpush; [left; reflexivity | assumption] |].
    intros v [].
  - apply in_map_iff in Hin as (j & <- & Hj). apply in_seq in Hj.
    left. exists j. split; [lia | reflexivity].
Qed.

(** The key of an entry from another source is never the key of a constant:
    [::address], [::argument] and [::stack] cannot stand where [::constant]
    or [::CONST] does. *)
Lemma otherSource_key v d :
  SlotEngine.otherSource v -> SlotEngine.dedupKey v <> String d "::constant::CONST".
Proof.
  unfold SlotEngine.dedupKey, SlotEngine.otherSource.
  destruct v as [value source position operation].
  cbn [TraceValue.value TraceValue.source TraceValue.operation].
  generalize (SlotEngine.keyValue value) as kv.
  intros kv [E | [E | E]] H; subst source; key_clash kv H.
Qed.

Lemma constant_key j :
  (j < 10)%nat ->
  SlotEngine.dedupKey (SlotEngine.constant j) = String (SlotEngine.digitChar j) "::constant::CONST".
Proof.
  intros Hj. do 10 (destruct j as [| j]; [reflexivity |]). lia.
Qed.

Lemma constant_key_inj i j :
  (i < 10)%nat -> (j < 10)%nat ->
  SlotEngine.dedupKey (SlotEngine.constant j) = SlotEngine.dedupKey (SlotEngine.constant i) ->
  j = i.
Proof.
  intros Hi Hj. rewrite !constant_key by assumption. intros H.
  injection H as H. unfold SlotEngine.digitChar in H.
  apply (f_equal nat_of_ascii) in H.
  rewrite !nat_ascii_embedding in H by lia. lia.
Qed.

(** [Map.set] on every entry: an entry that alone has its key is returned. *)
Lemma dedup_keeps_unique (values : list TraceValue.t) (v : TraceValue.t) :
  In v values ->
  (forall v', In v' values -> SlotEngine.dedupKey v' = SlotEngine.dedupKey v -> v' = v) ->
  In v (JsMap.values (forEach values SlotEngine.dedupStep JsMap.empty)).
Proof.
  intros Hin Huniq.
  assert (Hinv : forall l seen m,
             (forall c, In c seen ->
                        exists x, JsMap.get (SlotEngine.dedupKey c) m = Some x
                                  /\ SlotEngine.dedupKey x = SlotEngine.dedupKey c
                                  /\ In x seen) ->
             forall c, In c (seen ++ l) ->
                       exists x, JsMap.get (SlotEngine.dedupKey c)
                                           (forEach l SlotEngine.dedupStep m) = Some x
                                 /\ SlotEngine.dedupKey x = SlotEngine.dedupKey c
                                 /\ In x (seen ++ l)).
  { induction l as [| a l IH]; intros seen m Hm c Hc; cbn [forEach].
    - rewrite app_nil_r in *. now apply Hm.
    - replace (seen ++ a :: l)%list with ((seen ++ [a]) ++ l)%list in *
        by now rewrite <- app_assoc.
      apply IH; [| exact Hc]. clear c Hc. intros c Hc. unfold SlotEngine.dedupStep.
      destruct (String.eqb_spec (SlotEngine.dedupKey a) (SlotEngine.dedupKey c)) as [E | E].
      + exists a. rewrite <- E, JsMap_get_set_same.
        repeat split. apply in_or_app. right. now left.
      + rewrite JsMap_get_set_other by exact E.
        apply in_app_or in Hc as [Hc | [<- | []]]; [| contradiction].
        destruct (Hm c Hc) as (x & Hx & Ex & Hxin). exists x.
        repeat split; auto. apply in_or_app. now left. }
  destruct (Hinv values [] JsMap.empty (fun c (H : In c []) => match H with end) v Hin)
    as (x & Hx & Ex & Hxin).
  cbn [app] in Hxin. rewrite (Huniq x Hxin Ex) in Hx.
  apply JsMap_get_In in Hx. unfold JsMap.values. apply in_map_iff.
  now exists (SlotEngine.dedupKey v, v).
Qed.

Lemma constant_extracted trace txData i :
  (i < 10)%nat ->
  In (SlotEngine.constant i) (SlotEngine.extractPotentialValuesFromTrace trace txData).
Proof.
  intros Hi. unfold SlotEngine.extractPotentialValuesFromTrace.
  apply (dedup_keeps_unique (SlotEngine.collectValues trace txData)).
  - now apply constant_collected.
  - intros v' Hv' Ekey.
    destruct (collected_classes trace txData v' Hv') as [(j & Hj & ->) | Hother].
    + f_equal. now apply constant_key_inj.
    + exfalso. rewrite (constant_key i Hi) in Ekey.
      exact (otherSource_key v' _ Hother Ekey).
Qed.

(* ================================================================== *)
(** * The constants and the current extractor *)
(* ================================================================== *)

(** C7, as the code has it. The older [extractPotentialValuesFromTrace]
    returns each of the constants 0 to 9 on every input; the engine's
    [extractPotentialKeys] adds no constant: each candidate it returns comes
    from a touched address, from a decoded calldata argument or from a stack
    value. *)
Theorem candidate_constants
        (legacyTrace : TraceArg) (legacyTxData : TxData.t) (i : nat)
        (codec : AbiCodec.t) (trace : Trace.t) (addresses : list string)
        (abiFunctions : list AbiFunction.t) (txData : option string)
        (out : list MappingKey.t) (k : MappingKey.t)
        (Hi : (i < 10)%nat)
        (Hout : KeyOracle.extractPotentialKeys codec trace addresses abiFunctions txData
                = Ok out)
        (Hk : In k out) :
  In {| TraceValue.value := SNumber (Z.of_nat i);
        TraceValue.source := "constant";
        TraceValue.position := Some (Z.of_nat i);
        TraceValue.operation := "CONST" |}
     (SlotEngine.extractPotentialValuesFromTrace legacyTrace legacyTxData)
  /\ KeyOracle.keyOrigin codec trace addresses abiFunctions txData k.
Proof.
  split.
  - now apply (constant_extracted legacyTrace legacyTxData i).
  - unfold KeyOracle.extractPotentialKeys in Hout.
    destruct (KeyOracle.collectPotentialKeys codec trace addresses abiFunctions txData)
      as [collected | e] eqn:Hc; cbn [bind] in Hout; [| discriminate].
    inversion Hout. subst out.
    apply (collectPotentialKeys_origin _ _ _ _ _ _ Hc).
    now apply (proj1 (proj2 (dedupeKeys_spec collected))).
Qed.

(* ================================================================== *)
(** * The key oracle on the sample call *)
(* ================================================================== *)

Example extractPotentialKeys_sample :
  KeyOracle.extractPotentialKeys SampleAbi.codec Sample.stackTrace [Sample.user] [] None
  = Ok Sample.keys.
Proof. vm_compute. reflexivity. Qed.

Lemma candidate_constants_witness :
  In {| TraceValue.value := SNumber (Z.of_nat 3);
        TraceValue.source := "constant";
        TraceValue.position := Some (Z.of_nat 3);
        TraceValue.operation := "CONST" |}
     (SlotEngine.extractPotentialValuesFromTrace Sample.legacyTrace Sample.legacyTxData)
  /\ KeyOracle.keyOrigin SampleAbi.codec Sample.stackTrace [Sample.user] [] None
                         Sample.userKey.
Proof.
  apply (candidate_constants Sample.legacyTrace Sample.legacyTxData 3
                             SampleAbi.codec Sample.stackTrace [Sample.user] [] None
                             Sample.keys Sample.userKey).
  - lia.
  - vm_compute. reflexivity.
  - left. reflexivity.
Defined.

(** With no address, no calldata and no stack value [extractPotentialKeys]
    returns no candidate at all, so none of the constants 0 to 9. *)
Lemma extractPotentialKeys_no_constants_counterexample :
  KeyOracle.extractPotentialKeys SampleAbi.codec Sample.noTrace [] [] None = Ok [].
Proof. reflexivity. Qed.

(** An origin of the second kind: the amount of [transfer(user, 3)], decoded
    under the ABI of [transfer], is a candidate of type [uint256]. *)
Example decodedArgument_transfer_amount :
  KeyOracle.decodedArgument SampleAbi.codec [Sample.transfer] Sample.transferCalldata
                            "uint256" (JBigInt 3)
  /\ KeyOracle.extractPotentialKeys SampleAbi.codec Sample.noTrace []
                                    [Sample.transfer] (Some Sample.transferCalldata)
     = Ok [MappingKey.mk (MappingKey.hex Sample.userKey)
                         (Some (JString "0xd8dA6BF26964aF9D7eEd9e03E53415D37aA96045"))
                         (Some "address");
           MappingKey.mk (MappingKey.hex Sample.threeKey) (Some (JBigInt 3))
                         (Some "uint256")].
Proof.
  split; [| vm_compute; reflexivity].
  exists Sample.transfer,
         [AbiInput.mk "to" "address"; AbiInput.mk "amount" "uint256"],
         [JString "0xd8dA6BF26964aF9D7eEd9e03E53415D37aA96045"; JBigInt 3],
         1%nat, (AbiInput.mk "amount" "uint256"), (JBigInt 3).
  split; [vm_compute; lia |].
  split; [reflexivity |]. split; [reflexivity |].
  split; [vm_compute; reflexivity |].
  split; [reflexivity |]. split; [reflexivity |].
  split; reflexivity.
Qed.

(** Without a touched address and a stack value, calldata that is no longer
    than a selector gives no key an origin, whatever the ABI holds: a
    constant typed [uint256] is no candidate of such a call. *)
Lemma keyOrigin_needs_a_source codec abiFunctions data k :
  (String.length data <= 10)%nat ->
  ~ KeyOracle.keyOrigin codec Sample.noTrace [] abiFunctions (Some data) k.
Proof.
  intros Hshort [(address & [] & _) | [Harg | (values & stackValue & Hvalues & _)]].
  - destruct Harg as (data' & type & p & encoded & hex & E & Hdecoded & _).
    inversion E. subst data'.
    destruct Hdecoded as (fn & inputs & params & index & input & param & Hlong & _).
    lia.
  - discriminate Hvalues.
Qed.

Lemma extractPotentialKeys_deduplicated_witness :
  exists collected,
    KeyOracle.collectPotentialKeys SampleAbi.codec Sample.stackTrace [Sample.user] [] None
    = Ok collected
    /\ NoDup (map MappingKey.hex Sample.keys)
    /\ (forall k, In k Sample.keys -> In k collected)
    /\ (forall c, In c collected ->
                  exists k, In k Sample.keys /\ MappingKey.hex k = MappingKey.hex c)
    /\ (forall c k, In c collected -> In k Sample.keys ->
                    MappingKey.hex k = MappingKey.hex c ->
                    Js.truthyOpt (MappingKey.type c) = true ->
                    Js.truthyOpt (MappingKey.type k) = true).
Proof.
  apply (extractPotentialKeys_deduplicated
           SampleAbi.codec Sample.stackTrace [Sample.user] [] None Sample.keys).
  vm_compute. reflexivity.
Defined.

(** The address is collected twice, typed from the touched addresses and
    untyped from the stack: the typed entry is the one returned. *)
Example collectPotentialKeys_sample :
  KeyOracle.collectPotentialKeys SampleAbi.codec Sample.stackTrace [Sample.user] [] None
  = Ok [Sample.userKey; Sample.threeKey;
        MappingKey.mk (MappingKey.hex Sample.userKey) None None].
Proof. vm_compute. reflexivity. Qed.

(** An untyped entry met first is replaced by the typed one met later. *)
Example dedupeKeys_typed_replaces_untyped :
  KeyOracle.dedupeKeys
    [MappingKey.mk (MappingKey.hex Sample.userKey) None None; Sample.threeKey;
     Sample.userKey]
  = [Sample.userKey; Sample.threeKey].
Proof. vm_compute. reflexivity. Qed.

(* ================================================================== *)
(** * Exceptions *)
(* ================================================================== *)

(** Whatever the codec, an argument whose encoding is longer than 32 bytes
    makes [padHex] raise, and nothing catches it. *)
Lemma pushParam_raises codec type p encoded keys :
  Js.truthy type = true ->
  AbiCodec.encodeAbiParameters codec type p = Ok encoded ->
  (64 < String.length (Js.removeFirst "0x" encoded))%nat ->
  exists e, KeyOracle.pushParam codec type p keys = Err e.
Proof.
  intros T E L. unfold KeyOracle.pushParam. rewrite T, E. cbn [bind].
  unfold Viem.padHex.
  assert (H : (32 * 2 <? String.length (Js.removeFirst "0x" encoded))%nat = true)
    by (apply Nat.ltb_lt; lia).
  rewrite H. cbn [bind]. now eexists.
Qed.

Example decode_setName_hello :
  SampleAbi.decodeAbiParameters [AbiInput.mk "name" "string"]
                                ("0x" ++ Js.sliceFrom 10 Sample.setNameCalldata)
  = Ok [JString "hello"].
Proof. vm_compute. reflexivity. Qed.

(** C9. The key oracle does raise: on the calldata of [setName("hello")],
    with the ABI of [setName(string)] known, the 96-byte encoding of the
    string argument is handed to [padHex(..., { size: 32 })], whose
    SizeExceedsPaddingSizeError leaves [extractPotentialKeys]. *)
Theorem extractPotentialKeys_raises_on_string_argument :
  KeyOracle.extractPotentialKeys SampleAbi.codec Sample.noTrace []
                                 [Sample.setName] (Some Sample.setNameCalldata)
  = Err (SizeExceedsPaddingSizeError 96 32).
Proof. vm_compute. reflexivity. Qed.

(** The resolver raises on a candidate that is no number: [BigInt("0x")] is
    a SyntaxError. Candidates of [extractPotentialKeys] are 32-byte words, on
    which [findLayoutInfoAtSlot_returns] applies. *)
Example findLayoutInfoAtSlot_raises_on_empty_hex :
  Engine.findLayoutInfoAtSlot Sample.slot7 [Sample.numbers]
                              [MappingKey.mk "0x" None None]
  = Err SyntaxError.
Proof. vm_compute. reflexivity. Qed.

(* ================================================================== *)
(** * Slot normalization *)
(* ================================================================== *)

Lemma lowerChar_idem c : Js.lowerChar (Js.lowerChar c) = Js.lowerChar c.
Proof. ascii_cases c; reflexivity. Qed.

Lemma toLowerCase_idem s : Js.toLowerCase (Js.toLowerCase s) = Js.toLowerCase s.
Proof. induction s; cbn [Js.toLowerCase]; [reflexivity |]. now rewrite lowerChar_idem, IHs. Qed.

Lemma length_toLowerCase s : String.length (Js.toLowerCase s) = String.length s.
Proof. induction s; cbn; congruence. Qed.

Lemma digitValue_lowerChar c :
  Viem.isHexDigit c = true -> Js.digitValue (Js.lowerChar c) = Js.digitValue c.
Proof. ascii_cases c; try reflexivity; discriminate. Qed.

Lemma isLowerHexDigit_lowerChar c :
  Viem.isHexDigit c = true -> SlotEngine.isLowerHexDigit (Js.lowerChar c) = true.
Proof. ascii_cases c; try reflexivity; discriminate. Qed.

Lemma isLowerHexDigit_spec c :
  SlotEngine.isLowerHexDigit c = true ->
  exists d, Js.digitValue c = Some d /\ 0 <= d < 16 /\ Js.hexChar d = c.
Proof.
  intros H.
  exists (match Js.digitValue c with Some d => d | None => 0 end).
  revert H. ascii_cases c; try discriminate; intros _;
    (split; [reflexivity | split; [| reflexivity]]);
    vm_compute; (split; [discriminate | reflexivity]).
Qed.

Lemma isLowerHexDigit_hexChar d :
  0 <= d < 16 -> SlotEngine.isLowerHexDigit (Js.hexChar d) = true.
Proof.
  intros H.
  assert (d = 0 \/ d = 1 \/ d = 2 \/ d = 3 \/ d = 4 \/ d = 5 \/ d = 6 \/ d = 7
          \/ d = 8 \/ d = 9 \/ d = 10 \/ d = 11 \/ d = 12 \/ d = 13 \/ d = 14
          \/ d = 15) as Hd by lia.
  repeat (destruct Hd as [-> | Hd]; [reflexivity |]). subst. reflexivity.
Qed.

Lemma hexChar_not_zero d : 1 <= d < 16 -> Ascii.eqb "0" (Js.hexChar d) = false.
Proof.
  intros H.
  assert (d = 1 \/ d = 2 \/ d = 3 \/ d = 4 \/ d = 5 \/ d = 6 \/ d = 7
          \/ d = 8 \/ d = 9 \/ d = 10 \/ d = 11 \/ d = 12 \/ d = 13 \/ d = 14
          \/ d = 15) as Hd by lia.
  repeat (destruct Hd as [-> | Hd]; [reflexivity |]). subst. reflexivity.
Qed.

Lemma dropZeros_cons c s :
  SlotEngine.dropZeros (String c s)
  = if Ascii.eqb "0" c then SlotEngine.dropZeros s else String c s.
Proof. ascii_cases c; reflexivity. Qed.

Lemma dropZeros_idem s :
  SlotEngine.dropZeros (SlotEngine.dropZeros s) = SlotEngine.dropZeros s.
Proof.
  induction s as [| c s IH]; [reflexivity |]. rewrite dropZeros_cons.
  destruct (Ascii.eqb "0" c) eqn:E; [exact IH |]. now rewrite dropZeros_cons, E.
Qed.

Lemma dropZeros_lower s :
  Js.toLowerCase s = s ->
  Js.toLowerCase (SlotEngine.dropZeros s) = SlotEngine.dropZeros s.
Proof.
  induction s as [| c s IH]; [reflexivity |]. intros H. rewrite dropZeros_cons.
  cbn [Js.toLowerCase] in H. injection H as Hc Hs.
  destruct (Ascii.eqb "0" c); [now apply IH |].
  cbn [Js.toLowerCase]. now rewrite Hc, Hs.
Qed.

Lemma allLowerHex_toLowerCase d :
  Viem.allHexDigits d = true -> SlotEngine.allLowerHex (Js.toLowerCase d) = true.
Proof.
  induction d as [| c d IH]; [reflexivity |].
  cbn [Viem.allHexDigits Js.toLowerCase SlotEngine.allLowerHex]. intros H.
  apply andb_prop in H as [Hc Hd]. now rewrite isLowerHexDigit_lowerChar, IH.
Qed.

Lemma allLowerHex_dropZeros s :
  SlotEngine.allLowerHex s = true -> SlotEngine.allLowerHex (SlotEngine.dropZeros s) = true.
Proof.
  induction s as [| c s IH]; [reflexivity |]. intros H. rewrite dropZeros_cons.
  destruct (Ascii.eqb "0" c); [| exact H].
  cbn [SlotEngine.allLowerHex] in H. apply andb_prop in H as [_ H]. now apply IH.
Qed.

Lemma allLowerHex_allHexDigits s :
  SlotEngine.allLowerHex s = true -> Viem.allHexDigits s = true.
Proof.
  induction s as [| c s IH]; [reflexivity |].
  cbn [SlotEngine.allLowerHex Viem.allHexDigits]. intros H.
  apply andb_prop in H as [Hc Hs]. unfold SlotEngine.isLowerHexDigit in Hc.
  apply andb_prop in Hc as [Hc _]. now rewrite Hc, IH.
Qed.

Lemma hexVal_toLowerCase d :
  Viem.allHexDigits d = true ->
  SlotEngine.hexVal (Js.toLowerCase d) = SlotEngine.hexVal d.
Proof.
  induction d as [| c d IH]; [reflexivity |].
  cbn [Viem.allHexDigits Js.toLowerCase SlotEngine.hexVal]. intros H.
  apply andb_prop in H as [Hc Hd].
  now rewrite digitValue_lowerChar, length_toLowerCase, IH.
Qed.

Lemma hexVal_dropZeros s : SlotEngine.hexVal (SlotEngine.dropZeros s) = SlotEngine.hexVal s.
Proof.
  induction s as [| c s IH]; [reflexivity |]. rewrite dropZeros_cons.
  destruct (Ascii.eqb "0" c) eqn:E; [| reflexivity].
  apply Ascii.eqb_eq in E. subst c. rewrite IH. cbn [SlotEngine.hexVal].
  change (Js.digitValue "0") with (Some 0). lia.
Qed.

Lemma hexVal_nonneg s : 0 <= SlotEngine.hexVal s.
Proof.
  induction s as [| c s IH]; cbn [SlotEngine.hexVal]; [lia |].
  destruct (Js.digitValue c) as [d |] eqn:E; [| lia].
  pose proof (digitValue_range c d E).
  pose proof (Z.pow_nonneg 16 (Z.of_nat (String.length s))). nia.
Qed.

Lemma parseDigits_hexVal s : forall acc,
  Viem.allHexDigits s = true ->
  Js.parseDigits 16 acc s
  = Some (acc * 16 ^ Z.of_nat (String.length s) + SlotEngine.hexVal s).
Proof.
  induction s as [| c s IH]; intros acc H.
  - cbn. f_equal. lia.
  - cbn [Viem.allHexDigits] in H. apply andb_prop in H as [Hc Hs].
    unfold Viem.isHexDigit in Hc. cbn [Js.parseDigits SlotEngine.hexVal String.length].
    destruct (Js.digitValue c) as [d |] eqn:E; [| discriminate].
    pose proof (digitValue_range c d E) as [_ Hd]. apply Z.ltb_lt in Hd.
    rewrite Hd, IH by exact Hs. f_equal.
    rewrite Nat2Z.inj_succ, Z.pow_succ_r by lia. ring.
Qed.

Lemma stripLeadingZeros_0x r :
  SlotEngine.stripLeadingZeros ("0x" ++ r) = "0x" ++ SlotEngine.dropZeros r.
Proof.
  destruct r as [| c r]; [reflexivity |]. rewrite dropZeros_cons.
  ascii_cases c; reflexivity.
Qed.

Lemma hexValue_form s :
  (if Viem.isHex s then s else "0x" ++ Js.removePrefix "0x" s)
  = "0x" ++ Js.removePrefix "0x" s.
Proof.
  destruct (Viem.isHex s) eqn:E; [| reflexivity].
  apply isHex_inv in E as (d & -> & _). reflexivity.
Qed.

(** [normalizeSlot] on a non-empty string: the prefix, then the lower-case
    characters after the first run of zeros. *)
Lemma normalizeSlot_string s :
  s <> "" ->
  SlotEngine.normalizeSlot (SString s)
  = Ok (let t := SlotEngine.dropZeros (Js.toLowerCase (Js.removePrefix "0x" s)) in
        if (t =? "")%string then "0x0" else "0x" ++ t).
Proof.
  intros Hne. unfold SlotEngine.normalizeSlot. cbn [SlotEngine.falsy].
  destruct (String.eqb_spec s "") as [-> | _]; [contradiction |].
  cbn [bind]. rewrite hexValue_form.
  change (Js.toLowerCase ("0x" ++ Js.removePrefix "0x" s))
    with ("0x" ++ Js.toLowerCase (Js.removePrefix "0x" s)).
  rewrite stripLeadingZeros_0x. reflexivity.
Qed.

(** Idempotence on every string: normalizing a result returns it. *)
Lemma normalizeSlot_idempotent_string s o :
  SlotEngine.normalizeSlot (SString s) = Ok o ->
  SlotEngine.normalizeSlot (SString o) = Ok o.
Proof.
  intros H. destruct (String.eqb_spec s "") as [-> | Hne].
  - inversion H. reflexivity.
  - rewrite (normalizeSlot_string s Hne) in H. inversion H as [Ho]. clear H.
    set (t := SlotEngine.dropZeros (Js.toLowerCase (Js.removePrefix "0x" s))) in *.
    cbv zeta in *. subst o.
    assert (Hl : Js.toLowerCase t = t)
      by (apply dropZeros_lower, toLowerCase_idem).
    assert (Hz : SlotEngine.dropZeros t = t) by apply dropZeros_idem.
    clearbody t.
    destruct (String.eqb_spec t "") as [Et | Et]; [reflexivity |].
    rewrite normalizeSlot_string by discriminate. cbv zeta.
    change (Js.removePrefix "0x" (String "0" (String "x" t))) with t.
    rewrite Hl, Hz.
    destruct (String.eqb_spec t ""); [contradiction | reflexivity].
Qed.

(** Reading [|t|] digits off a number with a non-zero part above them gives
    back the digits [t]. *)
Lemma digitsFrom_peel t : forall n fuel acc,
  SlotEngine.allLowerHex t = true -> 0 < n ->
  Js.digitsFrom (String.length t + fuel) 16
                (n * 16 ^ Z.of_nat (String.length t) + SlotEngine.hexVal t) acc
  = Js.digitsFrom fuel 16 n (t ++ acc).
Proof.
  induction t as [| c t IH]; intros n fuel acc Ht Hn.
  - cbn. f_equal. lia.
  - cbn [SlotEngine.allLowerHex] in Ht. apply andb_prop in Ht as [Hc Ht].
    destruct (isLowerHexDigit_spec c Hc) as (d & Ed & Hd & Ec).
    cbn [String.length SlotEngine.hexVal append]. rewrite Ed.
    replace (n * 16 ^ Z.of_nat (S (String.length t))
             + (d * 16 ^ Z.of_nat (String.length t) + SlotEngine.hexVal t))
      with ((n * 16 + d) * 16 ^ Z.of_nat (String.length t) + SlotEngine.hexVal t)
      by (rewrite Nat2Z.inj_succ, Z.pow_succ_r by lia; ring).
    replace (S (String.length t) + fuel)%nat with (String.length t + S fuel)%nat by lia.
    rewrite IH by (auto; lia). cbn [Js.digitsFrom].
    replace ((n * 16 + d) mod 16) with d
      by (rewrite Z.add_comm, Z.mod_add by lia; now rewrite Z.mod_small).
    replace ((n * 16 + d) / 16) with n
      by (rewrite Z.add_comm, Z.div_add by lia; rewrite Z.div_small by lia; lia).
    rewrite Ec. destruct (Z.eqb_spec n 0); [lia | reflexivity].
Qed.

Lemma hexVal_bound t :
  Viem.allHexDigits t = true -> SlotEngine.hexVal t < 16 ^ Z.of_nat (String.length t).
Proof.
  induction t as [| c t IH]; intros H; [cbn; lia |].
  cbn [Viem.allHexDigits] in H. apply andb_prop in H as [Hc Ht].
  unfold Viem.isHexDigit in Hc. cbn [SlotEngine.hexVal String.length].
  destruct (Js.digitValue c) as [d |] eqn:E; [| discriminate].
  pose proof (digitValue_range c d E). specialize (IH Ht).
  rewrite Nat2Z.inj_succ, Z.pow_succ_r by lia. nia.
Qed.

(** A string of lower-case hex digits that does not start with a zero is the
    [toString(16)] of the number it spells. *)
Lemma toStringRadix_hexVal c t :
  SlotEngine.allLowerHex (String c t) = true -> Ascii.eqb "0" c = false ->
  Js.toStringRadix 16 (SlotEngine.hexVal (String c t)) = String c t.
Proof.
  intros H Hc0. cbn [SlotEngine.allLowerHex] in H. apply andb_prop in H as [Hc Ht].
  destruct (isLowerHexDigit_spec c Hc) as (d & Ed & Hd & Ec).
  assert (Hd1 : 1 <= d).
  { destruct (Z.eq_dec d 0) as [-> | ]; [| lia].
    change (Js.hexChar 0) with "0"%char in Ec. subst c. discriminate. }
  cbn [SlotEngine.hexVal]. rewrite Ed.
  set (len := String.length t).
  set (v := d * 16 ^ Z.of_nat len + SlotEngine.hexVal t).
  pose proof (hexVal_nonneg t) as Hpos.
  pose proof (Z.pow_pos_nonneg 16 (Z.of_nat len) ltac:(lia) ltac:(lia)) as Hpow.
  assert (Hv : 2 ^ Z.of_nat len <= v).
  { assert (2 ^ Z.of_nat len <= 16 ^ Z.of_nat len)
      by (apply Z.pow_le_mono_l; lia).
    unfold v. nia. }
  assert (Hlog : Z.of_nat len <= Z.log2 v).
  { rewrite <- (Z.log2_pow2 (Z.of_nat len)) by lia. now apply Z.log2_le_mono. }
  unfold Js.toStringRadix.
  replace (S (Z.to_nat (Z.log2 v)))
    with (len + S (Z.to_nat (Z.log2 v) - len))%nat by lia.
  unfold v, len. rewrite digitsFrom_peel by (auto; lia).
  cbn [Js.digitsFrom]. rewrite Z.mod_small, Z.div_small by lia.
  cbn [Z.eqb]. now rewrite Ec, append_nil_r.
Qed.

Lemma digitsFrom_head fuel : forall n acc,
  0 < n < 2 ^ Z.of_nat fuel ->
  exists c rest, Js.digitsFrom fuel 16 n acc = String c rest /\ Ascii.eqb "0" c = false.
Proof.
  induction fuel as [| fuel IH]; intros n acc Hn.
  - change (2 ^ Z.of_nat 0) with 1 in Hn. lia.
  - cbn [Js.digitsFrom]. destruct (Z.eqb_spec (n / 16) 0) as [E | E].
    + exists (Js.hexChar (n mod 16)), acc. split; [reflexivity |].
      apply hexChar_not_zero.
      pose proof (Z.div_mod n 16 ltac:(lia)). pose proof (Z.mod_pos_bound n 16 ltac:(lia)).
      lia.
    + apply IH. split.
      * pose proof (Z.div_pos n 16 ltac:(lia) ltac:(lia)). lia.
      * apply Z.div_lt_upper_bound; [lia |].
        rewrite Nat2Z.inj_succ, Z.pow_succ_r in Hn by lia. lia.
Qed.

Lemma toStringRadix_head n :
  0 < n ->
  exists c rest, Js.toStringRadix 16 n = String c rest /\ Ascii.eqb "0" c = false.
Proof.
  intros Hn. unfold Js.toStringRadix. apply digitsFrom_head.
  pose proof (toStringRadix_fuel n ltac:(lia)). lia.
Qed.

Lemma allLowerHex_toStringRadix n : SlotEngine.allLowerHex (Js.toStringRadix 16 n) = true.
Proof.
  unfold Js.toStringRadix. apply digitsFrom_ind; [| reflexivity].
  intros d s Hd Hs. cbn [SlotEngine.allLowerHex]. now rewrite isLowerHexDigit_hexChar, Hs.
Qed.

Lemma isCanonical_canonicalSlot v : 0 <= v -> SlotEngine.isCanonical (SlotEngine.canonicalSlot v) = true.
Proof.
  intros Hv. destruct (Z.eq_dec v 0) as [-> | Hne]; [reflexivity |].
  unfold SlotEngine.canonicalSlot. cbn [append SlotEngine.isCanonical].
  destruct (toStringRadix_head v ltac:(lia)) as (c & rest & E & Hc).
  pose proof (allLowerHex_toStringRadix v) as Hl. rewrite E in *.
  rewrite Hl. cbn [String.eqb negb andb Js.startsWith]. rewrite Hc.
  cbn [andb negb]. now rewrite orb_true_r.
Qed.

(** The value of a slot argument, when it has one, decides its normal form. *)
Lemma normalizeSlot_slotValue slot v :
  SlotEngine.slotValue slot = Some v ->
  0 <= v /\ SlotEngine.normalizeSlot slot = Ok (SlotEngine.canonicalSlot v).
Proof.
  destruct slot as [s | n | n]; cbn [SlotEngine.slotValue].
  - destruct (Viem.allHexDigits (Js.removePrefix "0x" s)) eqn:Hd; [| discriminate].
    rewrite parseDigits_hexVal by exact Hd. intros H.
    rewrite Z.mul_0_l, Z.add_0_l in H. inversion H as [Hv]. clear H.
    split; [apply hexVal_nonneg |].
    destruct (String.eqb_spec s "") as [-> | Hne]; [reflexivity |].
    rewrite normalizeSlot_string by exact Hne. cbv zeta.
    rewrite <- (hexVal_toLowerCase _ Hd), <- hexVal_dropZeros.
    pose proof (allLowerHex_dropZeros _ (allLowerHex_toLowerCase _ Hd)) as Hl.
    pose proof (dropZeros_idem (Js.toLowerCase (Js.removePrefix "0x" s))) as Hz.
    destruct (SlotEngine.dropZeros (Js.toLowerCase (Js.removePrefix "0x" s)))
      as [| c t]; [reflexivity |].
    rewrite dropZeros_cons in Hz.
    destruct (Ascii.eqb "0" c) eqn:Hc.
    + exfalso. apply (f_equal String.length) in Hz.
      assert (Hle : forall x, (String.length (SlotEngine.dropZeros x) <= String.length x)%nat).
      { induction x as [| a x IHx]; [cbn; lia |]. rewrite dropZeros_cons.
        destruct (Ascii.eqb "0" a); cbn [String.length]; lia. }
      specialize (Hle t). cbn [String.length] in Hz. lia.
    + cbn [String.eqb]. unfold SlotEngine.canonicalSlot.
      now rewrite (toStringRadix_hexVal c t Hl Hc).
  - destruct ((0 <=? n) && (n <=? Viem.MAX_SAFE_INTEGER)) eqn:Hr; [| discriminate].
    intros H. inversion H. subst v. apply andb_prop in Hr as [H0 H1].
    apply Z.leb_le in H0, H1. split; [exact H0 |].
    unfold SlotEngine.normalizeSlot. cbn [SlotEngine.falsy].
    destruct (Z.eqb_spec n 0) as [-> | Hne]; [reflexivity |].
    unfold Viem.numberToHex.
    assert (E1 : (Viem.MAX_SAFE_INTEGER <? n) = false) by (apply Z.ltb_ge; lia).
    assert (E2 : (n <? 0) = false) by (apply Z.ltb_ge; lia).
    rewrite E1, E2, andb_false_r. cbn [orb bind].
    change (Js.toLowerCase ("0x" ++ Js.toStringRadix 16 n))
      with ("0x" ++ Js.toLowerCase (Js.toStringRadix 16 n)).
    rewrite toLowerCase_toStringRadix, stripLeadingZeros_0x.
    destruct (toStringRadix_head n ltac:(lia)) as (c & rest & E & Hc).
    unfold SlotEngine.canonicalSlot. rewrite E, dropZeros_cons, Hc. reflexivity.
  - destruct (0 <=? n) eqn:Hr; [| discriminate].
    intros H. inversion H. subst v. apply Z.leb_le in Hr. split; [exact Hr |].
    unfold SlotEngine.normalizeSlot. cbn [SlotEngine.falsy].
    destruct (Z.eqb_spec n 0) as [-> | Hne]; [reflexivity |].
    unfold Viem.numberToHex.
    assert (E2 : (n <? 0) = false) by (apply Z.ltb_ge; lia).
    rewrite E2. cbn [orb bind].
    change (Js.toLowerCase ("0x" ++ Js.toStringRadix 16 n))
      with ("0x" ++ Js.toLowerCase (Js.toStringRadix 16 n)).
    rewrite toLowerCase_toStringRadix, stripLeadingZeros_0x.
    destruct (toStringRadix_head n ltac:(lia)) as (c & rest & E & Hc).
    unfold SlotEngine.canonicalSlot. rewrite E, dropZeros_cons, Hc. reflexivity.
Qed.

Lemma slotValue_canonicalSlot v :
  0 <= v -> SlotEngine.slotValue (SString (SlotEngine.canonicalSlot v)) = Some v.
Proof.
  intros Hv. unfold SlotEngine.slotValue, SlotEngine.canonicalSlot.
  change (Js.removePrefix "0x" ("0x" ++ Js.toStringRadix 16 v))
    with (Js.toStringRadix 16 v).
  now rewrite allHexDigits_toStringRadix, parseDigits_toStringRadix.
Qed.

(** A number or bigint that [normalizeSlot] accepts denotes a slot. *)
Lemma normalizeSlot_number_value (isNumber : bool) n o :
  SlotEngine.normalizeSlot (if isNumber then SNumber n else SBigInt n) = Ok o ->
  SlotEngine.slotValue (if isNumber then SNumber n else SBigInt n) = Some n.
Proof.
  destruct (Z.eq_dec n 0) as [-> | Hne]; [now destruct isNumber |].
  destruct isNumber; unfold SlotEngine.normalizeSlot, SlotEngine.slotValue;
    cbn [SlotEngine.falsy]; (destruct (Z.eqb_spec n 0); [contradiction |]);
    unfold Viem.numberToHex.
  - destruct (Z.ltb_spec Viem.MAX_SAFE_INTEGER n) as [Hmax | Hmax];
      [intros H; discriminate H |].
    destruct (Z.ltb_spec n 0) as [Hneg | Hneg];
      [rewrite andb_false_r; intros H; discriminate H |].
    intros _. destruct (Z.leb_spec 0 n); [| lia].
    destruct (Z.leb_spec n Viem.MAX_SAFE_INTEGER); [reflexivity | lia].
  - cbn [orb]. destruct (Z.ltb_spec n 0) as [Hneg | Hneg]; [intros H; discriminate H |].
    intros _. destruct (Z.leb_spec 0 n); [reflexivity | lia].
Qed.

(** Idempotence on every argument. *)
Lemma normalizeSlot_idempotent slot o :
  SlotEngine.normalizeSlot slot = Ok o ->
  SlotEngine.normalizeSlot (SString o) = Ok o.
Proof.
  intros H.
  assert (Hvalue : forall n, SlotEngine.slotValue slot = Some n ->
                             SlotEngine.normalizeSlot (SString o) = Ok o).
  { intros n Hn. destruct (normalizeSlot_slotValue slot n Hn) as [Hpos Hc].
    rewrite Hc in H. inversion H. subst o.
    apply normalizeSlot_slotValue. now apply slotValue_canonicalSlot. }
  destruct slot as [s | n | n].
  - now apply (normalizeSlot_idempotent_string s).
  - apply (Hvalue n). now apply (normalizeSlot_number_value true n o).
  - apply (Hvalue n). now apply (normalizeSlot_number_value false n o).
Qed.

(** C10. [normalizeSlot] is idempotent and canonicalizing. Normalizing a
    result returns it unchanged, on every argument. An argument that denotes
    the slot value [v] normalizes to the canonical spelling of [v]: lower-case
    hex, no leading zero after [0x], [0x0] for zero; that spelling denotes [v]
    again, so two arguments that denote the same value normalize to equal
    strings. *)
Theorem normalizeSlot_canonical (slot : Scalar) :
  (forall o, SlotEngine.normalizeSlot slot = Ok o ->
             SlotEngine.normalizeSlot (SString o) = Ok o)
  /\ (forall v, SlotEngine.slotValue slot = Some v ->
                SlotEngine.normalizeSlot slot = Ok (SlotEngine.canonicalSlot v)
                /\ SlotEngine.isCanonical (SlotEngine.canonicalSlot v) = true
                /\ SlotEngine.slotValue (SString (SlotEngine.canonicalSlot v)) = Some v
                /\ forall other, SlotEngine.slotValue other = Some v ->
                                 SlotEngine.normalizeSlot other
                                 = SlotEngine.normalizeSlot slot).
Proof.
  split; [intros o; apply normalizeSlot_idempotent |].
  intros v Hvalue.
  destruct (normalizeSlot_slotValue slot v Hvalue) as [Hv Hn].
  repeat split.
  - exact Hn.
  - now apply isCanonical_canonicalSlot.
  - now apply slotValue_canonicalSlot.
  - intros other Hother. rewrite Hn. now apply normalizeSlot_slotValue.
Qed.

Lemma normalizeSlot_canonical_witness :
  SlotEngine.normalizeSlot (SString "0xab") = Ok "0xab"
  /\ SlotEngine.normalizeSlot (SString "0x00AB") = Ok (SlotEngine.canonicalSlot 171)
  /\ SlotEngine.isCanonical (SlotEngine.canonicalSlot 171) = true
  /\ SlotEngine.slotValue (SString (SlotEngine.canonicalSlot 171)) = Some 171
  /\ SlotEngine.normalizeSlot (SNumber 171) = SlotEngine.normalizeSlot (SString "0x00AB").
Proof.
  destruct (normalizeSlot_canonical (SString "0x00AB")) as [Hidem Hcanon].
  split; [apply Hidem; reflexivity |].
  destruct (Hcanon 171 eq_refl) as (H1 & H2 & H3 & H4).
  split; [exact H1 |]. split; [exact H2 |]. split; [exact H3 |].
  apply H4. reflexivity.
Defined.

Example normalizeSlot_examples :
  map SlotEngine.normalizeSlot
      [SString "0x00AB"; SString "ab"; SNumber 171; SBigInt 171;
       SString ""; SString "0x"; SString "0x0000"; SNumber 0]
  = [Ok "0xab"; Ok "0xab"; Ok "0xab"; Ok "0xab";
     Ok "0x0"; Ok "0x0"; Ok "0x0"; Ok "0x0"].
Proof. vm_compute. reflexivity. Qed.

(* ================================================================== *)
(** * The resolver: what its results stand for *)
(* ================================================================== *)

Lemma arrayStep_spec slot array key results results' :
  Engine.arrayStep slot array key results = Ok results' ->
  results' = (results ++ Engine.arrayHit slot array key)%list.
Proof.
  unfold Engine.arrayStep, Engine.isValidArrayIndex, Engine.arrayHit.
  destruct (Viem.hexToBigInt (MappingKey.hex key)) as [index |];
    cbn [bind]; [| discriminate].
  destruct ((0 <=? index) && (index <? Engine.LIMIT)); cbn [negb].
  - destruct (Engine.computeArraySlot (StorageSlotInfo.slot array) index) as [s |];
      cbn [bind]; [| discriminate].
    destruct (s =? slot)%string; intros [= <-]; [reflexivity |].
    now rewrite app_nil_r.
  - intros [= <-]. now rewrite app_nil_r.
Qed.

Lemma forEachM_arrayStep slot array keys : forall results results',
  forEachM keys (Engine.arrayStep slot array) results = Ok results' ->
  results' = (results ++ Engine.arrayHits slot array keys)%list.
Proof.
  unfold Engine.arrayHits.
  induction keys as [| k keys IH]; intros results results'; cbn [forEachM flat_map].
  - intros [= <-]. now rewrite app_nil_r.
  - destruct (Engine.arrayStep slot array k results) as [r1 |] eqn:E;
      cbn [bind]; [| discriminate].
    intros H. apply IH in H. apply arrayStep_spec in E. subst.
    now rewrite <- app_assoc.
Qed.

Lemma arrayPass_spec slot arrays keys : forall results results',
  Engine.arrayPass slot arrays keys results = Ok results' ->
  results'
  = (results ++ flat_map (fun a => Engine.arrayHits slot a keys) arrays)%list.
Proof.
  unfold Engine.arrayPass.
  induction arrays as [| a arrays IH]; intros results results'; cbn [forEachM flat_map].
  - intros [= <-]. now rewrite app_nil_r.
  - destruct (forEachM keys (Engine.arrayStep slot a) results) as [r1 |] eqn:E;
      cbn [bind]; [| discriminate].
    intros H. apply IH in H. apply forEachM_arrayStep in E. subst.
    now rewrite <- app_assoc.
Qed.

(** The three ways [findLayoutInfoAtSlot] returns: the fallback alone, the
    direct entries of the slot by offset, or the hits of passes 2 and 4. *)
Lemma findLayoutInfoAtSlot_cases slot storageLayout potentialKeys results :
  Engine.findLayoutInfoAtSlot slot storageLayout potentialKeys = Ok results ->
  (storageLayout = [] /\ results = [Engine.fallback slot])
  \/ (Engine.directAt slot storageLayout <> [] /\
      results = map (Engine.directResult slot)
                    (Engine.sortByOffset (Engine.directAt slot storageLayout)))
  \/ (storageLayout <> [] /\ Engine.directAt slot storageLayout = [] /\
      match Engine.computedHits slot storageLayout potentialKeys with
      | [] => results = [Engine.fallback slot]
      | hits => results = hits
      end).
Proof.
  unfold Engine.findLayoutInfoAtSlot.
  destruct storageLayout as [| item0 layout0] eqn:El; cbn [List.length Nat.eqb].
  - intros [= <-]. now left.
  - rewrite <- El. rewrite directPass_spec.
    destruct (Engine.directAt slot storageLayout) as [| d ds] eqn:Ed.
    + rewrite nestedMappings_empty. unfold Engine.nestedPass. cbn [forEach].
      rewrite mappingPass_spec. cbn [app].
      destruct (Engine.arrayPass _ _ _ _) as [r |] eqn:Ea; cbn [bind]; [| discriminate].
      apply arrayPass_spec in Ea.
      intros H. right; right. split; [subst; discriminate |]. split; [reflexivity |].
      unfold Engine.computedHits. rewrite <- Ea.
      destruct r; cbn [List.length Nat.eqb] in H; now inversion H.
    + intros [= <-]. right; left. split; [discriminate | reflexivity].
Qed.

Lemma In_mappingHits slot m keys r :
  In r (Engine.mappingHits slot m keys) ->
  exists k, In k keys /\ Engine.computeMappingSlot (StorageSlotInfo.slot m) k = slot
            /\ r = Engine.mappingResult slot m k.
Proof.
  unfold Engine.mappingHits. rewrite in_flat_map. intros (k & Hk & Hin).
  destruct (Engine.computeMappingSlot (StorageSlotInfo.slot m) k =? slot)%string eqn:E;
    [| contradiction Hin].
  destruct Hin as [<- | []]. apply String.eqb_eq in E. now exists k.
Qed.

Lemma In_arrayHit slot a k r :
  In r (Engine.arrayHit slot a k) <->
  exists index,
    Viem.hexToBigInt (MappingKey.hex k) = Ok index /\ 0 <= index < Engine.LIMIT /\
    Engine.computeArraySlot (StorageSlotInfo.slot a) index = Ok slot /\
    r = Engine.arrayResult slot a k.
Proof.
  unfold Engine.arrayHit. split.
  - destruct (Viem.hexToBigInt (MappingKey.hex k)) as [index |]; [| contradiction].
    destruct ((0 <=? index) && (index <? Engine.LIMIT)) eqn:Hv; [| contradiction].
    destruct (Engine.computeArraySlot (StorageSlotInfo.slot a) index) as [s |] eqn:Hs;
      [| contradiction].
    destruct (s =? slot)%string eqn:E; [| contradiction].
    intros [<- | []]. apply String.eqb_eq in E. subst s.
    apply andb_prop in Hv. destruct Hv as [H0 H1].
    apply Z.leb_le in H0. apply Z.ltb_lt in H1.
    exists index. split; [reflexivity |]. split; [split; assumption |].
    split; [exact Hs | reflexivity].
  - intros (index & -> & [H0 H1] & -> & ->).
    apply Z.leb_le in H0. apply Z.ltb_lt in H1. rewrite H0, H1. cbn [andb].
    rewrite String.eqb_refl. now left.
Qed.

Lemma In_computedHits slot layout keys r :
  In r (Engine.computedHits slot layout keys) <->
  (exists m k, In m layout /\ Engine.isSimpleMapping m = true /\ In k keys /\
               Engine.computeMappingSlot (StorageSlotInfo.slot m) k = slot /\
               r = Engine.mappingResult slot m k)
  \/ (exists a k index,
        In a layout /\ Engine.isDynamicArray a = true /\ In k keys /\
        Viem.hexToBigInt (MappingKey.hex k) = Ok index /\ 0 <= index < Engine.LIMIT /\
        Engine.computeArraySlot (StorageSlotInfo.slot a) index = Ok slot /\
        r = Engine.arrayResult slot a k).
Proof.
  unfold Engine.computedHits. rewrite in_app_iff, !in_flat_map. split.
  - intros [(m & Hm & Hin) | (a & Ha & Hin)].
    + apply filter_In in Hm. destruct Hm as [Hm Hs].
      apply In_mappingHits in Hin. destruct Hin as (k & Hk & Hslot & ->).
      left. now exists m, k.
    + apply filter_In in Ha. destruct Ha as [Ha Hd].
      unfold Engine.arrayHits in Hin. apply in_flat_map in Hin.
      destruct Hin as (k & Hk & Hin). apply In_arrayHit in Hin.
      destruct Hin as (index & Hi & Hr & Hs & ->).
      right. now exists a, k, index.
  - intros [(m & k & Hm & Hs & Hk & Hslot & ->) | (a & k & index & Ha & Hd & Hk & Hi & Hr & Hs & ->)].
    + left. exists m. split; [now apply filter_In |].
      unfold Engine.mappingHits. apply in_flat_map. exists k. split; [exact Hk |].
      apply String.eqb_eq in Hslot. rewrite Hslot. now left.
    + right. exists a. split; [now apply filter_In |].
      unfold Engine.arrayHits. apply in_flat_map. exists k. split; [exact Hk |].
      apply In_arrayHit. now exists index.
Qed.

(** X1. Every result of [findLayoutInfoAtSlot] is backed by the layout: an
    exact result is the fallback or a direct entry sitting at the slot; a
    mapping result carries a candidate key whose mapping slot under an entry
    of the layout is the observed slot; an array result carries a candidate
    that is an index below 10^6 whose element slot is the observed slot; no
    result is a nested-mapping match. *)
Theorem every_result_is_justified
        (slot : string) (storageLayout : list StorageSlotInfo.t)
        (potentialKeys : list MappingKey.t)
        (results : list SlotLabelResult.t) (r : SlotLabelResult.t)
        (Hreturns : Engine.findLayoutInfoAtSlot slot storageLayout potentialKeys
                    = Ok results)
        (Hr : In r results) :
  match SlotLabelResult.matchType r with
  | Exact =>
      r = Engine.fallback slot
      \/ exists item, In item storageLayout /\ Engine.isDirect item = true /\
                      StorageSlotInfo.slot item = slot /\
                      r = Engine.directResult slot item
  | Mapping =>
      exists m k, In m storageLayout /\ Engine.isSimpleMapping m = true /\
                  In k potentialKeys /\
                  Engine.computeMappingSlot (StorageSlotInfo.slot m) k = slot /\
                  r = Engine.mappingResult slot m k
  | NestedMapping => False
  | Array =>
      exists a k index,
        In a storageLayout /\ Engine.isDynamicArray a = true /\ In k potentialKeys /\
        Viem.hexToBigInt (MappingKey.hex k) = Ok index /\ 0 <= index < Engine.LIMIT /\
        Engine.computeArraySlot (StorageSlotInfo.slot a) index = Ok slot /\
        r = Engine.arrayResult slot a k
  end.
Proof.
  apply findLayoutInfoAtSlot_cases in Hreturns.
  destruct Hreturns as [[_ ->] | [[_ ->] | (_ & _ & Hhits)]].
  - destruct Hr as [<- | []]. now left.
  - apply in_map_iff in Hr. destruct Hr as (item & <- & Hin). cbn.
    apply (Permutation_in _ (sortByOffset_perm _)) in Hin.
    apply filter_In in Hin. destruct Hin as [Hin Hd].
    apply andb_prop in Hd. destruct Hd as [Hd Hs]. apply String.eqb_eq in Hs.
    right. now exists item.
  - destruct (Engine.computedHits slot storageLayout potentialKeys) as [| h hits] eqn:E.
    + subst results. destruct Hr as [<- | []]. now left.
    + subst results. rewrite <- E in Hr. apply In_computedHits in Hr.
      destruct Hr as [(m & k & Hm & Hs & Hk & Hslot & ->)
                     | (a & k & index & Ha & Hd & Hk & Hi & Hrange & Hs & ->)]; cbn.
      * now exists m, k.
      * now exists a, k, index.
Qed.

(** X2. With a layout that is not empty and no direct entry at the slot, the
    results are the mapping matches, mapping by mapping in layout order and
    key by key in candidate order, followed by the array matches in the same
    order; the fallback stands alone when there is none. *)
Theorem computed_matches_in_pass_order
        (slot : string) (storageLayout : list StorageSlotInfo.t)
        (potentialKeys : list MappingKey.t) (results : list SlotLabelResult.t)
        (Hlayout : storageLayout <> [])
        (Hdirect : Engine.directAt slot storageLayout = [])
        (Hreturns : Engine.findLayoutInfoAtSlot slot storageLayout potentialKeys
                    = Ok results) :
  let mappingMatches :=
    flat_map (fun m => Engine.mappingHits slot m potentialKeys)
             (filter Engine.isSimpleMapping storageLayout) in
  let arrayMatches :=
    flat_map (fun a => Engine.arrayHits slot a potentialKeys)
             (filter Engine.isDynamicArray storageLayout) in
  results = match (mappingMatches ++ arrayMatches)%list with
            | [] => [Engine.fallback slot]
            | hits => hits
            end.
Proof.
  cbv zeta. apply findLayoutInfoAtSlot_cases in Hreturns.
  destruct Hreturns as [[H _] | [[H _] | (_ & _ & Hhits)]]; [contradiction.. |].
  unfold Engine.computedHits in Hhits.
  destruct (_ ++ _)%list; exact Hhits.
Qed.

(** X3. [findLayoutInfoAtSlot] never returns an empty list, and every result
    carries the observed slot, spelled as it was given. *)
Theorem results_never_empty
        (slot : string) (storageLayout : list StorageSlotInfo.t)
        (potentialKeys : list MappingKey.t) (results : list SlotLabelResult.t)
        (Hreturns : Engine.findLayoutInfoAtSlot slot storageLayout potentialKeys
                    = Ok results) :
  results <> []
  /\ forall r, In r results -> SlotLabelResult.slot r = slot.
Proof.
  apply findLayoutInfoAtSlot_cases in Hreturns.
  destruct Hreturns as [[_ ->] | [[Hd ->] | (_ & _ & Hhits)]].
  - split; [discriminate |]. intros r [<- | []]. reflexivity.
  - split.
    + intros H. apply map_eq_nil in H. apply Hd.
      apply Permutation_nil. rewrite <- H. apply sortByOffset_perm.
    + intros r Hr. apply in_map_iff in Hr. destruct Hr as (item & <- & _). reflexivity.
  - destruct (Engine.computedHits slot storageLayout potentialKeys) as [| h hits] eqn:E;
      subst results.
    + split; [discriminate |]. intros r [<- | []]. reflexivity.
    + split; [discriminate |]. intros r Hr. rewrite <- E in Hr.
      apply In_computedHits in Hr.
      destruct Hr as [(m & k & _ & _ & _ & _ & ->)
                     | (a & k & index & _ & _ & _ & _ & _ & _ & ->)]; reflexivity.
Qed.

(** X4. A layout made of mappings of mappings only, none of them sitting at
    the slot as a direct entry, labels every slot with the fallback, whatever
    the candidate keys are: the pass over nested mappings never runs. *)
Theorem nested_mappings_fall_back
        (slot : string) (storageLayout : list StorageSlotInfo.t)
        (potentialKeys : list MappingKey.t)
        (Hnested : forall item, In item storageLayout ->
                                StorageSlotInfo.encoding item = "mapping"
                                /\ Engine.valueTypeIsMapping item = true)
        (Hdirect : Engine.directAt slot storageLayout = []) :
  Engine.findLayoutInfoAtSlot slot storageLayout potentialKeys
  = Ok [Engine.fallback slot].
Proof.
  unfold Engine.findLayoutInfoAtSlot.
  destruct (List.length storageLayout =? 0)%nat; [reflexivity |].
  rewrite directPass_spec, Hdirect, nestedMappings_empty.
  rewrite (filter_nil Engine.isSimpleMapping).
  - rewrite (filter_nil Engine.isDynamicArray); [reflexivity |].
    intros item Hin. destruct (Hnested item Hin) as [He _].
    unfold Engine.isDynamicArray. now rewrite He.
  - intros item Hin. destruct (Hnested item Hin) as [_ Hv].
    unfold Engine.isSimpleMapping. rewrite Hv. apply andb_false_r.
Qed.

(** X5. No candidate is left out of the array pass: when no direct entry
    sits at the slot, a candidate that reads as an index below 10^6 and whose
    element slot in a dynamic array of the layout is the observed slot is
    reported as that array's index. *)
Theorem array_candidates_reported
        (slot : string) (storageLayout : list StorageSlotInfo.t)
        (potentialKeys : list MappingKey.t)
        (array : StorageSlotInfo.t) (key : MappingKey.t) (index : Z)
        (results : list SlotLabelResult.t)
        (Hdirect : Engine.directAt slot storageLayout = [])
        (Harray : In array storageLayout)
        (Hdynamic : Engine.isDynamicArray array = true)
        (Hkey : In key potentialKeys)
        (Hindex : Viem.hexToBigInt (MappingKey.hex key) = Ok index)
        (Hrange : 0 <= index < Engine.LIMIT)
        (Hslot : Engine.computeArraySlot (StorageSlotInfo.slot array) index = Ok slot)
        (Hreturns : Engine.findLayoutInfoAtSlot slot storageLayout potentialKeys
                    = Ok results) :
  In (Engine.arrayResult slot array key) results.
Proof.
  apply findLayoutInfoAtSlot_cases in Hreturns.
  destruct Hreturns as [[-> _] | [[H _] | (_ & _ & Hhits)]];
    [contradiction Harray | contradiction |].
  assert (Hin : In (Engine.arrayResult slot array key)
                   (Engine.computedHits slot storageLayout potentialKeys)).
  { apply In_computedHits. right. now exists array, key, index. }
  destruct (Engine.computedHits slot storageLayout potentialKeys);
    [contradiction Hin |]. now subst results.
Qed.

Lemma toLowerCase_hexDigitsOfBytes bs :
  Js.toLowerCase (Viem.hexDigitsOfBytes bs) = Viem.hexDigitsOfBytes bs.
Proof.
  induction bs as [| b bs IH]; [reflexivity |].
  cbn [Viem.hexDigitsOfBytes]. rewrite toLowerCase_app, IH. f_equal.
  unfold Viem.byteHex. pose proof (Z_of_byte_range b) as Hb.
  cbn [Js.toLowerCase].
  rewrite !lowerChar_hexChar; [reflexivity | |].
  - apply Z.mod_pos_bound. lia.
  - split; [apply Z.div_pos; lia | apply Z.div_lt_upper_bound; lia].
Qed.

Lemma toLowerCase_keccak256 value :
  Js.toLowerCase (Viem.keccak256 value) = Viem.keccak256 value.
Proof.
  unfold Viem.keccak256, Viem.bytesToHex.
  rewrite toLowerCase_app, toLowerCase_hexDigitsOfBytes. reflexivity.
Qed.

(** What [computeArraySlot] returns: the 32-byte lower-case spelling of the
    hash of the base slot plus the index, the sum being below 2^256. *)
Lemma computeArraySlot_inv baseSlot index s :
  Engine.computeArraySlot baseSlot index = Ok s ->
  let sum := Viem.toU256 (Keccak.keccak_256 (Viem.toBytes baseSlot)) + index in
  0 <= sum < 2 ^ 256 /\ Viem.isHex256 s = true /\ Viem.hexToBigInt s = Ok sum
  /\ Js.toLowerCase s = s.
Proof.
  unfold Engine.computeArraySlot. rewrite hexToBigInt_keccak256. cbn [bind].
  intros H. cbv zeta.
  set (sum := Viem.toU256 (Keccak.keccak_256 (Viem.toBytes baseSlot)) + index) in *.
  destruct (numberToHex_32 sum) as [Hin Hout].
  assert (Hdec : 0 <= sum < 2 ^ 256 \/ ~ (0 <= sum < 2 ^ 256)) by lia.
  destruct Hdec as [Hr | Hr].
  - destruct (Hin Hr) as (s' & Hs' & H1 & H2 & H3).
    rewrite Hs' in H. inversion H. subst s'. auto.
  - rewrite (Hout Hr) in H. discriminate.
Qed.

(** X6. The resolver compares spellings, and every slot it computes is
    spelled in lower case: an observed slot with a capital letter in it,
    not the slot of a direct entry, gets the fallback alone. *)
Theorem capital_slot_matches_nothing
        (slot : string) (storageLayout : list StorageSlotInfo.t)
        (potentialKeys : list MappingKey.t) (results : list SlotLabelResult.t)
        (Hcapital : Js.toLowerCase slot <> slot)
        (Hdirect : Engine.directAt slot storageLayout = [])
        (Hreturns : Engine.findLayoutInfoAtSlot slot storageLayout potentialKeys
                    = Ok results) :
  results = [Engine.fallback slot].
Proof.
  apply findLayoutInfoAtSlot_cases in Hreturns.
  destruct Hreturns as [[_ ->] | [[H _] | (_ & _ & Hhits)]];
    [reflexivity | contradiction |].
  destruct (Engine.computedHits slot storageLayout potentialKeys) as [| h hits] eqn:E;
    [exact Hhits |].
  exfalso. assert (Hin : In h (Engine.computedHits slot storageLayout potentialKeys))
    by (rewrite E; now left).
  apply In_computedHits in Hin.
  destruct Hin as [(m & k & _ & _ & _ & Hslot & _)
                  | (a & k & index & _ & _ & _ & _ & _ & Hslot & _)].
  - apply Hcapital. rewrite <- Hslot. apply toLowerCase_keccak256.
  - apply computeArraySlot_inv in Hslot. apply Hcapital, Hslot.
Qed.

(* ================================================================== *)
(** * The slot computations: shape and independence of the spelling *)
(* ================================================================== *)

Lemma forEach_computeMappingSlot_isHex256 keys : forall slot,
  Viem.isHex256 slot = true ->
  Viem.isHex256 (forEach keys (fun key slot => Engine.computeMappingSlot slot key) slot)
  = true.
Proof.
  induction keys as [| k keys IH]; intros slot H; cbn [forEach]; [exact H |].
  apply IH, computeMappingSlot_isHex256.
Qed.

(** X7. Whatever strings stand for the base slot and the key, a mapping slot
    is a 32-byte word, [0x] and 64 lower-case hex digits, and so is a nested
    mapping slot over at least one key. *)
Theorem mapping_slot_is_a_word (baseSlot : string) (key : MappingKey.t)
        (rest : list MappingKey.t) :
  Viem.isHex256 (Engine.computeMappingSlot baseSlot key) = true
  /\ Js.toLowerCase (Engine.computeMappingSlot baseSlot key)
     = Engine.computeMappingSlot baseSlot key
  /\ Viem.isHex256 (Engine.computeNestedMappingSlot baseSlot (key :: rest)) = true.
Proof.
  split; [apply computeMappingSlot_isHex256 |].
  split; [apply toLowerCase_keccak256 |].
  unfold Engine.computeNestedMappingSlot. cbn [List.length Nat.eqb forEach].
  apply forEach_computeMappingSlot_isHex256, computeMappingSlot_isHex256.
Qed.

Lemma allHexDigits_toLowerCase d :
  Viem.allHexDigits d = true -> Viem.allHexDigits (Js.toLowerCase d) = true.
Proof.
  induction d as [| c d IH]; [reflexivity |]. cbn [Viem.allHexDigits Js.toLowerCase].
  intros H. apply andb_prop in H as [Hc Hd]. rewrite (IH Hd), andb_true_r.
  unfold Viem.isHexDigit in *. now rewrite digitValue_lowerChar.
Qed.

Lemma hexPairs_toLowerCase n : forall d,
  (String.length d <= n)%nat ->
  Viem.allHexDigits d = true -> Viem.hexPairs (Js.toLowerCase d) = Viem.hexPairs d.
Proof.
  induction n as [| n IH]; intros d Hlen Hd.
  - destruct d; [reflexivity | cbn in Hlen; lia].
  - destruct d as [| a [| b d]]; [reflexivity | reflexivity |].
    cbn [Viem.allHexDigits] in Hd.
    apply andb_prop in Hd as [Ha Hd]. apply andb_prop in Hd as [Hb Hd].
    cbn [Js.toLowerCase Viem.hexPairs].
    rewrite (digitValue_lowerChar a Ha), (digitValue_lowerChar b Hb).
    rewrite IH; [reflexivity | cbn in Hlen; lia | exact Hd].
Qed.

Lemma toBytes_toLowerCase d :
  Viem.allHexDigits d = true ->
  Viem.toBytes ("0x" ++ Js.toLowerCase d) = Viem.toBytes ("0x" ++ d).
Proof.
  intros Hd. unfold Viem.toBytes. rewrite !isHex_0x, Hd, (allHexDigits_toLowerCase d Hd).
  unfold Viem.hexToBytes.
  change (Js.sliceFrom 2 ("0x" ++ Js.toLowerCase d)) with (Js.toLowerCase d).
  change (Js.sliceFrom 2 ("0x" ++ d)) with d.
  rewrite length_toLowerCase.
  destruct (Nat.odd (String.length d)).
  - change (String "0" (Js.toLowerCase d)) with (Js.toLowerCase (String "0" d)).
    rewrite (hexPairs_toLowerCase (S (String.length d))); [reflexivity | cbn; lia |].
    cbn [Viem.allHexDigits]. now rewrite Hd.
  - rewrite (hexPairs_toLowerCase (String.length d)); [reflexivity | lia | exact Hd].
Qed.

(** X8. A mapping slot depends on the hex digits of the key and of the base
    slot, not on their capitals: an address key with the capitals of its
    checksum lands on the slot of its lower-case spelling. *)
Theorem computeMappingSlot_ignores_capitals
        (baseSlot : string) (key : MappingKey.t)
        (Hbase : Viem.isHex baseSlot = true)
        (Hkey : Viem.isHex (MappingKey.hex key) = true) :
  Engine.computeMappingSlot
    (Js.toLowerCase baseSlot)
    (MappingKey.mk (Js.toLowerCase (MappingKey.hex key))
                   (MappingKey.decoded key) (MappingKey.type key))
  = Engine.computeMappingSlot baseSlot key.
Proof.
  apply isHex_inv in Hbase as (db & Eb & Hdb).
  apply isHex_inv in Hkey as (dk & Ek & Hdk).
  unfold Engine.computeMappingSlot. cbn [MappingKey.hex]. rewrite Eb, Ek.
  change (Js.toLowerCase ("0x" ++ db)) with ("0x" ++ Js.toLowerCase db).
  change (Js.toLowerCase ("0x" ++ dk)) with ("0x" ++ Js.toLowerCase dk).
  rewrite !removeFirst_0x. unfold Viem.keccak256. do 2 f_equal.
  rewrite <- toLowerCase_app. apply toBytes_toLowerCase.
  rewrite allHexDigits_app, Hdk, Hdb. reflexivity.
Qed.

(** X9. The elements of a dynamic array sit side by side: two element slots
    of one array differ, as numbers, by the difference of the indices, and
    they are the same slot only for the same index. *)
Theorem array_slots_are_consecutive
        (baseSlot : string) (i j : Z) (s t : string)
        (Hi : Engine.computeArraySlot baseSlot i = Ok s)
        (Hj : Engine.computeArraySlot baseSlot j = Ok t) :
  (exists v, Viem.hexToBigInt s = Ok v /\ Viem.hexToBigInt t = Ok (v + (j - i)))
  /\ (s = t <-> i = j).
Proof.
  pose proof (computeArraySlot_inv _ _ _ Hi) as (_ & _ & Hs & _).
  pose proof (computeArraySlot_inv _ _ _ Hj) as (_ & _ & Ht & _).
  split.
  - eexists. split; [exact Hs |]. rewrite Ht. f_equal. lia.
  - split.
    + intros ->. rewrite Hs in Ht. inversion Ht. lia.
    + intros ->. rewrite Hi in Hj. now inversion Hj.
Qed.

(* ================================================================== *)
(** * The resolver on the sample contract, continued *)
(* ================================================================== *)

Lemma every_result_is_justified_witness :
  exists a k index,
    In a Sample.layout /\ Engine.isDynamicArray a = true /\ In k Sample.keys /\
    Viem.hexToBigInt (MappingKey.hex k) = Ok index /\ 0 <= index < Engine.LIMIT /\
    Engine.computeArraySlot (StorageSlotInfo.slot a) index = Ok Sample.numbers3 /\
    Engine.arrayResult Sample.numbers3 Sample.numbers Sample.threeKey
    = Engine.arrayResult Sample.numbers3 a k.
Proof.
  apply (every_result_is_justified
           Sample.numbers3 Sample.layout Sample.keys
           [Engine.arrayResult Sample.numbers3 Sample.numbers Sample.threeKey]
           (Engine.arrayResult Sample.numbers3 Sample.numbers Sample.threeKey)).
  - vm_compute. reflexivity.
  - left. reflexivity.
Defined.

Lemma computed_matches_in_pass_order_witness :
  [Engine.arrayResult Sample.numbers3 Sample.numbers Sample.threeKey]
  = match (flat_map (fun m => Engine.mappingHits Sample.numbers3 m Sample.keys)
                    (filter Engine.isSimpleMapping Sample.layout)
           ++ flat_map (fun a => Engine.arrayHits Sample.numbers3 a Sample.keys)
                       (filter Engine.isDynamicArray Sample.layout))%list with
    | [] => [Engine.fallback Sample.numbers3]
    | hits => hits
    end.
Proof.
  apply (computed_matches_in_pass_order Sample.numbers3 Sample.layout Sample.keys).
  - discriminate.
  - vm_compute. reflexivity.
  - vm_compute. reflexivity.
Defined.

Lemma results_never_empty_witness :
  [Engine.arrayResult Sample.numbers3 Sample.numbers Sample.threeKey] <> []
  /\ forall r,
      In r [Engine.arrayResult Sample.numbers3 Sample.numbers Sample.threeKey] ->
      SlotLabelResult.slot r = Sample.numbers3.
Proof.
  apply (results_never_empty Sample.numbers3 Sample.layout Sample.keys).
  vm_compute. reflexivity.
Defined.

(** The slot of [allowances[user][3]] is a real slot of the contract; with
    both keys among the candidates it is labelled by the fallback. *)
Lemma nested_mappings_fall_back_witness :
  Engine.findLayoutInfoAtSlot
    (Engine.computeNestedMappingSlot Sample.slot6 [Sample.userKey; Sample.threeKey])
    [Sample.allowances] Sample.keys
  = Ok [Engine.fallback
          (Engine.computeNestedMappingSlot Sample.slot6
                                           [Sample.userKey; Sample.threeKey])].
Proof.
  apply nested_mappings_fall_back.
  - intros item Hin. in_cases Hin. split; reflexivity.
  - vm_compute. reflexivity.
Defined.

Lemma array_candidates_reported_witness :
  In (Engine.arrayResult Sample.numbers3 Sample.numbers Sample.threeKey)
     [Engine.arrayResult Sample.numbers3 Sample.numbers Sample.threeKey].
Proof.
  apply (array_candidates_reported Sample.numbers3 Sample.layout Sample.keys
                                   Sample.numbers Sample.threeKey 3).
  - vm_compute. reflexivity.
  - right; right; right; right; left. reflexivity.
  - reflexivity.
  - right; left. reflexivity.
  - vm_compute. reflexivity.
  - unfold Engine.LIMIT. lia.
  - vm_compute. reflexivity.
  - vm_compute. reflexivity.
Defined.

(** The slot of [purchases[user]] in capitals: the same number, no match. *)
Lemma capital_slot_matches_nothing_witness :
  [Engine.fallback Sample.purchasesUserUpper]
  = [Engine.fallback Sample.purchasesUserUpper]
  /\ Js.toLowerCase Sample.purchasesUserUpper
     = Engine.computeMappingSlot Sample.slot4 Sample.userKey.
Proof.
  split; [| vm_compute; reflexivity].
  apply (capital_slot_matches_nothing Sample.purchasesUserUpper Sample.layout
                                      Sample.keys).
  - vm_compute. discriminate.
  - vm_compute. reflexivity.
  - vm_compute. reflexivity.
Defined.

Lemma computeMappingSlot_ignores_capitals_witness :
  Engine.computeMappingSlot
    (Js.toLowerCase Sample.slot4)
    (MappingKey.mk (Js.toLowerCase (MappingKey.hex Sample.userChecksumKey))
                   (MappingKey.decoded Sample.userChecksumKey)
                   (MappingKey.type Sample.userChecksumKey))
  = Engine.computeMappingSlot Sample.slot4 Sample.userChecksumKey.
Proof.
  apply (computeMappingSlot_ignores_capitals Sample.slot4 Sample.userChecksumKey);
    reflexivity.
Defined.

Lemma array_slots_are_consecutive_witness :
  (exists v, Viem.hexToBigInt Sample.numbers3 = Ok v
             /\ Viem.hexToBigInt
                  "0x036b6384b5eca791c62761152d0c79bb0604c104a5fb6f4eb0703f3154bb3db5"
                = Ok (v + (5 - 3)))
  /\ (Sample.numbers3
      = "0x036b6384b5eca791c62761152d0c79bb0604c104a5fb6f4eb0703f3154bb3db5"
      <-> 3 = 5).
Proof.
  apply (array_slots_are_consecutive Sample.slot5 3 5); vm_compute; reflexivity.
Defined.

(* ================================================================== *)
(** * The candidate keys: calldata, shape, and what the deduplication keeps *)
(* ================================================================== *)

Lemma find_is_none {A : Type} (f : A -> bool) l :
  (forall a, In a l -> f a = false) -> find f l = None.
Proof.
  induction l as [| a l IH]; intros H; [reflexivity |]. cbn [find].
  rewrite (H a (or_introl eq_refl)). apply IH. intros b Hb. apply H. now right.
Qed.

(** X10. Calldata that is no longer than a selector, or whose selector no
    known function has, adds no candidate and is not decoded: the keys are
    those of a call without calldata. *)
Theorem calldata_without_abi_is_ignored
        (codec : AbiCodec.t) (trace : Trace.t) (addresses : list string)
        (abiFunctions : list AbiFunction.t) (data : string)
        (Hunknown : (String.length data <= 10)%nat
                    \/ forall fn, In fn abiFunctions ->
                                  AbiFunction.selector fn <> Js.slice 0 10 data) :
  KeyOracle.extractPotentialKeys codec trace addresses abiFunctions (Some data)
  = KeyOracle.extractPotentialKeys codec trace addresses [] None.
Proof.
  unfold KeyOracle.extractPotentialKeys, KeyOracle.collectPotentialKeys.
  destruct (forEachM addresses _ []) as [keys |]; cbn [bind]; [| reflexivity].
  assert (E : KeyOracle.calldataKeys codec abiFunctions (Some data) keys = Ok keys).
  { unfold KeyOracle.calldataKeys. destruct Hunknown as [Hshort | Hsel].
    - apply Nat.ltb_ge in Hshort. rewrite Hshort, andb_false_r. reflexivity.
    - rewrite find_is_none; [now destruct (_ && _) |].
      intros fn Hfn. apply String.eqb_neq. now apply Hsel. }
  rewrite E. reflexivity.
Qed.

Lemma length_padEnd n c s :
  (String.length s <= n)%nat -> String.length (Js.padEnd n c s) = n.
Proof.
  intros H. unfold Js.padEnd. rewrite length_append, length_repeatChar. lia.
Qed.

Lemma padHex_shape hex size r :
  Viem.padHex hex size = Ok r ->
  r = "0x" ++ Js.padStart (size * 2) "0" (Js.removeFirst "0x" hex)
  /\ String.length r = (2 + size * 2)%nat.
Proof.
  unfold Viem.padHex.
  destruct (size * 2 <? String.length (Js.removeFirst "0x" hex))%nat eqn:E;
    [discriminate |].
  intros [= <-]. split; [reflexivity |]. apply Nat.ltb_ge in E.
  cbn [append String.length]. now rewrite length_padStart.
Qed.

Lemma padHex_isHex256 hex r :
  Viem.isHex hex = true -> Viem.padHex hex 32 = Ok r -> Viem.isHex256 r = true.
Proof.
  intros Hh Hr. apply padHex_shape in Hr as [-> Hlen].
  unfold Viem.isHex256. rewrite Hlen. rewrite andb_true_r.
  apply isHex_inv in Hh as (d & -> & Hd). rewrite removeFirst_0x, isHex_0x.
  unfold Js.padStart. now rewrite allHexDigits_app, allHexDigits_zeros.
Qed.

Lemma stringToHex_isHex256 value r :
  Viem.stringToHex value (Some 32%nat) = Ok r -> Viem.isHex256 r = true.
Proof.
  unfold Viem.stringToHex, Viem.padHexRight, Viem.bytesToHex.
  destruct (32 <? List.length (Viem.stringToBytes value))%nat; [discriminate |].
  rewrite removeFirst_0x.
  destruct (32 * 2 <? String.length _)%nat eqn:E; [discriminate |].
  intros [= <-]. apply Nat.ltb_ge in E.
  unfold Viem.isHex256, Viem.isHex. cbn [append String.length].
  rewrite length_padEnd by exact E. rewrite andb_true_r.
  unfold Js.padEnd. now rewrite allHexDigits_app, allHexDigits_bytes, allHexDigits_zeros.
Qed.

(** X11. Every candidate [extractPotentialKeys] returns has a [hex] of 66
    characters, [0x] and 64 more; the untyped candidates, those read off the
    stack, are 32-byte hex words. *)
Theorem candidate_keys_are_words
        (codec : AbiCodec.t) (trace : Trace.t) (addresses : list string)
        (abiFunctions : list AbiFunction.t) (txData : option string)
        (out : list MappingKey.t) (k : MappingKey.t)
        (Hout : KeyOracle.extractPotentialKeys codec trace addresses abiFunctions txData
                = Ok out)
        (Hk : In k out) :
  String.length (MappingKey.hex k) = 66%nat
  /\ Js.startsWith (MappingKey.hex k) "0x" = true
  /\ (MappingKey.type k = None -> Viem.isHex256 (MappingKey.hex k) = true).
Proof.
  unfold KeyOracle.extractPotentialKeys in Hout.
  destruct (KeyOracle.collectPotentialKeys codec trace addresses abiFunctions txData)
    as [collected |] eqn:Ec; cbn [bind] in Hout; [| discriminate].
  inversion Hout. subst out. clear Hout.
  apply (proj1 (proj2 (dedupeKeys_spec collected))) in Hk.
  apply collectPotentialKeys_origin in Ec.
  destruct (Ec k Hk) as [(a & _ & Ha) | [(data & ty & p & enc & hex & _ & _ & _ & _ & Hp & ->)
                                        | (values & sv & _ & _ & Hs)]].
  - unfold KeyOracle.addressKey in Ha.
    destruct (Viem.padHex a 32) as [hex |] eqn:E; cbn [bind] in Ha; [| discriminate].
    inversion Ha. subst k. cbn [MappingKey.hex MappingKey.type].
    apply padHex_shape in E as [-> Hlen]. repeat split; [exact Hlen | discriminate].
  - cbn [MappingKey.hex MappingKey.type].
    apply padHex_shape in Hp as [-> Hlen]. repeat split; [exact Hlen | discriminate].
  - unfold KeyOracle.stackKey in Hs.
    assert (Hw : forall hex,
               (if Viem.isHex sv then Viem.padHex sv 32
                else Viem.stringToHex sv (Some 32%nat)) = Ok hex ->
               Viem.isHex256 hex = true).
    { intros hex. destruct (Viem.isHex sv) eqn:Eh.
      - now apply padHex_isHex256.
      - apply stringToHex_isHex256. }
    destruct (if Viem.isHex sv then _ else _) as [hex |]; cbn [bind] in Hs;
      [| discriminate].
    inversion Hs. subst k. cbn [MappingKey.hex MappingKey.type].
    specialize (Hw hex eq_refl). pose proof Hw as Hw'.
    apply isHex256_inv in Hw' as (d & -> & _ & Hlen).
    split; [cbn [append String.length]; now rewrite Hlen |].
    split; [reflexivity | intros _; exact Hw].
Qed.

Lemma JsMap_get_app {V : Type} k (m m' : JsMap.t V) :
  JsMap.get k (m ++ m')%list
  = match JsMap.get k m with
    | Some v => Some v
    | None => JsMap.get k m'
    end.
Proof.
  induction m as [| [k' v'] m IH]; [reflexivity |]. cbn [app JsMap.get].
  destruct (k' =? k)%string; [reflexivity | exact IH].
Qed.

(** The loop of the deduplication over keys of pairwise distinct [hex], none
    of them in the map yet: every key is appended. *)
Lemma forEach_dedupeStep_fresh keys : forall m,
  NoDup (map MappingKey.hex keys) ->
  (forall k, In k keys -> JsMap.get (MappingKey.hex k) m = None) ->
  forEach keys KeyOracle.dedupeStep m
  = (m ++ map (fun k => (MappingKey.hex k, k)) keys)%list.
Proof.
  induction keys as [| k keys IH]; intros m Hnd Hfresh; cbn [forEach map].
  - now rewrite app_nil_r.
  - inversion Hnd as [| ? ? Hk Hnd']. subst.
    assert (Hget : JsMap.get (MappingKey.hex k) m = None)
      by (apply Hfresh; now left).
    unfold KeyOracle.dedupeStep at 2. rewrite JsMap_has_get, Hget. cbn [negb orb].
    rewrite (JsMap_set_absent _ _ _ Hget), IH.
    + now rewrite <- app_assoc.
    + exact Hnd'.
    + intros k' Hk'. rewrite JsMap_get_app, (Hfresh k' (or_intror Hk')).
      cbn [JsMap.get].
      destruct (String.eqb_spec (MappingKey.hex k) (MappingKey.hex k')) as [E |];
        [| reflexivity].
      exfalso. apply Hk. rewrite E. now apply in_map.
Qed.

(** X12. On keys of pairwise distinct [hex] the deduplication changes
    nothing: every key is kept, in the order of collection. *)
Theorem dedupeKeys_keeps_distinct_keys
        (keys : list MappingKey.t)
        (Hdistinct : NoDup (map MappingKey.hex keys)) :
  KeyOracle.dedupeKeys keys = keys.
Proof.
  unfold KeyOracle.dedupeKeys.
  rewrite forEach_dedupeStep_fresh; [| exact Hdistinct | reflexivity].
  unfold JsMap.values, JsMap.empty. cbn [app].
  rewrite map_map. cbn [snd]. apply map_id.
Qed.

(** X13. Deduplicating twice is deduplicating once. *)
Theorem dedupeKeys_idempotent (keys : list MappingKey.t) :
  KeyOracle.dedupeKeys (KeyOracle.dedupeKeys keys) = KeyOracle.dedupeKeys keys.
Proof.
  destruct (dedupeKeys_spec keys) as [Hnd _].
  unfold KeyOracle.dedupeKeys at 1.
  rewrite forEach_dedupeStep_fresh; [| exact Hnd | reflexivity].
  unfold JsMap.values, JsMap.empty. cbn [app].
  rewrite map_map. cbn [snd]. apply map_id.
Qed.

Lemma get_dedupeStep_kept h k k' m :
  JsMap.get h m = Some k ->
  (MappingKey.hex k' = h -> Js.truthyOpt (MappingKey.type k') = false) ->
  JsMap.get h (KeyOracle.dedupeStep k' m) = Some k.
Proof.
  intros Hget Hun. unfold KeyOracle.dedupeStep.
  destruct (String.eqb_spec (MappingKey.hex k') h) as [E | Hne].
  - rewrite JsMap_has_get, E, Hget, (Hun E). exact Hget.
  - destruct (_ || _); [| exact Hget]. now rewrite JsMap_get_set_other.
Qed.

Lemma get_forEach_dedupeStep_kept h k keys : forall m,
  JsMap.get h m = Some k ->
  (forall k', In k' keys -> MappingKey.hex k' = h ->
              Js.truthyOpt (MappingKey.type k') = false) ->
  JsMap.get h (forEach keys KeyOracle.dedupeStep m) = Some k.
Proof.
  induction keys as [| k' keys IH]; intros m Hget Hun; cbn [forEach]; [exact Hget |].
  apply IH.
  - apply get_dedupeStep_kept; [exact Hget |]. apply Hun. now left.
  - intros k2 Hk2. apply Hun. now right.
Qed.

(** X14. Which entry the deduplication keeps: a key stays in the output when
    no key collected after it has its [hex] and a type, provided it has a
    type itself or is the first key of its [hex]. So the last typed key of a
    [hex] wins, and without a typed one the first key does. *)
Theorem dedupeKeys_kept_entry
        (before after : list MappingKey.t) (k : MappingKey.t)
        (Hlater : forall k', In k' after -> MappingKey.hex k' = MappingKey.hex k ->
                             Js.truthyOpt (MappingKey.type k') = false)
        (Hfirst : Js.truthyOpt (MappingKey.type k) = true
                  \/ forall k', In k' before -> MappingKey.hex k' <> MappingKey.hex k) :
  In k (KeyOracle.dedupeKeys (before ++ k :: after)).
Proof.
  unfold KeyOracle.dedupeKeys. rewrite forEach_app. cbn [forEach].
  set (m := forEach before KeyOracle.dedupeStep JsMap.empty).
  assert (Hset : JsMap.get (MappingKey.hex k) (KeyOracle.dedupeStep k m) = Some k).
  { unfold KeyOracle.dedupeStep. destruct Hfirst as [Htyped | Hnew].
    - rewrite Htyped, orb_true_r. apply JsMap_get_set_same.
    - destruct (forEach_dedupeStep_inv before [] JsMap.empty) as (_ & Hent & _).
      { repeat split; [constructor | contradiction | contradiction | contradiction]. }
      cbn [app] in Hent. fold m in Hent.
      rewrite JsMap_has_get.
      destruct (JsMap.get (MappingKey.hex k) m) as [x |] eqn:G.
      + apply JsMap_get_In in G. destruct (Hent _ _ G) as [Ex Hx].
        exfalso. exact (Hnew x Hx Ex).
      + cbn [negb orb]. apply JsMap_get_set_same. }
  pose proof (get_forEach_dedupeStep_kept _ _ after _ Hset Hlater) as G.
  apply JsMap_get_In in G. unfold JsMap.values.
  apply in_map_iff. now exists (MappingKey.hex k, k).
Qed.

(* ================================================================== *)
(** * The candidates of a call, [trace.ts] *)
(* ================================================================== *)

Lemma setAdd_spec x set :
  (forall y, In y (TraceTs.setAdd x set) <-> In y set \/ y = x)
  /\ (NoDup set -> NoDup (TraceTs.setAdd x set)).
Proof.
  unfold TraceTs.setAdd. destruct (existsb (String.eqb x) set) eqn:E.
  - apply existsb_exists in E as (z & Hz & Ez). apply String.eqb_eq in Ez. subst z.
    split; [| auto]. intros y. split; [auto |]. intros [H | ->]; assumption.
  - split.
    + intros y. rewrite in_app_iff. cbn [In]. split.
      * intros [H | [<- | []]]; auto.
      * intros [H | ->]; auto.
    + intros Hnd. apply NoDup_app; [exact Hnd | repeat constructor; intros [] | ].
      intros y Hy [<- | []].
      assert (Hex : existsb (String.eqb x) set = true)
        by (apply existsb_exists; exists x; split; [exact Hy | apply String.eqb_refl]).
      congruence.
Qed.

Lemma forEach_setAdd values : forall set,
  (forall y, In y (forEach values TraceTs.setAdd set) <-> In y set \/ In y values)
  /\ (NoDup set -> NoDup (forEach values TraceTs.setAdd set)).
Proof.
  induction values as [| x values IH]; intros set; cbn [forEach].
  - split; [| auto]. intros y. cbn [In]. tauto.
  - destruct (IH (TraceTs.setAdd x set)) as [Hin Hnd].
    destruct (setAdd_spec x set) as [Hin1 Hnd1]. split.
    + intros y. rewrite Hin, Hin1. cbn [In]. split.
      * intros [[H | ->] | H]; auto.
      * intros [H | [<- | H]]; auto.
    + auto.
Qed.

(** X15. The slim trace of [traceStorageAccess]: its unique stack values are
    pairwise distinct and are exactly the values found on the stack of some
    step; its relevant steps are the SLOAD, SSTORE and SHA3 steps, in the
    order of the trace. *)
Theorem dedupedTraceLog_spec (traceLog : list StructLog.t) :
  exists values ops,
    Trace.uniqueStackValues (TraceTs.dedupedTraceLog traceLog) = Some values
    /\ Trace.relevantOps (TraceTs.dedupedTraceLog traceLog) = Some ops
    /\ NoDup values
    /\ (forall sv, In sv values <->
                   exists log, In log traceLog /\ In sv (StructLog.stack log))
    /\ ops = map (fun log => (StructLog.op log, StructLog.stack log))
                 (filter (fun log =>
                            (StructLog.op log =? "SLOAD")%string
                            || (StructLog.op log =? "SSTORE")%string
                            || (StructLog.op log =? "SHA3")%string)
                         traceLog).
Proof.
  eexists. eexists. split; [reflexivity |]. split; [reflexivity |].
  destruct (forEach_setAdd (flat_map StructLog.stack traceLog) []) as [Hin Hnd].
  split; [apply Hnd; constructor |]. split.
  - intros sv. unfold TraceTs.newSet. rewrite Hin, in_flat_map. cbn [In]. tauto.
  - f_equal. apply filter_ext. intros log. unfold TraceTs.isRelevantOp.
    cbn [existsb]. rewrite orb_false_r, orb_assoc.
    now rewrite !(String.eqb_sym (StructLog.op log)).
Qed.

Lemma forEachM_push_all {A B : Type} (f : A -> result B) l : forall s s',
  forEachM l (fun a s => b <- f a ;; Ok (s ++ [b])%list) s = Ok s' ->
  incl s s' /\ forall a, In a l -> exists b, f a = Ok b /\ In b s'.
Proof.
  induction l as [| a l IH]; intros s s'; cbn [forEachM].
  - intros [= <-]. split; [apply incl_refl | contradiction].
  - destruct (f a) as [b |] eqn:E; cbn [bind]; [| discriminate].
    intros H. apply IH in H as [Hincl Hall]. split.
    + intros x Hx. apply Hincl, in_or_app. now left.
    + intros a' [<- | Ha'].
      * exists b. split; [exact E |]. apply Hincl, in_or_app. right. now left.
      * now apply Hall.
Qed.

Lemma pushParam_incl codec type p keys keys' :
  KeyOracle.pushParam codec type p keys = Ok keys' -> incl keys keys'.
Proof.
  unfold KeyOracle.pushParam. destruct (Js.truthy type).
  - destruct (AbiCodec.encodeAbiParameters codec type p); cbn [bind]; [| discriminate].
    destruct (Viem.padHex _ 32); cbn [bind]; [| discriminate].
    intros [= <-]. apply incl_appl, incl_refl.
  - intros [= <-]. apply incl_refl.
Qed.

Lemma typedParam_incl codec inputs index (rename : string -> string) p keys keys' :
  (ty <- KeyOracle.inputType inputs index ;;
   KeyOracle.pushParam codec (rename ty) p keys) = Ok keys' ->
  incl keys keys'.
Proof.
  destruct (KeyOracle.inputType inputs index); cbn [bind]; [| discriminate].
  apply pushParam_incl.
Qed.

Lemma calldataKeys_incl codec abiFunctions txData keys keys' :
  KeyOracle.calldataKeys codec abiFunctions txData keys = Ok keys' ->
  incl keys keys'.
Proof.
  unfold KeyOracle.calldataKeys.
  destruct txData as [data |]; [| intros [= <-]; apply incl_refl].
  destruct (_ && _); [| intros [= <-]; apply incl_refl].
  destruct (find _ abiFunctions) as [fn |]; [| intros [= <-]; apply incl_refl].
  destruct (AbiFunction.inputs fn) as [inputs |]; [| intros [= <-]; apply incl_refl].
  destruct (AbiCodec.decodeAbiParameters codec inputs _) as [params |];
    cbn [bind]; [| discriminate].
  unfold KeyOracle.paramKeys.
  apply (forEachM_invariant (fun s => incl keys s)); [| apply incl_refl].
  intros [index param] s1 s2 _ Hs1 Hstep.
  apply (incl_tran Hs1).
  destruct param as [s | n | b | items];
    try (apply (typedParam_incl codec inputs index (fun ty => ty) _ _ _ Hstep)).
  revert Hstep.
  apply (forEachM_invariant (fun s => incl s1 s)); [| apply incl_refl].
  intros p s3 s4 _ Hs3 Hstep. apply (incl_tran Hs3).
  apply (typedParam_incl codec inputs index (Js.removeFirst "[]") _ _ _ Hstep).
Qed.

(** X16. From the call to the candidates: when [traceStorageAccess] gets its
    candidate keys, every value found on the stack of some step of the trace
    is among them, under the [hex] the stack gives it, and so is every
    touched address other than the zero address, padded to 32 bytes and with
    a type. *)
Theorem call_values_become_candidates
        (codec : AbiCodec.t) (preimages : list string)
        (traceLog : list StructLog.t) (abis : list AbiFunction.t)
        (data : option string) (out : list MappingKey.t)
        (Hout : TraceTs.potentialKeys codec preimages traceLog abis data = Ok out) :
  (forall log stackValue,
      In log traceLog -> In stackValue (StructLog.stack log) ->
      exists k fromStack,
        In k out /\ KeyOracle.stackKey stackValue = Ok fromStack
        /\ MappingKey.hex k = MappingKey.hex fromStack)
  /\ (forall address,
         In address preimages -> address <> TraceTs.ZERO_ADDRESS ->
         exists k,
           In k out /\ Viem.padHex address 32 = Ok (MappingKey.hex k)
           /\ Js.truthyOpt (MappingKey.type k) = true).
Proof.
  unfold TraceTs.potentialKeys, KeyOracle.extractPotentialKeys in Hout.
  destruct (KeyOracle.collectPotentialKeys _ _ _ _ _) as [collected |] eqn:Ec;
    cbn [bind] in Hout; [| discriminate].
  inversion Hout. subst out. clear Hout.
  destruct (dedupeKeys_spec collected) as (_ & _ & Hhex & Htyped).
  unfold KeyOracle.collectPotentialKeys in Ec.
  destruct (forEachM (TraceTs.touchedAddresses preimages) _ []) as [keys1 |] eqn:E1;
    cbn [bind] in Ec; [| discriminate].
  destruct (KeyOracle.calldataKeys codec abis data keys1) as [keys2 |] eqn:E2;
    cbn [bind] in Ec; [| discriminate].
  apply (forEachM_push_all KeyOracle.addressKey) in E1 as [_ Haddr].
  apply calldataKeys_incl in E2.
  assert (Hstack : incl keys2 collected
                   /\ forall sv, In sv (TraceTs.newSet (flat_map StructLog.stack traceLog)) ->
                                 exists b, KeyOracle.stackKey sv = Ok b /\ In b collected).
  { unfold KeyOracle.stackKeys in Ec. cbn [TraceTs.dedupedTraceLog Trace.uniqueStackValues] in Ec.
    destruct (TraceTs.newSet (flat_map StructLog.stack traceLog)) as [| v vs].
    - inversion Ec. split; [apply incl_refl | contradiction].
    - now apply (forEachM_push_all KeyOracle.stackKey) in Ec. }
  destruct Hstack as [Hincl Hstack]. split.
  - intros log sv Hlog Hsv.
    destruct (Hstack sv) as (b & Hb & Hin).
    { apply (proj1 (forEach_setAdd _ [])). right. apply in_flat_map. now exists log. }
    destruct (Hhex b Hin) as (k & Hk & Ek). now exists k, b.
  - intros a Ha Hnz.
    destruct (Haddr a) as (b & Hb & Hin).
    { apply filter_In. split; [exact Ha |]. apply negb_true_iff.
      now apply String.eqb_neq. }
    assert (Hc : In b collected) by (apply Hincl, E2, Hin).
    destruct (Hhex b Hc) as (k & Hk & Ek). exists k. split; [exact Hk |].
    unfold KeyOracle.addressKey in Hb.
    destruct (Viem.padHex a 32) as [hex |] eqn:Ep; cbn [bind] in Hb; [| discriminate].
    inversion Hb. subst b. cbn [MappingKey.hex] in Ek. rewrite Ek. split; [reflexivity |].
    apply (Htyped _ k Hc Hk Ek). reflexivity.
Qed.

(* ================================================================== *)
(** * The slot computations of the older engine *)
(* ================================================================== *)

Lemma length_stringToBytes s :
  (String.length s <= List.length (Viem.stringToBytes s))%nat.
Proof.
  induction s as [| c s IH]; [apply Nat.le_refl |].
  cbn [Viem.stringToBytes String.length]. rewrite length_app.
  unfold Viem.utf8Char. destruct (_ <? 128); cbn [List.length]; lia.
Qed.

(** A base slot given as a string is read as text: past 32 characters it
    does not fit a word. *)
Lemma toWord_long_string s :
  (32 < String.length s)%nat -> exists e, SlotEngine.toWord (SString s) = Err e.
Proof.
  intros Hlen. unfold SlotEngine.toWord, SlotEngine.toHex, Viem.stringToHex.
  cbn [bind]. unfold Viem.padHex, Viem.bytesToHex. rewrite removeFirst_0x.
  rewrite length_hexDigitsOfBytes. pose proof (length_stringToBytes s) as Hb.
  destruct (32 * 2 <? 2 * List.length (Viem.stringToBytes s))%nat eqn:E.
  - eexists. reflexivity.
  - apply Nat.ltb_ge in E. lia.
Qed.

(** X17. The older [computeMappingSlot] reads a base slot given as a string
    as text, not as a hex number: with a string of more than 32 characters,
    such as a 32-byte hex word, it raises for every key and key type. *)
Theorem legacy_mapping_slot_raises_on_long_string
        (baseSlot : string) (key : Scalar) (keyType : option string)
        (Hlong : (32 < String.length baseSlot)%nat) :
  exists e, SlotEngine.computeMappingSlot (SString baseSlot) key keyType = Err e.
Proof.
  unfold SlotEngine.computeMappingSlot.
  destruct (toWord_long_string baseSlot Hlong) as (e & He). rewrite He.
  match goal with
  | |- exists _, bind ?r _ = _ => destruct r as [keyHex | e']
  end; cbn [bind]; eexists; reflexivity.
Qed.

Lemma length_keccak256 value : String.length (Viem.keccak256 value) = 66%nat.
Proof.
  pose proof (isHex256_keccak256 value) as H. unfold Viem.isHex256 in H.
  apply andb_prop in H as [_ H]. now apply Nat.eqb_eq in H.
Qed.

Lemma computeMappingSlot_length baseSlot key keyType s :
  SlotEngine.computeMappingSlot baseSlot key keyType = Ok s ->
  String.length s = 66%nat.
Proof.
  unfold SlotEngine.computeMappingSlot.
  match goal with
  | |- bind ?r _ = _ -> _ => destruct r as [keyHex | e]
  end; cbn [bind]; [| discriminate].
  destruct (SlotEngine.toWord baseSlot) as [slotHex | e]; cbn [bind]; [| discriminate].
  intros [= <-]. apply length_keccak256.
Qed.

(** X18. The older [computeNestedMappingSlot] never returns on two keys or
    more: the slot of the first level is a hex string of 66 characters,
    which the second level reads as text and cannot pad to a word. *)
Theorem legacy_nested_slot_always_raises
        (baseSlot : Scalar) (key1 key2 : Scalar) (rest : list Scalar)
        (keyTypes : list (option string)) :
  exists e,
    SlotEngine.computeNestedMappingSlot baseSlot (key1 :: key2 :: rest) keyTypes
    = Err e.
Proof.
  unfold SlotEngine.computeNestedMappingSlot, indexed.
  cbn [List.length Nat.eqb seq combine forEachM].
  destruct (SlotEngine.computeMappingSlot baseSlot key1 _) as [s1 | e1] eqn:E1;
    cbn [bind]; [| eexists; reflexivity].
  apply computeMappingSlot_length in E1.
  destruct (toWord_long_string s1) as (e & He); [lia |].
  unfold SlotEngine.computeMappingSlot. rewrite He.
  match goal with
  | |- exists _, bind (bind (bind ?r _) _) _ = _ => destruct r as [keyHex | e']
  end; cbn [bind]; eexists; reflexivity.
Qed.

Lemma numberToHex_sized n size s :
  Viem.numberToHex false n (Some (S size)) = Ok s ->
  0 <= n /\ Viem.numberToHex false n None = Ok ("0x" ++ Js.toStringRadix 16 n)
  /\ Viem.padHex ("0x" ++ Js.toStringRadix 16 n) (S size) = Ok s.
Proof.
  unfold Viem.numberToHex.
  destruct (n <? 0) eqn:En.
  - rewrite orb_true_r. discriminate.
  - rewrite orb_false_r. cbn [orb].
    destruct (negb _ && _); [discriminate |].
    intros H. apply Z.ltb_ge in En. auto.
Qed.

Lemma toWord_bigint n s :
  Viem.numberToHex false n (Some 32%nat) = Ok s ->
  SlotEngine.toWord (SBigInt n) = Ok s.
Proof.
  intros H. apply numberToHex_sized in H as (_ & H1 & H2).
  unfold SlotEngine.toWord, SlotEngine.toHex. rewrite H1. exact H2.
Qed.

Lemma padHex_0x hex size r :
  Viem.padHex hex size = Ok r ->
  Js.sliceFrom 2 r = Js.removeFirst "0x" r.
Proof.
  unfold Viem.padHex. destruct (_ <? _)%nat; [discriminate |].
  intros [= <-].
  exact (eq_sym (removeFirst_0x (Js.padStart (size * 2) "0" (Js.removeFirst "0x" hex)))).
Qed.

(** X19. On a base slot given as a bigint below 2^256 and a key given as a
    hex string of at most 32 bytes, the older [computeMappingSlot] pads both
    to 32 bytes and returns what [computeMappingSlot] of the current engine
    returns on the padded words, whatever the key type. *)
Theorem legacy_mapping_slot_agrees
        (baseSlot : Z) (key : string) (keyType : option string)
        (slotHex keyHex : string) (decoded : option JsValue) (type : option string)
        (Hkey : Viem.isHex key = true)
        (HkeyHex : Viem.padHex key 32 = Ok keyHex)
        (HslotHex : Viem.numberToHex false baseSlot (Some 32%nat) = Ok slotHex) :
  SlotEngine.computeMappingSlot (SBigInt baseSlot) (SString key) keyType
  = Ok (Engine.computeMappingSlot slotHex (MappingKey.mk keyHex decoded type)).
Proof.
  unfold SlotEngine.computeMappingSlot, Engine.computeMappingSlot.
  cbn [SlotEngine.isHexString SlotEngine.keyValue MappingKey.hex].
  rewrite Hkey, HkeyHex. cbn [bind]. rewrite (toWord_bigint _ _ HslotHex). cbn [bind].
  rewrite (padHex_0x _ _ _ HkeyHex).
  apply numberToHex_sized in HslotHex as (_ & _ & Hpad).
  rewrite (padHex_0x _ _ _ Hpad). reflexivity.
Qed.

Lemma toHex_bigint n :
  0 <= n -> SlotEngine.toHex (SBigInt n) = Ok (SlotEngine.canonicalSlot n).
Proof.
  intros Hn. unfold SlotEngine.toHex, Viem.numberToHex, SlotEngine.canonicalSlot.
  cbn [orb]. apply Z.ltb_ge in Hn. now rewrite Hn.
Qed.

(** X20. The older [computeArraySlot] on a bigint base slot below 2^256 and
    a bigint index: the hash of the padded base slot plus the index, written
    without padding and without an upper bound; a sum of 2^256 or more is
    returned with more than 64 digits, and only a negative sum raises. *)
Theorem legacy_array_slot_is_unbounded
        (baseSlot index : Z) (slotHex : string)
        (HslotHex : Viem.numberToHex false baseSlot (Some 32%nat) = Ok slotHex) :
  let sum := Viem.toU256 (Keccak.keccak_256 (Viem.toBytes slotHex)) + index in
  (0 <= sum ->
   SlotEngine.computeArraySlot (SBigInt baseSlot) (SBigInt index)
   = Ok ("0x" ++ Js.toStringRadix 16 sum))
  /\ (sum < 0 ->
      SlotEngine.computeArraySlot (SBigInt baseSlot) (SBigInt index)
      = Err (IntegerOutOfRangeError sum)).
Proof.
  cbv zeta. unfold SlotEngine.computeArraySlot. cbn [bind].
  rewrite (toWord_bigint _ _ HslotHex). cbn [bind].
  rewrite hexToBigInt_keccak256. cbn [bind]. split; intros Hs.
  - now apply toHex_bigint.
  - unfold SlotEngine.toHex, Viem.numberToHex. cbn [orb].
    apply Z.ltb_lt in Hs. now rewrite Hs.
Qed.

Lemma slotValue_isHex256 s v :
  Viem.isHex256 s = true -> Viem.hexToBigInt s = Ok v ->
  SlotEngine.slotValue (SString s) = Some v.
Proof.
  intros Hs Hv. apply isHex256_inv in Hs as (d & -> & Hd & Hlen).
  unfold Viem.hexToBigInt in Hv. rewrite stringToBigInt_hex in Hv by exact Hd.
  unfold SlotEngine.slotValue.
  change (Js.removePrefix "0x" ("0x" ++ d)) with d. rewrite Hd.
  destruct d as [| c d]; [discriminate Hlen |]. cbn [Js.parseNonEmpty] in Hv.
  destruct (Js.parseDigits 16 0 (String c d)); now inversion Hv.
Qed.

(** X21. The two engines meet on array slots: when [computeArraySlot] of the
    current engine returns a slot for a padded base slot, the older
    [computeArraySlot] returns on the bigint base slot, and its result is the
    normal form of the current engine's result. *)
Theorem array_slots_agree_after_normalizeSlot
        (baseSlot index : Z) (slotHex s : string)
        (HslotHex : Viem.numberToHex false baseSlot (Some 32%nat) = Ok slotHex)
        (Hengine : Engine.computeArraySlot slotHex index = Ok s) :
  exists t,
    SlotEngine.computeArraySlot (SBigInt baseSlot) (SBigInt index) = Ok t
    /\ SlotEngine.normalizeSlot (SString s) = Ok t.
Proof.
  unfold Engine.computeArraySlot in Hengine.
  rewrite hexToBigInt_keccak256 in Hengine. cbn [bind] in Hengine.
  set (sum := Viem.toU256 (Keccak.keccak_256 (Viem.toBytes slotHex)) + index) in *.
  destruct (numberToHex_32 sum) as [Hin Hout].
  assert (Hdec : 0 <= sum < 2 ^ 256 \/ ~ (0 <= sum < 2 ^ 256)) by lia.
  destruct Hdec as [Hr | Hr]; [| rewrite (Hout Hr) in Hengine; discriminate].
  destruct (Hin Hr) as (s' & Hs' & Hw & Hv & _).
  rewrite Hs' in Hengine. inversion Hengine. subst s'.
  exists (SlotEngine.canonicalSlot sum). split.
  - unfold SlotEngine.computeArraySlot. cbn [bind].
    rewrite (toWord_bigint _ _ HslotHex). cbn [bind].
    rewrite hexToBigInt_keccak256. cbn [bind]. apply toHex_bigint. lia.
  - apply normalizeSlot_slotValue. now apply slotValue_isHex256.
Qed.

(* ================================================================== *)
(** * [normalizeSlot]: when it raises *)
(* ================================================================== *)

(** X22. [normalizeSlot] returns on every string; on a number it raises
    exactly when the number is negative or above the largest safe integer,
    on a bigint exactly when it is negative. *)
Theorem normalizeSlot_raises_iff (slot : Scalar) :
  (exists e, SlotEngine.normalizeSlot slot = Err e)
  <-> match slot with
      | SString _ => False
      | SNumber n => n < 0 \/ Viem.MAX_SAFE_INTEGER < n
      | SBigInt n => n < 0
      end.
Proof.
  unfold SlotEngine.normalizeSlot. destruct slot as [s | n | n]; cbn [SlotEngine.falsy].
  - split; [| contradiction]. intros (e & He).
    destruct (s =? "")%string; cbn [bind] in He; discriminate.
  - unfold Viem.numberToHex, Viem.MAX_SAFE_INTEGER.
    destruct (Z.eqb_spec n 0) as [-> | Hne].
    + split; [intros (e & He); discriminate | lia].
    + change (negb (2 ^ 53 - 1 =? 0)) with true. cbn [andb].
      destruct (Z.ltb_spec (2 ^ 53 - 1) n); cbn [orb bind].
      * split; [intros _; now right | intros _; eexists; reflexivity].
      * destruct (Z.ltb_spec n 0); cbn [bind].
        -- split; [intros _; now left | intros _; eexists; reflexivity].
        -- split; [intros (e & He); discriminate | lia].
  - unfold Viem.numberToHex. cbn [orb].
    destruct (Z.eqb_spec n 0) as [-> | Hne].
    + split; [intros (e & He); discriminate | lia].
    + destruct (Z.ltb_spec n 0); cbn [bind].
      * split; [intros _; assumption | intros _; eexists; reflexivity].
      * split; [intros (e & He); discriminate | lia].
Qed.

(* ================================================================== *)
(** * The older extractor: what it keeps and what it drops *)
(* ================================================================== *)

(** The map of the deduplication after the entries [seen]: keys are pairwise
    distinct, every entry sits under its own key and was seen, and every
    entry seen has its key in the map. *)
Lemma forEach_dedupStep_entries l : forall seen m,
  NoDup (map fst m) ->
  (forall h x, In (h, x) m -> h = SlotEngine.dedupKey x /\ In x seen) ->
  (forall c, In c seen -> In (SlotEngine.dedupKey c) (map fst m)) ->
  NoDup (map fst (forEach l SlotEngine.dedupStep m))
  /\ (forall h x, In (h, x) (forEach l SlotEngine.dedupStep m) ->
                  h = SlotEngine.dedupKey x /\ In x (seen ++ l))
  /\ (forall c, In c (seen ++ l) ->
                In (SlotEngine.dedupKey c)
                   (map fst (forEach l SlotEngine.dedupStep m))).
Proof.
  induction l as [| a l IH]; intros seen m Hnd Hent Hkeys; cbn [forEach].
  - rewrite app_nil_r. auto.
  - replace (seen ++ a :: l)%list with ((seen ++ [a]) ++ l)%list
      by now rewrite <- app_assoc.
    assert (Hfst : map fst (SlotEngine.dedupStep a m) = map fst m
                   \/ map fst (SlotEngine.dedupStep a m)
                      = (map fst m ++ [SlotEngine.dedupKey a])%list
                      /\ ~ In (SlotEngine.dedupKey a) (map fst m)).
    { unfold SlotEngine.dedupStep.
      destruct (JsMap.get (SlotEngine.dedupKey a) m) as [v0 |] eqn:G.
      - left. exact (JsMap_set_keys_present _ _ _ _ G).
      - right. rewrite (JsMap_set_absent _ _ _ G), map_app.
        split; [reflexivity | now apply JsMap_get_None]. }
    assert (Hain : In (SlotEngine.dedupKey a) (map fst (SlotEngine.dedupStep a m))).
    { unfold SlotEngine.dedupStep.
      pose proof (JsMap_get_set_same (SlotEngine.dedupKey a) a m) as G.
      apply JsMap_get_In in G. apply in_map_iff. now exists (SlotEngine.dedupKey a, a). }
    apply IH.
    + destruct Hfst as [-> | [-> Hnew]]; [exact Hnd |].
      apply NoDup_app; [exact Hnd | repeat constructor; intros [] |].
      intros k Hk [<- | []]. contradiction.
    + intros h x Hin. unfold SlotEngine.dedupStep in Hin.
      apply JsMap_In_set in Hin as [[-> ->] | Hin].
      * split; [reflexivity |]. apply in_or_app. right. now left.
      * destruct (Hent h x Hin) as [E Hx]. split; [exact E |].
        apply in_or_app. now left.
    + intros c Hc. apply in_app_or in Hc as [Hc | [<- | []]]; [| exact Hain].
      destruct Hfst as [-> | [-> _]]; [now apply Hkeys |].
      apply in_or_app. left. now apply Hkeys.
Qed.

Lemma dedupValues_subset values v :
  In v (JsMap.values (forEach values SlotEngine.dedupStep JsMap.empty)) ->
  In v values.
Proof.
  destruct (forEach_dedupStep_entries values [] JsMap.empty) as (_ & Hent & _);
    [constructor | contradiction | contradiction |].
  unfold JsMap.values. intros Hv. apply in_map_iff in Hv as ([h x] & <- & Hin).
  now apply (Hent h x).
Qed.

(** X23. The older extractor returns no two entries that agree on the value
    as text, the source and the operation; every entry it returns was
    collected, and every entry collected is represented by an entry of the
    same text, source and operation. *)
Theorem legacy_values_deduplicated (trace : TraceArg) (txData : TxData.t) :
  let out := SlotEngine.extractPotentialValuesFromTrace trace txData in
  NoDup (map SlotEngine.dedupKey out)
  /\ (forall v, In v out -> In v (SlotEngine.collectValues trace txData))
  /\ (forall c, In c (SlotEngine.collectValues trace txData) ->
                exists v, In v out /\ SlotEngine.dedupKey v = SlotEngine.dedupKey c).
Proof.
  cbv zeta. unfold SlotEngine.extractPotentialValuesFromTrace, JsMap.values.
  set (values := SlotEngine.collectValues trace txData).
  destruct (forEach_dedupStep_entries values [] JsMap.empty) as (Hnd & Hent & Hkeys);
    [constructor | contradiction | contradiction |].
  cbn [app] in *. set (m := forEach values SlotEngine.dedupStep JsMap.empty) in *.
  assert (Hmap : map SlotEngine.dedupKey (map snd m) = map fst m).
  { rewrite map_map. apply map_ext_in. intros [h x] Hin. cbn [fst snd].
    symmetry. now apply (Hent h x). }
  split; [now rewrite Hmap |]. split.
  - intros v Hv. apply in_map_iff in Hv as ([h x] & <- & Hin). now apply (Hent h x).
  - intros c Hc. apply Hkeys in Hc. apply in_map_iff in Hc as ([h x] & E & Hin).
    cbn [fst] in E. subst h. exists x. split.
    + apply in_map_iff. now exists (SlotEngine.dedupKey c, x).
    + symmetry. now apply (Hent _ _ Hin).
Qed.

Lemma get_forEach_dedupStep_other k x l : forall m,
  JsMap.get k m = Some x ->
  (forall v, In v l -> SlotEngine.dedupKey v <> k) ->
  JsMap.get k (forEach l SlotEngine.dedupStep m) = Some x.
Proof.
  induction l as [| a l IH]; intros m Hget Hne; cbn [forEach]; [exact Hget |].
  apply IH.
  - unfold SlotEngine.dedupStep. rewrite JsMap_get_set_other; [exact Hget |].
    apply Hne. now left.
  - intros v Hv. apply Hne. now right.
Qed.

(** X24. Among entries of the same text, source and operation the older
    extractor keeps the one collected last: an entry followed by no entry of
    its key is returned (where the current engine keeps the first key, or the
    last typed one). *)
Theorem legacy_last_entry_wins
        (trace : TraceArg) (txData : TxData.t)
        (before after : list TraceValue.t) (v : TraceValue.t)
        (Hcollected : SlotEngine.collectValues trace txData
                      = (before ++ v :: after)%list)
        (Hlast : forall v', In v' after ->
                            SlotEngine.dedupKey v' <> SlotEngine.dedupKey v) :
  In v (SlotEngine.extractPotentialValuesFromTrace trace txData).
Proof.
  unfold SlotEngine.extractPotentialValuesFromTrace. rewrite Hcollected.
  rewrite forEach_app. cbn [forEach].
  set (m := forEach before SlotEngine.dedupStep JsMap.empty).
  assert (G : JsMap.get (SlotEngine.dedupKey v)
                        (forEach after SlotEngine.dedupStep (SlotEngine.dedupStep v m))
              = Some v).
  { apply get_forEach_dedupStep_other; [apply JsMap_get_set_same | exact Hlast]. }
  apply JsMap_get_In in G. unfold JsMap.values. apply in_map_iff.
  now exists (SlotEngine.dedupKey v, v).
Qed.

(** X25. The older extractor drops the large numbers of the stack: every
    entry of source [stack] it returns is a text that [BigInt] does not read,
    or that reads as a number below 2^128. *)
Theorem legacy_stack_entries_are_small
        (trace : TraceArg) (txData : TxData.t) (v : TraceValue.t)
        (Hv : In v (SlotEngine.extractPotentialValuesFromTrace trace txData))
        (Hstack : TraceValue.source v = "stack") :
  exists s, TraceValue.value v = SString s
            /\ match Js.stringToBigInt s with
               | Some n => n < 2 ^ 128
               | None => True
               end.
Proof.
  apply dedupValues_subset in Hv.
  revert v Hv Hstack. unfold SlotEngine.collectValues.
  set (Q := fun values : list TraceValue.t =>
         forall v, In v values -> TraceValue.source v = "stack" ->
                   exists s, TraceValue.value v = SString s
                             /\ match Js.stringToBigInt s with
                                | Some n => n < 2 ^ 128
                                | None => True
                                end).
  assert (Hother : forall values x,
             TraceValue.source x <> "stack" -> Q values ->
             Q (SlotEngine.push values x)).
  { intros values x Hx Hq v Hin Hs. apply In_push_inv in Hin as [Hin | ->];
      [now apply Hq | contradiction]. }
  assert (Hstep : forall op s values, Q values -> Q (SlotEngine.stackStep op s values)).
  { intros op s values Hq. unfold SlotEngine.stackStep.
    destruct (Js.stringToBigInt s) as [n |] eqn:En.
    - destruct (Z.ltb_spec n SlotEngine.TWO_128) as [Hn |]; [| exact Hq].
      intros v Hin Hs. apply In_push_inv in Hin as [Hin | ->]; [now apply Hq |].
      exists s. cbn [TraceValue.value]. rewrite En. split; [reflexivity | exact Hn].
    - intros v Hin Hs. apply In_push_inv in Hin as [Hin | ->]; [now apply Hq |].
      exists s. cbn [TraceValue.value]. now rewrite En. }
  assert (Hbase : Q (SlotEngine.argumentValues
                       txData (SlotEngine.constantValues
                                 (SlotEngine.addressValues txData [])))).
  { apply (argumentValues_keeps Q);
      [intros; apply Hother; [cbn; discriminate | assumption] |].
    rewrite constantValues_spec. intros v Hin Hs.
    apply in_app_or in Hin as [Hin | Hin].
    - revert v Hin Hs. apply (addressValues_keeps Q);
        [intros; apply Hother; [cbn; discriminate | assumption] |].
      intros v [].
    - apply in_map_iff in Hin as (j & <- & _). discriminate Hs. }
  unfold SlotEngine.stackValues. destruct trace as [t | steps].
  - destruct (Trace.uniqueStackValues t); [| exact Hbase].
    apply (forEach_invariant Q); [| exact Hbase]. intros; now apply Hstep.
  - apply (forEach_invariant Q); [| exact Hbase]. intros step s _ Hs.
    destruct (Step.stack step) as [stack |]; [| exact Hs].
    destruct (0 <? List.length stack)%nat; [| exact Hs].
    apply (forEach_invariant Q); [| exact Hs]. intros; now apply Hstep.
Qed.

Lemma allHexDigits_drop n : forall d,
  Viem.allHexDigits d = true -> Viem.allHexDigits (Js.drop n d) = true.
Proof.
  induction n as [| n IH]; intros d Hd; [exact Hd |].
  destruct d as [| c d]; [reflexivity |]. cbn [Js.drop].
  cbn [Viem.allHexDigits] in Hd. apply andb_prop in Hd as [_ Hd]. now apply IH.
Qed.

Lemma allHexDigits_take n : forall d,
  Viem.allHexDigits d = true -> Viem.allHexDigits (Js.take n d) = true.
Proof.
  induction n as [| n IH]; intros d Hd; [reflexivity |].
  destruct d as [| c d]; [reflexivity |]. cbn [Js.take Viem.allHexDigits].
  cbn [Viem.allHexDigits] in Hd. apply andb_prop in Hd as [Hc Hd].
  now rewrite Hc, IH.
Qed.

(** Hex digits do not start with [0x]. *)
Lemma startsWith_0x_hexDigits p rest :
  Viem.allHexDigits p = true -> Js.startsWith p (String "0" (String "x" rest)) = false.
Proof.
  destruct p as [| c0 [| c1 p]]; [reflexivity | |].
  - intros _. cbn [Js.startsWith]. apply andb_false_r.
  - intros H. cbn [Viem.allHexDigits] in H.
    apply andb_prop in H as [_ H]. apply andb_prop in H as [H1 _].
    cbn [Js.startsWith]. destruct (Ascii.eqb_spec "x" c1) as [<- | _].
    + discriminate H1.
    + now rewrite andb_false_r.
Qed.

(** X26. On calldata that is a hex string the older extractor never reads
    an argument as an address: a parameter is cut out of the hex digits after
    the selector, so it never starts with [0x] followed by 24 zeros, and no
    entry of source [argument] has the operation [ADDRESS_ARG]. *)
Theorem legacy_address_arguments_never_found
        (trace : TraceArg) (txData : TxData.t) (v : TraceValue.t)
        (Hhex : forall data, TxData.data txData = Some data -> Viem.isHex data = true)
        (Hv : In v (SlotEngine.extractPotentialValuesFromTrace trace txData))
        (Hargument : TraceValue.source v = "argument") :
  TraceValue.operation v <> "ADDRESS_ARG".
Proof.
  apply dedupValues_subset in Hv.
  revert v Hv Hargument. unfold SlotEngine.collectValues.
  set (Q := fun values : list TraceValue.t =>
         forall v, In v values -> TraceValue.source v = "argument" ->
                   TraceValue.operation v <> "ADDRESS_ARG").
  assert (Hpush : forall values x,
             (TraceValue.source x = "argument" ->
              TraceValue.operation x <> "ADDRESS_ARG") ->
             Q values -> Q (SlotEngine.push values x)).
  { intros values x Hx Hq v Hin Hs. apply In_push_inv in Hin as [Hin | ->]; auto. }
  apply (stackValues_keeps Q); [intros; apply Hpush; [discriminate | assumption] |].
  unfold SlotEngine.argumentValues.
  assert (Hbase : Q (SlotEngine.constantValues (SlotEngine.addressValues txData []))).
  { rewrite constantValues_spec. intros v Hin Hs.
    apply in_app_or in Hin as [Hin | Hin].
    - revert v Hin Hs. apply (addressValues_keeps Q);
        [intros; apply Hpush; [discriminate | assumption] |].
      intros v [].
    - apply in_map_iff in Hin as (j & <- & _). discriminate Hs. }
  destruct (TxData.data txData) as [data |] eqn:Ed; [| exact Hbase].
  destruct (Js.truthy data && (10 <=? String.length data)%nat); [| exact Hbase].
  specialize (Hhex data eq_refl). apply isHex_inv in Hhex as (d & -> & Hd).
  apply (forEach_invariant Q); [| exact Hbase].
  intros i values _ Hq. unfold SlotEngine.argumentStep.
  assert (Hparam : Viem.allHexDigits
                     (Js.slice (10 + i * 64) (10 + i * 64 + 64) ("0x" ++ d)) = true).
  { unfold Js.slice. apply allHexDigits_take.
    change (Js.drop (10 + i * 64) ("0x" ++ d)) with (Js.drop (8 + i * 64) d).
    now apply allHexDigits_drop. }
  rewrite (startsWith_0x_hexDigits _ _ Hparam).
  destruct (Js.stringToBigInt _) as [n |]; [destruct (n <? SlotEngine.TWO_128) |];
    repeat (apply Hpush; [intros _; discriminate |]); exact Hq.
Qed.

(* ================================================================== *)
(** * When the key oracle and the resolver return *)
(* ================================================================== *)

Lemma padHex_returns hex size :
  (String.length (Js.removeFirst "0x" hex) <= size * 2)%nat ->
  exists r, Viem.padHex hex size = Ok r.
Proof.
  intros H. unfold Viem.padHex. apply Nat.ltb_ge in H. rewrite H. now eexists.
Qed.

Lemma stackKey_returns stackValue :
  (if Viem.isHex stackValue
   then (String.length (Js.removeFirst "0x" stackValue) <= 64)%nat
   else (List.length (Viem.stringToBytes stackValue) <= 32)%nat) ->
  exists k, KeyOracle.stackKey stackValue = Ok k.
Proof.
  unfold KeyOracle.stackKey. destruct (Viem.isHex stackValue); intros H.
  - destruct (padHex_returns stackValue 32 H) as (r & ->). cbn [bind]. now eexists.
  - unfold Viem.stringToHex. pose proof H as H'. apply Nat.ltb_ge in H'. rewrite H'.
    unfold Viem.padHexRight, Viem.bytesToHex. rewrite removeFirst_0x.
    rewrite length_hexDigitsOfBytes.
    destruct (32 * 2 <? 2 * List.length (Viem.stringToBytes stackValue))%nat eqn:E.
    + apply Nat.ltb_lt in E. lia.
    + cbn [bind]. now eexists.
Qed.

(** X27. When the calldata is not decoded (there is none, it is no longer
    than a selector, or no known function has its selector), the key oracle
    returns as soon as every touched address has at most 64 characters after
    [0x], every hex stack value at most 64 digits, and every other stack
    value at most 32 bytes of text. *)
Theorem extractPotentialKeys_returns_without_abi
        (codec : AbiCodec.t) (trace : Trace.t) (addresses : list string)
        (abiFunctions : list AbiFunction.t) (txData : option string)
        (Haddresses : forall address, In address addresses ->
            (String.length (Js.removeFirst "0x" address) <= 64)%nat)
        (Hunknown : forall data, txData = Some data ->
            (String.length data <= 10)%nat
            \/ forall fn, In fn abiFunctions ->
                          AbiFunction.selector fn <> Js.slice 0 10 data)
        (Hstack : forall values stackValue,
            Trace.uniqueStackValues trace = Some values -> In stackValue values ->
            if Viem.isHex stackValue
            then (String.length (Js.removeFirst "0x" stackValue) <= 64)%nat
            else (List.length (Viem.stringToBytes stackValue) <= 32)%nat) :
  exists out,
    KeyOracle.extractPotentialKeys codec trace addresses abiFunctions txData = Ok out.
Proof.
  assert (E : KeyOracle.extractPotentialKeys codec trace addresses abiFunctions txData
              = KeyOracle.extractPotentialKeys codec trace addresses [] None).
  { destruct txData as [data |].
    - unfold KeyOracle.extractPotentialKeys, KeyOracle.collectPotentialKeys.
      destruct (forEachM addresses _ []) as [keys |]; cbn [bind]; [| reflexivity].
      assert (Ec : KeyOracle.calldataKeys codec abiFunctions (Some data) keys = Ok keys).
      { unfold KeyOracle.calldataKeys. destruct (Hunknown data eq_refl) as [Hshort | Hsel].
        - apply Nat.ltb_ge in Hshort. rewrite Hshort, andb_false_r. reflexivity.
        - rewrite find_is_none; [now destruct (_ && _) |].
          intros fn Hfn. apply String.eqb_neq. now apply Hsel. }
      rewrite Ec. reflexivity.
    - reflexivity. }
  rewrite E. unfold KeyOracle.extractPotentialKeys, KeyOracle.collectPotentialKeys.
  destruct (forEachM_returns (fun _ : list MappingKey.t => True)
              (fun address keys =>
                 k <- KeyOracle.addressKey address ;; Ok (keys ++ [k])%list)
              addresses []) as (keys1 & E1 & _); [| exact I |].
  { intros a s1 Ha _. unfold KeyOracle.addressKey.
    destruct (padHex_returns a 32 (Haddresses a Ha)) as (r & ->). cbn [bind].
    now eexists. }
  rewrite E1. cbn [bind KeyOracle.calldataKeys].
  unfold KeyOracle.stackKeys.
  destruct (Trace.uniqueStackValues trace) as [[| v vs] |] eqn:Ev;
    [now eexists | | now eexists].
  destruct (forEachM_returns (fun _ : list MappingKey.t => True)
              (fun stackValue keys =>
                 k <- KeyOracle.stackKey stackValue ;; Ok (keys ++ [k])%list)
              (v :: vs) keys1) as (keys2 & E2 & _); [| exact I |].
  { intros sv s1 Hsv _.
    destruct (stackKey_returns sv (Hstack _ sv eq_refl Hsv)) as (k & ->). cbn [bind].
    now eexists. }
  rewrite E2. cbn [bind]. now eexists.
Qed.

(** X28. The resolver returns on candidates that are 32-byte hex words, as
    long as the elements below index 10^6 of every dynamic array of the
    layout sit below 2^256. *)
Theorem findLayoutInfoAtSlot_returns_on_words
        (slot : string) (storageLayout : list StorageSlotInfo.t)
        (potentialKeys : list MappingKey.t)
        (Hkeys : forall k, In k potentialKeys ->
                           Viem.isHex256 (MappingKey.hex k) = true)
        (Harrays : forall a,
            In a storageLayout -> Engine.isDynamicArray a = true ->
            Viem.toU256 (Keccak.keccak_256 (Viem.toBytes (StorageSlotInfo.slot a)))
            + Engine.LIMIT <= 2 ^ 256) :
  exists results,
    Engine.findLayoutInfoAtSlot slot storageLayout potentialKeys = Ok results.
Proof.
  destruct (findLayoutInfoAtSlot_returns slot storageLayout potentialKeys Hkeys Harrays)
    as (results & H & _).
  now exists results.
Qed.

(* ================================================================== *)
(** * The candidate keys and the older engine on the sample contract *)
(* ================================================================== *)

(** [transfer] is not in the known ABI: its arguments are not decoded, and
    the candidates are those of the address and of the stack. *)
Lemma calldata_without_abi_is_ignored_witness :
  KeyOracle.extractPotentialKeys SampleAbi.codec Sample.stackTrace [Sample.user]
                                 [Sample.setName] (Some Sample.transferCalldata)
  = KeyOracle.extractPotentialKeys SampleAbi.codec Sample.stackTrace [Sample.user]
                                   [] None.
Proof.
  apply calldata_without_abi_is_ignored. right.
  intros fn Hfn. in_cases Hfn. vm_compute. discriminate.
Defined.

Lemma candidate_keys_are_words_witness :
  String.length (MappingKey.hex Sample.threeKey) = 66%nat
  /\ Js.startsWith (MappingKey.hex Sample.threeKey) "0x" = true
  /\ (MappingKey.type Sample.threeKey = None ->
      Viem.isHex256 (MappingKey.hex Sample.threeKey) = true).
Proof.
  apply (candidate_keys_are_words SampleAbi.codec Sample.stackTrace [Sample.user]
                                  [] None Sample.keys Sample.threeKey).
  - vm_compute. reflexivity.
  - right; left. reflexivity.
Defined.

Lemma dedupeKeys_keeps_distinct_keys_witness :
  KeyOracle.dedupeKeys Sample.keys = Sample.keys.
Proof.
  apply dedupeKeys_keeps_distinct_keys.
  cbn [Sample.keys map]. constructor.
  - intros [H | []]. vm_compute in H. discriminate H.
  - constructor; [intros [] | constructor].
Defined.

(** The typed address key replaces the untyped key of the same [hex]
    collected before it. *)
Lemma dedupeKeys_kept_entry_witness :
  In Sample.userKey
     (KeyOracle.dedupeKeys
        ([MappingKey.mk (MappingKey.hex Sample.userKey) None None]
         ++ Sample.userKey :: [Sample.threeKey])).
Proof.
  apply dedupeKeys_kept_entry.
  - intros k' Hk' E. in_cases Hk'. reflexivity.
  - left. reflexivity.
Defined.

Lemma call_values_become_candidates_witness :
  (forall log stackValue,
      In log Sample.traceLog -> In stackValue (StructLog.stack log) ->
      exists k fromStack,
        In k Sample.keys /\ KeyOracle.stackKey stackValue = Ok fromStack
        /\ MappingKey.hex k = MappingKey.hex fromStack)
  /\ (forall address,
         In address Sample.preimages -> address <> TraceTs.ZERO_ADDRESS ->
         exists k,
           In k Sample.keys /\ Viem.padHex address 32 = Ok (MappingKey.hex k)
           /\ Js.truthyOpt (MappingKey.type k) = true).
Proof.
  apply (call_values_become_candidates SampleAbi.codec Sample.preimages
                                       Sample.traceLog [Sample.setName]
                                       (Some Sample.transferCalldata)).
  vm_compute. reflexivity.
Defined.

(** Slot 4 as a 32-byte hex word makes the older [computeMappingSlot] raise;
    as the bigint 4 it gives the slot of [purchases[user]] of the current
    engine. *)
Lemma legacy_mapping_slot_raises_on_long_string_witness :
  exists e,
    SlotEngine.computeMappingSlot (SString Sample.slot4) (SString Sample.user)
                                  (Some "t_address")
    = Err e.
Proof.
  apply legacy_mapping_slot_raises_on_long_string. vm_compute. lia.
Defined.

Lemma legacy_mapping_slot_agrees_witness :
  SlotEngine.computeMappingSlot (SBigInt 4) (SString Sample.user) (Some "t_address")
  = Ok (Engine.computeMappingSlot Sample.slot4 Sample.userKey).
Proof.
  apply (legacy_mapping_slot_agrees 4 Sample.user (Some "t_address") Sample.slot4
                                    (MappingKey.hex Sample.userKey)
                                    (Some (JString Sample.user)) (Some "address"));
    reflexivity.
Defined.

(** Base slot 0 and index 2^256 - 1: the current engine raises on this sum,
    the older one returns it with 65 digits. *)
Lemma legacy_array_slot_is_unbounded_witness :
  SlotEngine.computeArraySlot (SBigInt 0) (SBigInt Sample.MAX_U256)
  = Ok ("0x" ++ Js.toStringRadix
                  16 (Viem.toU256 (Keccak.keccak_256 (Viem.toBytes Sample.slot0))
                      + Sample.MAX_U256)).
Proof.
  apply (proj1 (legacy_array_slot_is_unbounded 0 Sample.MAX_U256 Sample.slot0
                                               eq_refl)).
  apply Z.leb_le. vm_compute. reflexivity.
Defined.

Example legacy_array_slot_past_2_256 :
  SlotEngine.computeArraySlot (SBigInt 0) (SBigInt Sample.MAX_U256)
  = Ok "0x1290decd9548b62a8d60345a988386fc84ba6bc95484008f6362f93160ef3e562".
Proof. vm_compute. reflexivity. Qed.

Lemma array_slots_agree_after_normalizeSlot_witness :
  exists t,
    SlotEngine.computeArraySlot (SBigInt 5) (SBigInt 3) = Ok t
    /\ SlotEngine.normalizeSlot (SString Sample.numbers3) = Ok t.
Proof.
  apply (array_slots_agree_after_normalizeSlot 5 3 Sample.slot5 Sample.numbers3).
  - reflexivity.
  - vm_compute. reflexivity.
Defined.

(** A string base slot that fits a word is hashed as text: [0x4] does not
    give the slot of [purchases[user]]. *)
Example legacy_mapping_slot_of_text :
  SlotEngine.computeMappingSlot (SString "0x4") (SString Sample.user) (Some "t_address")
  = Ok "0x96c3c2b7e986ab536950f866823057c4e353fbbf521696ed1fc9ac46f8e697ed"
  /\ Engine.computeMappingSlot Sample.slot4 Sample.userKey
     = "0xda6dd1bfa6ba17ca0d2867ed3e52be67e29434ebd8a7e7c15ee74acd0f516122".
Proof. split; vm_compute; reflexivity. Qed.

Lemma legacy_last_entry_wins_witness :
  In (SlotEngine.constant 3)
     (SlotEngine.extractPotentialValuesFromTrace Sample.legacyTrace Sample.legacyTxData).
Proof.
  apply (legacy_last_entry_wins
           Sample.legacyTrace Sample.legacyTxData
           (firstn 4 (SlotEngine.collectValues Sample.legacyTrace Sample.legacyTxData))
           (skipn 5 (SlotEngine.collectValues Sample.legacyTrace Sample.legacyTxData))
           (SlotEngine.constant 3)).
  - vm_compute. reflexivity.
  - intros v' Hv'. vm_compute in Hv'. in_cases Hv'; vm_compute; discriminate.
Defined.

(** The stack holds the index 3 and the user's address: the address, a
    number of 160 bits, is dropped; the index is kept. *)
Lemma legacy_stack_entries_are_small_witness :
  exists s,
    TraceValue.value (TraceValue.mk (SString "0x3") "stack" None "STACK") = SString s
    /\ match Js.stringToBigInt s with
       | Some n => n < 2 ^ 128
       | None => True
       end.
Proof.
  apply (legacy_stack_entries_are_small Sample.legacyTrace Sample.legacyTxData).
  - vm_compute. do 16 right. left. reflexivity.
  - reflexivity.
Defined.

Lemma legacy_address_arguments_never_found_witness :
  TraceValue.operation
    (TraceValue.mk
       (SString "0000000000000000000000000000000000000000000000000000000000000020")
       "argument" (Some 0) "ARG")
  <> "ADDRESS_ARG".
Proof.
  apply (legacy_address_arguments_never_found Sample.legacyTrace Sample.legacyTxData).
  - intros data H. vm_compute in H. inversion H. reflexivity.
  - vm_compute. do 11 right. left. reflexivity.
  - reflexivity.
Defined.

Lemma extractPotentialKeys_returns_without_abi_witness :
  exists out,
    KeyOracle.extractPotentialKeys SampleAbi.codec Sample.stackTrace [Sample.user]
                                   [Sample.setName] (Some Sample.transferCalldata)
    = Ok out.
Proof.
  apply extractPotentialKeys_returns_without_abi.
  - intros address Ha. in_cases Ha. vm_compute. lia.
  - intros data H. inversion H. subst data. right.
    intros fn Hfn. in_cases Hfn. vm_compute. discriminate.
  - intros values stackValue Hv Hin. vm_compute in Hv. inversion Hv. subst values.
    in_cases Hin; vm_compute; lia.
Defined.

Lemma findLayoutInfoAtSlot_returns_on_words_witness :
  exists results,
    Engine.findLayoutInfoAtSlot Sample.slot7 Sample.layout Sample.keys = Ok results.
Proof.
  apply findLayoutInfoAtSlot_returns_on_words.
  - intros k Hk. in_cases Hk; reflexivity.
  - intros a Ha Hdyn. in_cases Ha; try (vm_compute in Hdyn; discriminate Hdyn).
    apply Z.leb_le. vm_compute. reflexivity.
Defined.
